(** * iSAC pitch filter (pitch_filter.c): a shallow embedding

    The development follows
    [src/modules/audio_coding/codecs/isac/main/source/pitch_filter.c].
    A C [double] is a binary64 value of Rocq's primitive floats, so every
    sum and product below rounds exactly as the IEEE-754 operation of the C
    program does (without fused multiply-add contraction and without x87
    extended precision).  A C [int] is a [Z]; the indices of a run that
    stays inside its arrays are far below the range of [int], and where the
    code assigns a wider integer to an [int], the conversion is written out.
    An array is a list, read and written by index; an access outside the
    array, which is undefined behaviour in C, makes the embedded function
    return [None].  The arrays that a caller passes are taken to be
    disjoint. *)

From Stdlib Require Import ZArith Lia Floats.
From stdpp Require Import base option list.

Set Warnings "-inexact-float".
#[local] Open Scope Z_scope.

(** ** Arrays and loops *)

Section Arrays.
Context {A : Type}.

(** [a[i]] *)
Definition aget (a : list A) (i : Z) : option A :=
  if decide (0 ≤ i) then a !! Z.to_nat i else None.

(** [a[i] = x]: the entry must exist. *)
Definition aset (a : list A) (i : Z) (x : A) : option (list A) :=
  _ ← aget a i; Some (<[Z.to_nat i := x]> a).
End Arrays.

Section Loops.
Context {S : Type}.
Variable body : Z → S → option S.

Fixpoint up_steps (k : nat) (i : Z) (s : S) : option S :=
  match k with
  | O => Some s
  | Datatypes.S k' => s' ← body i s; up_steps k' (i + 1) s'
  end.

(** [for (i = lo; i < hi; ++i) body] *)
Definition for_up (lo hi : Z) (s : S) : option S :=
  up_steps (Z.to_nat (hi - lo)) lo s.

Fixpoint down_steps (k : nat) (i : Z) (s : S) : option S :=
  match k with
  | O => Some s
  | Datatypes.S k' => s' ← body i s; down_steps k' (i - 1) s'
  end.

(** [for (i = hi; i >= lo; --i) body] *)
Definition for_down (hi lo : Z) (s : S) : option S :=
  down_steps (Z.to_nat (hi - lo + 1)) hi s.
End Loops.

(** ** Numbers *)

(** Conversion of an [int] to [double] (exact for every 32-bit value). *)
Definition of_int (z : Z) : float :=
  match z with
  | Z0 => 0%float
  | Zpos _ => of_uint63 (Uint63.of_Z z)
  | Zneg p => (- of_uint63 (Uint63.of_Z (Zpos p)))%float
  end.

(** The range of a C [int], and the conversion of a wider integer to it on
    assignment.  C leaves the result for a value outside the range to the
    implementation; the compilers that build this code keep the low 32 bits
    (the value modulo [2^32]). *)
Definition in_int (z : Z) : Prop := - 2 ^ 31 ≤ z < 2 ^ 31.

Definition to_int (z : Z) : Z := (z + 2 ^ 31) mod 2 ^ 32 - 2 ^ 31.

(** Modelled from the spec: [WebRtcIsac_lrint] comes from
    os_specific_inline.h, which is not part of the excerpt; the spec calls
    it "round".  This is C's [lrint] in the default rounding mode: the
    nearest integer, a tie going to the even one.  NaN and the infinities,
    where C leaves the result unspecified, give 0. *)
Definition lrint_nearest_even (x : float) : Z :=
  match Prim2SF x with
  | S754_finite s m e =>
      let mag :=
        if decide (0 ≤ e) then Z.pos m * 2 ^ e
        else
          let d := 2 ^ (- e) in
          let q := Z.pos m / d in
          let r := Z.pos m mod d in
          if decide (2 * r < d) then q
          else if decide (d < 2 * r) then q + 1
          else if Z.even q then q else q + 1 in
      if s then - mag else mag
  | _ => 0
  end.

(** Modelled from the spec: a second reading of "round", the portable
    [(long) floor(x + 0.499999999999)] of platforms without [lrint]. *)
Definition lrint_floor (x : float) : Z :=
  match Prim2SF (x + 0.499999999999)%float with
  | S754_finite s m e =>
      if decide (0 ≤ e) then (if s then - (Z.pos m * 2 ^ e) else Z.pos m * 2 ^ e)
      else
        let d := 2 ^ (- e) in
        if s then - ((Z.pos m + d - 1) / d) else Z.pos m / d
  | _ => 0
  end.

(** Modelled from the spec: a third reading of "round", C's [round]: the
    nearest integer, a tie going away from zero. *)
Definition lrint_half_away (x : float) : Z :=
  match Prim2SF x with
  | S754_finite s m e =>
      let mag :=
        if decide (0 ≤ e) then Z.pos m * 2 ^ e
        else
          let d := 2 ^ (- e) in
          if decide (2 * (Z.pos m mod d) < d) then Z.pos m / d else Z.pos m / d + 1 in
      if s then - mag else mag
  | _ => 0
  end.

(** ** Constants *)

(** The macros of settings.h are not part of the excerpt, and the spec leaves
    the values of most of them open; they are parameters of the development,
    together with the rounding helper. *)
Record Settings := {
  PITCH_FRAME_LEN : Z;
  PITCH_BUFFSIZE : Z;
  PITCH_INTBUFFSIZE : Z;
  QLOOKAHEAD : Z;
  PITCH_UPDATE : Z;
  PITCH_GRAN_PER_SUBFRAME : Z;
  PITCH_FILTDELAY : float;
  PITCH_UPSTEP : float;
  PITCH_DOWNSTEP : float;
  WebRtcIsac_lrint : float → Z
}.

(** The dimensions that the initialisers of the two tables and the
    declarations [damper_state_dg[4]] and [gain_mult[4]] fix. *)
Definition PITCH_DAMPORDER : Z := 5.
Definition PITCH_FRACS : Z := 8.
Definition PITCH_FRACORDER : Z := 9.
Definition PITCH_SUBFRAMES : Z := 4.

Definition kDampFilter : list float :=
  [-0.07; 0.25; 0.64; 0.25; -0.07]%float.

(** interpolation coefficients; generated by design_pitch_filter.m *)
Definition kIntrpCoef : list (list float) :=
  [ [-0.02239172458614;  0.06653315052934; -0.16515880017569;  0.60701333734125;
      0.64671399919202; -0.20249000396417;  0.09926548334755; -0.04765933793109;
      0.01754159521746];
    [-0.01985640750434;  0.05816126837866; -0.13991265473714;  0.44560418147643;
      0.79117042386876; -0.20266133815188;  0.09585268418555; -0.04533310458084;
      0.01654127246314];
    [-0.01463300534216;  0.04229888475060; -0.09897034715253;  0.28284326017787;
      0.90385267956632; -0.16976950138649;  0.07704272393639; -0.03584218578311;
      0.01295781500709];
    [-0.00764851320885;  0.02184035544377; -0.04985561057281;  0.13083306574393;
      0.97545011664662; -0.10177807997561;  0.04400901776474; -0.02010737175166;
      0.00719783432422];
    [-0.00000000000000;  0.00000000000000; -0.00000000000001;  0.00000000000001;
      0.99999999999999;  0.00000000000001; -0.00000000000001;  0.00000000000000;
     -0.00000000000000];
    [ 0.00719783432422; -0.02010737175166;  0.04400901776474; -0.10177807997562;
      0.97545011664663;  0.13083306574393; -0.04985561057280;  0.02184035544377;
     -0.00764851320885];
    [ 0.01295781500710; -0.03584218578312;  0.07704272393640; -0.16976950138650;
      0.90385267956634;  0.28284326017785; -0.09897034715252;  0.04229888475059;
     -0.01463300534216];
    [ 0.01654127246315; -0.04533310458085;  0.09585268418557; -0.20266133815190;
      0.79117042386878;  0.44560418147640; -0.13991265473712;  0.05816126837865;
     -0.01985640750433] ]%float.

(** ** Types *)

Inductive PitchFilterOperation :=
  | kPitchFilterPre
  | kPitchFilterPost
  | kPitchFilterPreLa
  | kPitchFilterPreGain.

#[global] Instance PitchFilterOperation_eq_dec : EqDecision PitchFilterOperation.
Proof. solve_decision. Defined.

(** Structure with parameters used for pitch-filtering.  [interpol_coeff]
    points to a row of [kIntrpCoef]; the embedding holds the row. *)
Record PitchFilterParam := mkParam {
  buffer : list float;
  damper_state : list float;
  interpol_coeff : list float;
  gain : float;
  lag : float;
  lag_offset : Z;
  sub_frame : Z;
  mode : PitchFilterOperation;
  num_samples : Z;
  index : Z;
  damper_state_dg : list (list float);
  gain_mult : list float
}.

(** The persistent state of a channel.  PitchFiltstr is declared in
    structs.h, outside the excerpt: [ubuf] has [PITCH_BUFFSIZE] entries,
    [ystate] as many as [damper_state], and [oldlagp] and [oldgainp] hold one
    value each. *)
Record PitchFiltstr := mkState {
  ubuf : list float;
  ystate : list float;
  oldlagp : float;
  oldgainp : float
}.

(** The caller's memory that a call of [FilterFrame] can write to. *)
Record FrameResult := mkResult {
  r_state : PitchFiltstr;
  r_gains : list float;
  r_out_data : list float;
  r_out_dg : list (list float)
}.

Definition set_buffer (p : PitchFilterParam) (b : list float) :=
  mkParam b (damper_state p) (interpol_coeff p) (gain p) (lag p) (lag_offset p)
    (sub_frame p) (mode p) (num_samples p) (index p) (damper_state_dg p) (gain_mult p).
Definition set_damper_state (p : PitchFilterParam) (d : list float) :=
  mkParam (buffer p) d (interpol_coeff p) (gain p) (lag p) (lag_offset p)
    (sub_frame p) (mode p) (num_samples p) (index p) (damper_state_dg p) (gain_mult p).
Definition set_interpol_coeff (p : PitchFilterParam) (c : list float) :=
  mkParam (buffer p) (damper_state p) c (gain p) (lag p) (lag_offset p)
    (sub_frame p) (mode p) (num_samples p) (index p) (damper_state_dg p) (gain_mult p).
Definition set_gain (p : PitchFilterParam) (g : float) :=
  mkParam (buffer p) (damper_state p) (interpol_coeff p) g (lag p) (lag_offset p)
    (sub_frame p) (mode p) (num_samples p) (index p) (damper_state_dg p) (gain_mult p).
Definition set_lag (p : PitchFilterParam) (l : float) :=
  mkParam (buffer p) (damper_state p) (interpol_coeff p) (gain p) l (lag_offset p)
    (sub_frame p) (mode p) (num_samples p) (index p) (damper_state_dg p) (gain_mult p).
Definition set_lag_offset (p : PitchFilterParam) (o : Z) :=
  mkParam (buffer p) (damper_state p) (interpol_coeff p) (gain p) (lag p) o
    (sub_frame p) (mode p) (num_samples p) (index p) (damper_state_dg p) (gain_mult p).
Definition set_sub_frame (p : PitchFilterParam) (m : Z) :=
  mkParam (buffer p) (damper_state p) (interpol_coeff p) (gain p) (lag p) (lag_offset p)
    m (mode p) (num_samples p) (index p) (damper_state_dg p) (gain_mult p).
Definition set_num_samples (p : PitchFilterParam) (n : Z) :=
  mkParam (buffer p) (damper_state p) (interpol_coeff p) (gain p) (lag p) (lag_offset p)
    (sub_frame p) (mode p) n (index p) (damper_state_dg p) (gain_mult p).
Definition set_index (p : PitchFilterParam) (i : Z) :=
  mkParam (buffer p) (damper_state p) (interpol_coeff p) (gain p) (lag p) (lag_offset p)
    (sub_frame p) (mode p) (num_samples p) i (damper_state_dg p) (gain_mult p).
Definition set_damper_state_dg (p : PitchFilterParam) (d : list (list float)) :=
  mkParam (buffer p) (damper_state p) (interpol_coeff p) (gain p) (lag p) (lag_offset p)
    (sub_frame p) (mode p) (num_samples p) (index p) d (gain_mult p).
Definition set_gain_mult (p : PitchFilterParam) (g : list float) :=
  mkParam (buffer p) (damper_state p) (interpol_coeff p) (gain p) (lag p) (lag_offset p)
    (sub_frame p) (mode p) (num_samples p) (index p) (damper_state_dg p) g.

(** ** The filter *)

Section PitchFilter.
Variable cfg : Settings.

(** The caller's [out_data] and [out_dg] travel with the parameters. *)
Definition Work : Type := PitchFilterParam * list float * list (list float).

(** The [kPitchFilterPreGain] block of the sample loop of [FilterSegment]:
    [sum] is the fractional-pitch sum of the sample. *)
Definition FilterSample_dg (p : PitchFilterParam) (sum : float)
    (out_dg : list (list float)) : option (list (list float) * list (list float)) :=
  let lag_index := index p - lag_offset p in
  let m_tmp := if decide (lag_index < 0) then - lag_index else 0 in
  (* Update the damper state for the new sample. *)
  dg ← for_down (λ m dg,
          for_up (λ j dg,
            row ← aget dg j;
            x ← aget row (m - 1);
            row ← aset row m x;
            aset dg j row) 0 4 dg)
        (PITCH_DAMPORDER - 1) 1 (damper_state_dg p);
  dg ← for_up (λ j dg,
          (* Filter for fractional pitch. *)
          sum2 ← for_down (λ m sum2,
                    row ← aget out_dg j;
                    o ← aget row (lag_index + m);
                    c ← aget (interpol_coeff p) m;
                    Some (sum2 + o * c)%float)
                  (PITCH_FRACORDER - 1) m_tmp 0%float;
          (* Add the contribution of differential gain change. *)
          gm ← aget (gain_mult p) j;
          row ← aget dg j;
          row ← aset row 0 (gm * sum + gain p * sum2)%float;
          aset dg j row)
        0 (sub_frame p + 1) dg;
  (* Filter with damping filter, and store the results. *)
  out_dg ← for_up (λ j out_dg,
          row ← aget dg j;
          sum ← for_up (λ m sum,
                    d ← aget row m;
                    k ← aget kDampFilter m;
                    Some (sum - d * k)%float)
                  0 PITCH_DAMPORDER 0%float;
          orow ← aget out_dg j;
          orow ← aset orow (index p) sum;
          aset out_dg j orow)
        0 (sub_frame p + 1) out_dg;
  Some (dg, out_dg).

(** The shift of the low pass filter states. *)
Definition shift_damper (d : list float) : option (list float) :=
  for_down (λ m d, x ← aget d (m - 1); aset d m x) (PITCH_DAMPORDER - 1) 1 d.

(** The fractional-pitch sum of a sample. *)
Definition fractional_pitch (buf coeff : list float) (pos_lag : Z) : option float :=
  for_up (λ m sum,
      b ← aget buf (pos_lag + m);
      c ← aget coeff m;
      Some (sum + b * c)%float)
    0 PITCH_FRACORDER 0%float.

(** The damping filter applied to the damper state. *)
Definition damp (d : list float) : option float :=
  for_up (λ m sum,
      x ← aget d m;
      k ← aget kDampFilter m;
      Some (sum + x * k)%float)
    0 PITCH_DAMPORDER 0%float.

(** One turn of the sample loop of [FilterSegment], [pos] and [pos_lag]
    being the loop's two buffer positions. *)
Definition FilterSample (in_data : list float) (pos pos_lag : Z) (w : Work)
    : option Work :=
  let '(p, out_data, out_dg) := w in
  (* Shift low pass filter states. *)
  d ← shift_damper (damper_state p);
  (* Filter to get fractional pitch. *)
  sum ← fractional_pitch (buffer p) (interpol_coeff p) pos_lag;
  (* Multiply with gain. *)
  d ← aset d 0 (gain p * sum)%float;
  let p := set_damper_state p d in
  '(dg, out_dg) ←
    (if decide (mode p = kPitchFilterPreGain)
     then FilterSample_dg p sum out_dg
     else Some (damper_state_dg p, out_dg));
  let p := set_damper_state_dg p dg in
  (* Filter with damping filter. *)
  sum ← damp (damper_state p);
  (* Subtract from input and update buffer. *)
  x ← aget in_data (index p);
  out_data ← aset out_data (index p) (x - sum)%float;
  x ← aget in_data (index p);
  y ← aget out_data (index p);
  buf ← aset (buffer p) pos (x + y)%float;
  let p := set_buffer p buf in
  Some (set_index p (index p + 1), out_data, out_dg).

(** The first [n] turns of the sample loop of [FilterSegment]. *)
Definition FilterSegment_upto (in_data : list float) (w : Work) (n : Z)
    : option Work :=
  let p := w.1.1 in
  (* Index of |parameters->buffer| where the output is written to. *)
  let pos := index p + PITCH_BUFFSIZE cfg in
  (* Index of |parameters->buffer| where samples are read for fractional-lag
     computation. *)
  let pos_lag := pos - lag_offset p in
  for_up (λ n w, FilterSample in_data (pos + n) (pos_lag + n) w) 0 n w.

(** Filter one segment: [num_samples] samples from [index] on. *)
Definition FilterSegment (in_data : list float) (w : Work) : option Work :=
  FilterSegment_upto in_data w (num_samples w.1.1).

(** Update filter parameters based on the pitch-gains and pitch-lags.
    [lag_offset] and [fraction_index] are [int]s: what the rounding helper
    returns is converted on assignment. *)
Definition Update (p : PitchFilterParam) : option PitchFilterParam :=
  (* Compute integer lag-offset. *)
  let p := set_lag_offset p
             (to_int (WebRtcIsac_lrint cfg (lag p + PITCH_FILTDELAY cfg + 0.5)%float)) in
  (* Find correct set of coefficients for computing fractional pitch. *)
  let fraction := (of_int (lag_offset p) - (lag p + PITCH_FILTDELAY cfg))%float in
  let fraction_index :=
    to_int (WebRtcIsac_lrint cfg (of_int PITCH_FRACS * fraction - 0.5)%float) in
  row ← aget kIntrpCoef fraction_index;
  let p := set_interpol_coeff p row in
  if decide (mode p = kPitchFilterPreGain) then
    (* If in this mode make a differential change to pitch gain. *)
    g ← aget (gain_mult p) (sub_frame p);
    gm ← aset (gain_mult p) (sub_frame p) (g + 0.2)%float;
    g ← aget gm (sub_frame p);
    gm ← (if (1.0 <? g)%float then aset gm (sub_frame p) 1.0%float else Some gm);
    gm ← (if decide (0 < sub_frame p)
          then g ← aget gm (sub_frame p - 1);
               aset gm (sub_frame p - 1) (g - 0.2)%float
          else Some gm);
    Some (set_gain_mult p gm)
  else Some p.

(** Set up buffer and states.  The fields that C leaves uninitialised are
    empty arrays here, so that reading one before it is written fails; the
    scalar ones are written before they are read. *)
Definition frame_init (filter_state : PitchFiltstr)
    (mode : PitchFilterOperation) : PitchFilterParam :=
  {| index := 0;
     lag_offset := 0;
     mode := mode;
     (* Copy states to local variables. *)
     buffer := ubuf filter_state ++
               replicate (Z.to_nat (PITCH_INTBUFFSIZE cfg + QLOOKAHEAD cfg)
                          - length (ubuf filter_state))%nat 0%float;
     damper_state := ystate filter_state;
     interpol_coeff := [];
     gain := 0%float;
     lag := 0%float;
     sub_frame := 0;
     num_samples := 0;
     damper_state_dg := [];
     gain_mult := [] |}.

Definition kEnhancer : float := 1.3%float.

(** The work that depends on the mode, before the filter runs: clearing
    the trial buffers, or scaling the caller's gains. *)
Definition frame_mode_setup (p : PitchFilterParam) (gains : list float)
    (out_dg : list (list float))
    : option (PitchFilterParam * list float * list (list float)) :=
  if decide (mode p = kPitchFilterPreGain) then
    (* Clear buffers. *)
    let p := set_gain_mult p (replicate 4 0%float) in
    let p := set_damper_state_dg p
               (replicate 4 (replicate (Z.to_nat PITCH_DAMPORDER) 0%float)) in
    out_dg ← for_up (λ n out_dg,
                aset out_dg n
                  (replicate (Z.to_nat (PITCH_FRAME_LEN cfg + QLOOKAHEAD cfg)) 0%float))
              0 PITCH_SUBFRAMES out_dg;
    Some (p, gains, out_dg)
  else if decide (mode p = kPitchFilterPost) then
    (* Make output more periodic. Negative sign is to change the structure
       of the filter. *)
    gains ← for_up (λ n gains,
               g ← aget gains n;
               aset gains n (g * - kEnhancer)%float)
             0 PITCH_SUBFRAMES gains;
    Some (p, gains, out_dg)
  else Some (p, gains, out_dg).

(** No interpolation if pitch lag step is big: the anchors [old_lag] and
    [old_gain] of the first sub-frame. *)
Definition frame_anchors (filter_state : PitchFiltstr) (lags gains : list float)
    (p : PitchFilterParam) : option (float * float * PitchFilterParam) :=
  let old_lag := oldlagp filter_state in
  let old_gain := oldgainp filter_state in
  lag0 ← aget lags 0;
  if ((PITCH_UPSTEP cfg * old_lag <? lag0) ||
      (lag0 <? PITCH_DOWNSTEP cfg * old_lag))%float then
    old_lag ← aget lags 0;
    old_gain ← aget gains 0;
    if decide (mode p = kPitchFilterPreGain) then
      gm ← aset (gain_mult p) 0 1.0%float;
      Some (old_lag, old_gain, set_gain_mult p gm)
    else Some (old_lag, old_gain, p)
  else Some (old_lag, old_gain, p).

(** One granule: step-wise interpolation of pitch gains and lags, then a
    segment of input. *)
Definition frame_granule (in_data : list float) (gain_delta lag_delta : float)
    (w : Work) : option Work :=
  let '(p, out_data, out_dg) := w in
  let p := set_gain p (gain p + gain_delta)%float in
  let p := set_lag p (lag p + lag_delta)%float in
  (* Update parameters according to new lag value. *)
  p ← Update p;
  (* Filter a segment of input. *)
  FilterSegment in_data (p, out_data, out_dg).

(** The body of the sub-frame loop. *)
Definition frame_sub_frame (in_data lags gains : list float) (m : Z)
    (s : float * float * Work) : option (float * float * Work) :=
  let '(old_lag, old_gain, (p, out_data, out_dg)) := s in
  (* Set the sub-frame value. *)
  let p := set_sub_frame p m in
  (* Calculate interpolation steps for pitch-lag and pitch-gain. *)
  lag_m ← aget lags m;
  let lag_delta := ((lag_m - old_lag) / of_int (PITCH_GRAN_PER_SUBFRAME cfg))%float in
  let p := set_lag p old_lag in
  gain_m ← aget gains m;
  let gain_delta := ((gain_m - old_gain) / of_int (PITCH_GRAN_PER_SUBFRAME cfg))%float in
  let p := set_gain p old_gain in
  w ← for_up (λ n w, frame_granule in_data gain_delta lag_delta w)
        0 (PITCH_GRAN_PER_SUBFRAME cfg) (p, out_data, out_dg);
  (* Store for the next sub-frame. *)
  Some (lag_m, gain_m, w).

(** Export buffer and states, and store the anchors for the next frame. *)
Definition frame_export (filter_state : PitchFiltstr) (old_lag old_gain : float)
    (p : PitchFilterParam) : option PitchFiltstr :=
  if decide (mode p ≠ kPitchFilterPreGain) then
    guard (0 ≤ PITCH_FRAME_LEN cfg ∧
           PITCH_FRAME_LEN cfg + Z.of_nat (length (ubuf filter_state))
             ≤ Z.of_nat (length (buffer p)));;
    guard (length (ystate filter_state) ≤ length (damper_state p))%nat;;
    Some {| ubuf := take (length (ubuf filter_state))
                      (drop (Z.to_nat (PITCH_FRAME_LEN cfg)) (buffer p));
            ystate := take (length (ystate filter_state)) (damper_state p);
            oldlagp := old_lag;
            oldgainp := old_gain |}
  else Some filter_state.

(** Filter the lookahead segment, this is treated as the last sub-frame. *)
Definition frame_lookahead (in_data : list float) (w : Work) : option Work :=
  let '(p, out_data, out_dg) := w in
  if decide (mode p = kPitchFilterPreGain ∨ mode p = kPitchFilterPreLa) then
    let p := set_sub_frame p (PITCH_SUBFRAMES - 1) in
    let p := set_num_samples p (QLOOKAHEAD cfg) in
    FilterSegment in_data (p, out_data, out_dg)
  else Some w.

(** Everything of [FilterFrame] up to the end of the sub-frame loop. *)
Definition frame_filter (in_data : list float) (filter_state : PitchFiltstr)
    (lags gains : list float) (mode : PitchFilterOperation)
    (out_data : list float) (out_dg : list (list float))
    : option (list float * (float * float * Work)) :=
  guard (length (ubuf filter_state)
           ≤ Z.to_nat (PITCH_INTBUFFSIZE cfg + QLOOKAHEAD cfg))%nat;;
  '(p, gains, out_dg) ← frame_mode_setup (frame_init filter_state mode) gains out_dg;
  '(old_lag, old_gain, p) ← frame_anchors filter_state lags gains p;
  let p := set_num_samples p (PITCH_UPDATE cfg) in
  s ← for_up (frame_sub_frame in_data lags gains)
        0 PITCH_SUBFRAMES (old_lag, old_gain, (p, out_data, out_dg));
  Some (gains, s).

(** Filter a frame of 30 millisecond, given pitch-lags and pitch-gains. *)
Definition FilterFrame (in_data : list float) (filter_state : PitchFiltstr)
    (lags gains : list float) (mode : PitchFilterOperation)
    (out_data : list float) (out_dg : list (list float)) : option FrameResult :=
  '(gains, (old_lag, old_gain, w)) ←
    frame_filter in_data filter_state lags gains mode out_data out_dg;
  filter_state ← frame_export filter_state old_lag old_gain w.1.1;
  '(_, out_data, out_dg) ← frame_lookahead in_data w;
  Some (mkResult filter_state gains out_data out_dg).

(** The four entry points.  Those that pass [NULL] for [out_dg] pass no
    rows here. *)
Definition WebRtcIsac_PitchfilterPre in_data out_data pf_state lags gains :=
  FilterFrame in_data pf_state lags gains kPitchFilterPre out_data [].

Definition WebRtcIsac_PitchfilterPre_la in_data out_data pf_state lags gains :=
  FilterFrame in_data pf_state lags gains kPitchFilterPreLa out_data [].

Definition WebRtcIsac_PitchfilterPre_gains in_data out_data out_dg pf_state
    lags gains :=
  FilterFrame in_data pf_state lags gains kPitchFilterPreGain out_data out_dg.

Definition WebRtcIsac_PitchfilterPost in_data out_data pf_state lags gains :=
  FilterFrame in_data pf_state lags gains kPitchFilterPost out_data [].

End PitchFilter.

(** The values of the iSAC codec for the constants. *)
Definition isac (lrint : float → Z) : Settings :=
  {| PITCH_FRAME_LEN := 240;
     PITCH_BUFFSIZE := 190;
     PITCH_INTBUFFSIZE := 430;
     QLOOKAHEAD := 24;
     PITCH_UPDATE := 12;
     PITCH_GRAN_PER_SUBFRAME := 5;
     PITCH_FILTDELAY := 1.5%float;
     PITCH_UPSTEP := 1.5%float;
     PITCH_DOWNSTEP := 0.67%float;
     WebRtcIsac_lrint := lrint |}.

(** ** [FilterFrame] behind the lag-jump guard *)

(** What [FilterFrame] does once the anchors [old_lag] and [old_gain] of the
    first sub-frame are set: the sub-frame loop from them, the export and
    the lookahead.  [p] holds the parameters as the guard leaves them,
    [gains] the gains as the filter uses them. *)
Definition frame_from_anchors (cfg : Settings) (in_data : list float)
    (filter_state : PitchFiltstr) (lags gains : list float) (old_lag old_gain : float)
    (p : PitchFilterParam) (out_data : list float) (out_dg : list (list float))
    : option FrameResult :=
  '(old_lag, old_gain, w) ←
    for_up (frame_sub_frame cfg in_data lags gains) 0 PITCH_SUBFRAMES
      (old_lag, old_gain, (set_num_samples p (PITCH_UPDATE cfg), out_data, out_dg));
  filter_state ← frame_export cfg filter_state old_lag old_gain w.1.1;
  '(_, out_data, out_dg) ← frame_lookahead cfg in_data w;
  Some (mkResult filter_state gains out_data out_dg).

(** ** What [Update] derives from a lag *)

(** The field [lag_offset] and the locals [fraction] and [fraction_index]
    of [Update], as functions of the lag. *)
Definition lag_offset_of (cfg : Settings) (lag : float) : Z :=
  to_int (WebRtcIsac_lrint cfg (lag + PITCH_FILTDELAY cfg + 0.5)%float).

Definition fraction_of (cfg : Settings) (lag : float) : float :=
  (of_int (lag_offset_of cfg lag) - (lag + PITCH_FILTDELAY cfg))%float.

Definition fraction_index_of (cfg : Settings) (lag : float) : Z :=
  to_int (WebRtcIsac_lrint cfg (of_int PITCH_FRACS * fraction_of cfg lag - 0.5)%float).

(** ** The notions of the spec *)

(** The inner product of the spec: the products of the paired entries,
    summed from the first pair on. *)
Definition inner_product (a b : list float) : float :=
  foldl (λ acc xy, acc + xy.1 * xy.2)%float 0%float (zip a b).

(** The three quantities of the spec's ParameterUpdater, in the spec's
    words: the integer offset [round(lag + fixedFilterDelay + 0.5)], the
    fractional remainder [offset - (lag + fixedFilterDelay)], and the bin
    index [round(8 * remainder - 0.5)]. *)
Definition spec_lag_offset (cfg : Settings) (lag : float) : Z :=
  WebRtcIsac_lrint cfg (lag + PITCH_FILTDELAY cfg + 0.5)%float.

Definition spec_fraction (cfg : Settings) (lag : float) : float :=
  (of_int (spec_lag_offset cfg lag) - (lag + PITCH_FILTDELAY cfg))%float.

Definition spec_fraction_index (cfg : Settings) (lag : float) : Z :=
  WebRtcIsac_lrint cfg (8 * spec_fraction cfg lag - 0.5)%float.

(** "Clamped at 1.0" from above. *)
Definition clamp_one (x : float) : float :=
  if (1.0 <? x)%float then 1.0%float else x.

(** The lag-jump guard of the spec: the first sub-frame's target lag exceeds
    [oldLag * upStepRatio] or falls below [oldLag * downStepRatio]. *)
Definition lag_jump (cfg : Settings) (old_lag lag0 : float) : bool :=
  ((PITCH_UPSTEP cfg * old_lag <? lag0) || (lag0 <? PITCH_DOWNSTEP cfg * old_lag))%float.

(** The FrameController in the order of the spec's algorithm: step 6, the
    lookahead segment, comes before step 7, the commit to the persistent
    state.  [FilterFrame] above has the order of the C source. *)
Definition FilterFrame_lookahead_first (cfg : Settings) (in_data : list float)
    (filter_state : PitchFiltstr) (lags gains : list float)
    (mode : PitchFilterOperation) (out_data : list float)
    (out_dg : list (list float)) : option FrameResult :=
  '(gains, (old_lag, old_gain, w)) ←
    frame_filter cfg in_data filter_state lags gains mode out_data out_dg;
  '(p, out_data, out_dg) ← frame_lookahead cfg in_data w;
  filter_state ← frame_export cfg filter_state old_lag old_gain p;
  Some (mkResult filter_state gains out_data out_dg).

(** The number of samples that the sub-frame loop of [FilterFrame] filters:
    the frame without its lookahead (240 for iSAC). *)
Definition frame_samples (cfg : Settings) : Z :=
  PITCH_SUBFRAMES *
  (Z.max 0 (PITCH_GRAN_PER_SUBFRAME cfg) * Z.max 0 (PITCH_UPDATE cfg)).

(** ** The gains of a frame *)

(** [k] steps of [x += delta]. *)
Fixpoint ramp (k : nat) (x delta : float) : float :=
  match k with
  | O => x
  | Datatypes.S k' => (ramp k' x delta + delta)%float
  end.

(** The gain from which sub-frame [m] starts: [og0] for the first, the
    target of the sub-frame before for the others. *)
Definition gain_anchor (og0 : float) (gains : list float) (m : Z) : float :=
  if decide (m ≤ 0) then og0 else default 0%float (aget gains (m - 1)).

(** The gain of granule [n] of sub-frame [m]. *)
Definition frame_gain (cfg : Settings) (og0 : float) (gains : list float)
    (m : Z) (n : nat) : float :=
  let a := gain_anchor og0 gains m in
  ramp (Datatypes.S n) a
    ((default 0%float (aget gains m) - a) / of_int (PITCH_GRAN_PER_SUBFRAME cfg)).

(** The gain from which the first sub-frame starts, after the lag-jump
    guard. *)
Definition anchor_gain (cfg : Settings) (st : PitchFiltstr) (lags gains : list float)
    : float :=
  if lag_jump cfg (oldlagp st) (default 0%float (aget lags 0))
  then default 0%float (aget gains 0) else oldgainp st.

(** Every gain that a frame is filtered with, granule by granule. *)
Definition frame_gains (cfg : Settings) (og0 : float) (gains : list float) : list float :=
  m ← seqZ 0 PITCH_SUBFRAMES;
  frame_gain cfg og0 gains m <$> seq 0 (Z.to_nat (PITCH_GRAN_PER_SUBFRAME cfg)).

(** ** Bounds *)

(** The accesses of a segment outside a gain search stay inside the arrays:
    five damper slots, nine coefficients, [num_samples] input and output
    samples from [index] on, the buffer positions that are written, and the
    nine buffer entries that each sample reads at its lag offset. *)
Definition segment_in_bounds (cfg : Settings) (in_data : list float)
    (p : PitchFilterParam) (out_data : list float) : Prop :=
  let n := num_samples p in
  let pos := index p + PITCH_BUFFSIZE cfg in
  let pos_lag := pos - lag_offset p in
  PITCH_DAMPORDER ≤ Z.of_nat (length (damper_state p)) ∧
  PITCH_FRACORDER ≤ Z.of_nat (length (interpol_coeff p)) ∧
  0 ≤ index p ∧
  index p + n ≤ Z.of_nat (length in_data) ∧
  index p + n ≤ Z.of_nat (length out_data) ∧
  0 ≤ pos ∧ pos + n ≤ Z.of_nat (length (buffer p)) ∧
  0 ≤ pos_lag ∧ pos_lag + (n - 1) + PITCH_FRACORDER ≤ Z.of_nat (length (buffer p)).

(** The samples that a call of [FilterFrame] filters: the frame, and in the
    two modes that look ahead the lookahead segment after it. *)
Definition filtered_samples (cfg : Settings) (md : PitchFilterOperation) : Z :=
  frame_samples cfg +
  (if decide (md = kPitchFilterPreGain ∨ md = kPitchFilterPreLa)
   then Z.max 0 (QLOOKAHEAD cfg) else 0).

(** The samples of a sub-frame. *)
Definition sub_frame_samples (cfg : Settings) : Z :=
  Z.max 0 (PITCH_GRAN_PER_SUBFRAME cfg) * Z.max 0 (PITCH_UPDATE cfg).

(** [out_dg[j][i]] *)
Definition dg_entry (dg : list (list float)) (j i : Z) : option float :=
  row ← aget dg j; aget row i.

(** The lag from which the first sub-frame starts, after the lag-jump
    guard. *)
Definition anchor_lag (cfg : Settings) (st : PitchFiltstr) (lags : list float) : float :=
  if lag_jump cfg (oldlagp st) (default 0%float (aget lags 0))
  then default 0%float (aget lags 0) else oldlagp st.

(** The lag of granule [n] of sub-frame [m]: the lags are interpolated as
    the gains are. *)
Definition frame_lag (cfg : Settings) (st : PitchFiltstr) (lags : list float)
    (m n : Z) : float :=
  frame_gain cfg (anchor_lag cfg st lags) lags m (Z.to_nat n).

(** The length of the work buffer [filter_parameters.buffer]:
    [PITCH_INTBUFFSIZE + QLOOKAHEAD] entries. *)
Definition buffer_len (cfg : Settings) : Z :=
  Z.of_nat (Z.to_nat (PITCH_INTBUFFSIZE cfg + QLOOKAHEAD cfg)).

(** Granule [n] of sub-frame [m] finds its row of coefficients and reads
    the buffer inside its bounds; the row index and the lag offset are those
    that [Update] derives from the lag of the granule. *)
Definition granule_in_bounds (cfg : Settings) (st : PitchFiltstr) (lags : list float)
    (m n : Z) : bool :=
  let lag := frame_lag cfg st lags m n in
  let idx := (m * PITCH_GRAN_PER_SUBFRAME cfg + n) * PITCH_UPDATE cfg in
  let pos_lag := idx + PITCH_BUFFSIZE cfg - lag_offset_of cfg lag in
  bool_decide (0 ≤ fraction_index_of cfg lag < PITCH_FRACS) &&
  bool_decide (0 ≤ pos_lag) &&
  bool_decide (pos_lag + (PITCH_UPDATE cfg - 1) + PITCH_FRACORDER ≤ buffer_len cfg).

(** The arrays of a call are large enough for a frame without lookahead:
    the history fits the work buffer, also with a frame behind it; there
    are four lags, four gains and five damper slots; the frame, which has at
    least one sample, fits the input, the output and, behind the history,
    the work buffer; and every granule is in bounds. *)
Definition frame_in_bounds (cfg : Settings) (in_data : list float) (st : PitchFiltstr)
    (lags gains out_data : list float) : bool :=
  bool_decide (Z.of_nat (length (ubuf st)) ≤ buffer_len cfg) &&
  bool_decide (PITCH_SUBFRAMES ≤ Z.of_nat (length lags)) &&
  bool_decide (PITCH_SUBFRAMES ≤ Z.of_nat (length gains)) &&
  bool_decide (PITCH_DAMPORDER ≤ Z.of_nat (length (ystate st))) &&
  bool_decide (0 < PITCH_GRAN_PER_SUBFRAME cfg) &&
  bool_decide (0 < PITCH_UPDATE cfg) &&
  bool_decide (0 ≤ PITCH_BUFFSIZE cfg) &&
  bool_decide (frame_samples cfg + PITCH_BUFFSIZE cfg ≤ buffer_len cfg) &&
  bool_decide (frame_samples cfg ≤ Z.of_nat (length in_data)) &&
  bool_decide (frame_samples cfg ≤ Z.of_nat (length out_data)) &&
  bool_decide (0 ≤ PITCH_FRAME_LEN cfg) &&
  bool_decide (PITCH_FRAME_LEN cfg + Z.of_nat (length (ubuf st)) ≤ buffer_len cfg) &&
  forallb (λ m, forallb (granule_in_bounds cfg st lags m)
                  (seqZ 0 (PITCH_GRAN_PER_SUBFRAME cfg)))
    (seqZ 0 PITCH_SUBFRAMES).

(** ** Classes of doubles *)

(** A double is [Prim2SF] of it: a zero, an infinity, NaN, or
    [(-1)^s * m * 2^e]. *)
Definition SFzero (X : spec_float) : Prop :=
  match X with S754_zero _ => True | _ => False end.

Definition SFfinite (X : spec_float) : Prop :=
  match X with S754_zero _ | S754_finite _ _ _ => True | _ => False end.

(** Finite and below [2^K] in magnitude. *)
Definition SFbound (K : Z) (X : spec_float) : Prop :=
  match X with
  | S754_zero _ => True
  | S754_finite _ m e => Z.pos (digits2_pos m) + e ≤ K
  | _ => False
  end.

(** The exponent of a finite double is at most [emax - prec]. *)
Definition SFvalid_exp (X : spec_float) : Prop :=
  match X with S754_finite _ _ e => e ≤ 971 | _ => True end.

(** Finite, below [2^B] in magnitude, and with an exponent that is not
    positive. *)
Definition SFsmall (B : Z) (X : spec_float) : Prop :=
  match X with
  | S754_zero _ => True
  | S754_finite _ m e => e ≤ 0 ∧ Z.pos (digits2_pos m) + e ≤ B
  | _ => False
  end.

(** The same classes, for a double. *)
Definition fzero (x : float) : Prop := SFzero (Prim2SF x).
Definition ffinite (x : float) : Prop := SFfinite (Prim2SF x).
Definition fbound (K : Z) (x : float) : Prop := SFbound K (Prim2SF x).
Definition fsmall (x : float) : Prop := SFsmall 0 (Prim2SF x).

(** The check behind [fsmall]. *)
Definition fsmallb (x : float) : bool :=
  match Prim2SF x with
  | S754_zero _ => true
  | S754_finite _ m e => (e <=? 0) && (Z.pos (digits2_pos m) + e <=? 0)
  | _ => false
  end.

(** Samples below this magnitude cannot overflow the filter. *)
Definition sample_limit : float := 0x1p900%float.

(** ** Notions of the proofs *)

(** The fields that the sample loop leaves alone. *)
Definition seg_fixed (p : PitchFilterParam) :=
  (interpol_coeff p, gain p, lag p, lag_offset p, sub_frame p, mode p,
   num_samples p, gain_mult p).

(** The fields that [Update] leaves alone. *)
Definition upd_fixed (p : PitchFilterParam) :=
  (buffer p, damper_state p, gain p, lag p, sub_frame p, mode p, num_samples p,
   index p, damper_state_dg p).

(** The same run under another mode. *)
Definition set_mode (p : PitchFilterParam) (m : PitchFilterOperation) :=
  mkParam (buffer p) (damper_state p) (interpol_coeff p) (gain p) (lag p) (lag_offset p)
    (sub_frame p) m (num_samples p) (index p) (damper_state_dg p) (gain_mult p).

Definition work_mode (m : PitchFilterOperation) (w : Work) : Work :=
  (set_mode w.1.1 m, w.1.2, w.2).

Definition frame_mode (m : PitchFilterOperation) (s : float * float * Work)
    : float * float * Work :=
  (s.1, work_mode m s.2).

(** The state of a frame whose damped value has been zero so far: the
    damper state holds zeros, the buffer holds values of [B], and the output
    up to the current index repeats the input. *)
Definition zero_feedback (B : float → Prop) (in_data : list float) (w : Work) : Prop :=
  mode w.1.1 ≠ kPitchFilterPreGain ∧
  Forall fzero (damper_state w.1.1) ∧
  Forall B (buffer w.1.1) ∧
  ∀ i, 0 ≤ i < index w.1.1 → ∃ x, aget in_data i = Some x ∧ aget w.1.2 i = Some x.

(** The fields that tell where a run stands. *)
Definition run_core (p : PitchFilterParam) :=
  (buffer p, damper_state p, index p).

(** What a run of the filter has done since the work [w0]. *)
Definition frame_trace (cfg : Settings) (in_data : list float) (w0 w : Work) : Prop :=
  index w0.1.1 ≤ index w.1.1 ∧
  length w.1.2 = length w0.1.2 ∧
  length (buffer w.1.1) = length (buffer w0.1.1) ∧
  length (damper_state w.1.1) = length (damper_state w0.1.1) ∧
  (∀ j, j < index w0.1.1 ∨ index w.1.1 ≤ j → aget w.1.2 j = aget w0.1.2 j) ∧
  (∀ j, j < index w0.1.1 + PITCH_BUFFSIZE cfg ∨ index w.1.1 + PITCH_BUFFSIZE cfg ≤ j →
        aget (buffer w.1.1) j = aget (buffer w0.1.1) j) ∧
  (∀ i, index w0.1.1 ≤ i < index w.1.1 →
        ∃ x y, aget in_data i = Some x ∧ aget w.1.2 i = Some y ∧
               aget (buffer w.1.1) (PITCH_BUFFSIZE cfg + i) = Some (x + y)%float).

(** The parameters of a gain search without what only the search uses, as a
    pre-filter with lookahead has them. *)
Definition drop_search (p : PitchFilterParam) : PitchFilterParam :=
  mkParam (buffer p) (damper_state p) (interpol_coeff p) (gain p) (lag p) (lag_offset p)
    (sub_frame p) kPitchFilterPreLa (num_samples p) (index p) [] [].

(** The same for the work of a call and for the state of its sub-frame
    loop. *)
Definition work_drop_search (w : Work) : Work := (drop_search w.1.1, w.1.2, []).

Definition frame_drop_search (s : float * float * Work) : float * float * Work :=
  (s.1, work_drop_search s.2).

(** Where a run in bounds stands after [i] granules. *)
Definition run_ready (cfg : Settings) (md : PitchFilterOperation) (out : list float)
    (i : Z) (w : Work) : Prop :=
  mode w.1.1 = md ∧ num_samples w.1.1 = PITCH_UPDATE cfg ∧
  index w.1.1 = i * PITCH_UPDATE cfg ∧
  Z.of_nat (length (buffer w.1.1)) = buffer_len cfg ∧
  PITCH_DAMPORDER ≤ Z.of_nat (length (damper_state w.1.1)) ∧
  length w.1.2 = length out.

(** Where a run stands after [i] granules: the sample count, the index
    and the size of the work buffer. *)
Definition run_at (cfg : Settings) (i : Z) (w : Work) : Prop :=
  num_samples w.1.1 = PITCH_UPDATE cfg ∧
  index w.1.1 = i * PITCH_UPDATE cfg ∧
  Z.of_nat (length (buffer w.1.1)) = buffer_len cfg.

(** The entries of the trial outputs before the sub-frame of their row. *)
Definition early_entries (cfg : Settings) (dg0 dg : list (list float)) : Prop :=
  ∀ j i, i < j * sub_frame_samples cfg → dg_entry dg j i = dg_entry dg0 j i.

(** Case analysis on a computation that went through. *)
Ltac bind_inv H :=
  repeat
    match type of H with
    | mbind _ ?m = Some _ =>
        let E := fresh "E" in
        destruct m eqn:E; simpl in H; [|discriminate H]
    | (let '(_, _) := ?x in _) = Some _ => destruct x
    end.

(** ** Inputs of the examples *)

(** The iSAC constants with C's [lrint]. *)
Definition ex_cfg : Settings := isac lrint_nearest_even.

(** A signal of period 7. *)
Definition ex_signal (n : nat) : list float :=
  map (λ i, of_int (Z.of_nat i mod 7 - 3)) (seq 0 n).

(** Parameters in the middle of a frame, at lag 40 with gain one half. *)
Definition ex_param : PitchFilterParam :=
  {| buffer := replicate 454 1%float;
     damper_state := [0.1; 0.2; 0.3; 0.4; 0.5]%float;
     interpol_coeff := default [] (kIntrpCoef !! 3%nat);
     gain := 0.5%float;
     lag := 40%float;
     lag_offset := 42;
     sub_frame := 0;
     mode := kPitchFilterPre;
     num_samples := 12;
     index := 0;
     damper_state_dg := [];
     gain_mult := [] |}.

(** Parameters of a gain search in its second sub-frame. *)
Definition ex_param_dg : PitchFilterParam :=
  set_gain_mult
    (mkParam (buffer ex_param) (damper_state ex_param) [] 0.5%float 40%float 0 1
       kPitchFilterPreGain 12 0 (replicate 4 (replicate 5 0%float)) [])
    [0.2; 0.9; 0; 0]%float.

(** A channel in the middle of a voiced stretch, and the parameters of its
    next frame. *)
Definition ex_state : PitchFiltstr :=
  {| ubuf := ex_signal 190;
     ystate := [0.1; 0.2; 0.3; 0.4; 0.5]%float;
     oldlagp := 40%float;
     oldgainp := 0.5%float |}.

Definition ex_lags : list float := [40; 40.5; 41; 40]%float.
Definition ex_gains : list float := [0.5; 0.6; 0.7; 0.8]%float.
Definition ex_zero_gains : list float := [0; 0; 0; 0]%float.

(** Lags of [2^32 + 40], whose rounded offset does not fit an [int]. *)
Definition ex_far_lags : list float :=
  [4294967336; 4294967336; 4294967336; 4294967336]%float.

(** A channel at rest with an empty history. *)
Definition ex_zero_state : PitchFiltstr :=
  {| ubuf := replicate 190 0%float;
     ystate := replicate 5 0%float;
     oldlagp := 40%float;
     oldgainp := 0.5%float |}.

(** A channel with a history, whose damper memory and last gain are zero. *)
Definition ex_rest_state : PitchFiltstr :=
  {| ubuf := ex_signal 190;
     ystate := replicate 5 0%float;
     oldlagp := 40%float;
     oldgainp := 0%float |}.

(** The same channel with a damper memory that still rings, with a last gain
    of one half, and with a history that has overflowed. *)
Definition ex_ringing_state : PitchFiltstr :=
  {| ubuf := ex_signal 190;
     ystate := [0.1; 0.2; 0.3; 0.4; 0.5]%float;
     oldlagp := 40%float;
     oldgainp := 0%float |}.

Definition ex_gain_state : PitchFiltstr :=
  {| ubuf := ex_signal 190;
     ystate := replicate 5 0%float;
     oldlagp := 40%float;
     oldgainp := 0.5%float |}.

Definition ex_overflow_state : PitchFiltstr :=
  {| ubuf := replicate 190 infinity;
     ystate := replicate 5 0%float;
     oldlagp := 40%float;
     oldgainp := 0%float |}.

(** A double as its specification, to tell two doubles apart by
    computation. *)
Definition probe (o : option float) : option spec_float := Prim2SF <$> o.

(** The first output sample of a pre-filter call with zero gains. *)
Definition first_output (st : PitchFiltstr) : option spec_float :=
  r ← WebRtcIsac_PitchfilterPre ex_cfg (ex_signal 240) (replicate 240 0%float)
         st ex_lags ex_zero_gains;
  probe (aget (r_out_data r) 0).

(** * Properties *)

(** ** Arrays *)

Section ArrayFacts.
Context {A : Type}.
Implicit Types (a : list A) (i j : Z) (x : A).

Lemma aget_Some a i x :
  aget a i = Some x → 0 ≤ i < Z.of_nat (length a) ∧ a !! Z.to_nat i = Some x.
Proof.
  unfold aget. case_decide; [|done]. intros H'. split; [|done].
  apply lookup_lt_Some in H'. lia.
Qed.

Lemma aset_Some a i x a' :
  aset a i x = Some a' →
  0 ≤ i < Z.of_nat (length a) ∧ a' = <[Z.to_nat i := x]> a.
Proof.
  unfold aset. destruct (aget a i) as [y|] eqn:E; simpl; [|done].
  apply aget_Some in E as [? _]. intros; by simplify_eq.
Qed.

Lemma aset_length a i x a' : aset a i x = Some a' → length a' = length a.
Proof. intros [_ ->]%aset_Some. apply length_insert. Qed.

Lemma aget_aset_eq a i x a' : aset a i x = Some a' → aget a' i = Some x.
Proof.
  intros [? ->]%aset_Some. unfold aget. case_decide; [|lia].
  apply list_lookup_insert_eq. lia.
Qed.

Lemma aget_aset_ne a i j x a' :
  aset a i x = Some a' → j ≠ i → aget a' j = aget a j.
Proof.
  intros [? ->]%aset_Some ?. unfold aget. case_decide; [|done].
  apply list_lookup_insert_ne. lia.
Qed.
End ArrayFacts.

Lemma aget_is_Some {A} (a : list A) i :
  0 ≤ i < Z.of_nat (length a) → ∃ x, aget a i = Some x.
Proof.
  intros Hi. unfold aget. rewrite decide_True by lia.
  destruct (lookup_lt_is_Some_2 a (Z.to_nat i)) as [x Hx]; [lia|]. eauto.
Qed.

Lemma aset_is_Some {A} (a : list A) i x :
  0 ≤ i < Z.of_nat (length a) → ∃ a', aset a i x = Some a'.
Proof.
  intros Hi. unfold aset. destruct (aget_is_Some a i Hi) as [y ->]. simpl. eauto.
Qed.

(** ** Loops *)

Section LoopFacts.
Context {S : Type}.
Implicit Types (body : Z → S → option S) (s : S).

Lemma up_steps_app body (k1 k2 : nat) i s :
  up_steps body (k1 + k2) i s =
  s' ← up_steps body k1 i s; up_steps body k2 (i + Z.of_nat k1) s'.
Proof.
  revert i s. induction k1 as [|k1 IH]; intros i s; simpl.
  - f_equal. lia.
  - destruct (body i s) as [s1|]; simpl; [|done].
    rewrite IH. destruct (up_steps body k1 (i + 1) s1); simpl; [|done].
    f_equal. lia.
Qed.

(** A loop that finishes has passed through each of its turns. *)
Lemma for_up_split body lo hi n s s' :
  for_up body lo hi s = Some s' → lo ≤ n ≤ hi →
  ∃ sn, for_up body lo n s = Some sn ∧ for_up body n hi sn = Some s'.
Proof.
  unfold for_up. intros H Hn.
  replace (Z.to_nat (hi - lo)) with (Z.to_nat (n - lo) + Z.to_nat (hi - n))%nat
    in H by lia.
  rewrite up_steps_app in H.
  destruct (up_steps body (Z.to_nat (n - lo)) lo s) as [sn|]; simpl in H; [|done].
  exists sn. split; [done|]. rewrite <- H. f_equal. lia.
Qed.

Lemma for_up_step body lo hi s s' :
  for_up body lo hi s = Some s' → lo < hi →
  ∃ s1, body lo s = Some s1 ∧ for_up body (lo + 1) hi s1 = Some s'.
Proof.
  unfold for_up. intros H Hlt.
  replace (Z.to_nat (hi - lo)) with (Datatypes.S (Z.to_nat (hi - (lo + 1))))
    in H by lia.
  simpl in H. destruct (body lo s) as [s1|]; simpl in H; [|done]. eauto.
Qed.

Lemma for_up_nil body lo hi s : hi ≤ lo → for_up body lo hi s = Some s.
Proof. unfold for_up. intros. by replace (Z.to_nat (hi - lo)) with 0%nat by lia. Qed.

(** Invariants of an upward loop. *)
Lemma for_up_inv (P : Z → S → Prop) body lo hi s s' :
  for_up body lo hi s = Some s' → lo ≤ hi →
  P lo s →
  (∀ i t t', lo ≤ i < hi → P i t → body i t = Some t' → P (i + 1) t') →
  P hi s'.
Proof.
  unfold for_up. intros H Hle H0 Hstep.
  remember (Z.to_nat (hi - lo)) as k eqn:Hk.
  revert lo s H Hle H0 Hstep Hk.
  induction k as [|k IH]; intros lo s H Hle H0 Hstep Hk; simpl in H.
  - simplify_eq. by replace hi with lo by lia.
  - destruct (body lo s) as [s1|] eqn:Hb; simpl in H; [|done].
    apply (IH (lo + 1) s1); [done|lia| |  |lia].
    + apply (Hstep lo s); [lia|done..].
    + intros i t t' ?. apply Hstep. lia.
Qed.
End LoopFacts.

(** ** The sample loop *)

Lemma damp_inner_product d s :
  damp d = Some s →
  s = inner_product (take (Z.to_nat PITCH_DAMPORDER) d) kDampFilter.
Proof.
  destruct d as [|d0 [|d1 [|d2 [|d3 [|d4 d]]]]]; try (vm_compute; discriminate).
  intros H; vm_compute in H. by simplify_eq.
Qed.

Lemma shift_damper_Some d d' :
  shift_damper d = Some d' →
  ∃ d0 d1 d2 d3 d4 r,
    d = d0 :: d1 :: d2 :: d3 :: d4 :: r ∧ d' = d0 :: d0 :: d1 :: d2 :: d3 :: r.
Proof.
  destruct d as [|d0 [|d1 [|d2 [|d3 [|d4 d]]]]]; try (vm_compute; discriminate).
  intros H; cbv in H. simplify_eq. eauto 10.
Qed.

(** What one turn of the sample loop does. *)
Lemma FilterSample_inv in_data pos pos_lag p out dg p' out' dg' :
  FilterSample in_data pos pos_lag (p, out, dg) = Some (p', out', dg') →
  ∃ d sum x damped,
    shift_damper (damper_state p) = Some d ∧
    fractional_pitch (buffer p) (interpol_coeff p) pos_lag = Some sum ∧
    aset d 0 (gain p * sum)%float = Some (damper_state p') ∧
    damp (damper_state p') = Some damped ∧
    aget in_data (index p) = Some x ∧
    aset out (index p) (x - damped)%float = Some out' ∧
    aset (buffer p) pos (x + (x - damped))%float = Some (buffer p') ∧
    index p' = index p + 1 ∧
    (mode p ≠ kPitchFilterPreGain →
     dg' = dg ∧ damper_state_dg p' = damper_state_dg p) ∧
    (interpol_coeff p', gain p', lag p', lag_offset p', sub_frame p', mode p',
     num_samples p', gain_mult p') =
    (interpol_coeff p, gain p, lag p, lag_offset p, sub_frame p, mode p,
     num_samples p, gain_mult p).
Proof.
  unfold FilterSample. intros H. bind_inv H.
  match goal with H1 : aset out _ _ = Some ?o, H2 : aget ?o _ = Some _ |- _ =>
    rewrite (aget_aset_eq _ _ _ _ H1) in H2 end.
  simplify_eq. simpl.
  eexists _, _, _, _. split_and!; try done.
  intros Hm. case_decide; by simplify_eq.
Qed.

(** The turns [a] to [b] of a sample loop that starts at index [i0] and
    buffer position [pos]: the index advances to [i0 + b], and nothing is
    written outside the entries of [out_data] and of the buffer that belong
    to these samples. *)
Lemma sample_loop_inv in_data i0 pos pos_lag a b p out dg p' out' dg' :
  for_up (λ n w, FilterSample in_data (pos + n) (pos_lag + n) w) a b (p, out, dg)
    = Some (p', out', dg') →
  a ≤ b →
  index p = i0 + a →
  index p' = i0 + b ∧
  seg_fixed p' = seg_fixed p ∧
  length out' = length out ∧
  length (buffer p') = length (buffer p) ∧
  (∀ j, j < i0 + a ∨ i0 + b ≤ j → aget out' j = aget out j) ∧
  (∀ j, j < pos + a ∨ pos + b ≤ j → aget (buffer p') j = aget (buffer p) j).
Proof.
  intros H Hab Hi0.
  pose (P := λ (i : Z) (w : Work),
          index w.1.1 = i0 + i ∧
          seg_fixed w.1.1 = seg_fixed p ∧
          length w.1.2 = length out ∧
          length (buffer w.1.1) = length (buffer p) ∧
          (∀ j, j < i0 + a ∨ i0 + i ≤ j → aget w.1.2 j = aget out j) ∧
          (∀ j, j < pos + a ∨ pos + i ≤ j →
                aget (buffer w.1.1) j = aget (buffer p) j)).
  apply (for_up_inv P _ a b _ _ H Hab); unfold P.
  - simpl. by split_and!.
  - clear H P. intros i [[q o] g] [[q' o'] g'] Hi (Hidx & Hfix & Hlo & Hlb & Ho & Hb) Hs.
    simpl in *.
    apply FilterSample_inv in Hs
      as (d & sum & x & damped & _ & _ & _ & _ & _ & Hout & Hbuf & Hidx' & _ & Hfix').
    split_and!.
    + lia.
    + unfold seg_fixed in *. congruence.
    + erewrite aset_length by done. done.
    + erewrite aset_length by done. done.
    + intros j Hj. erewrite aget_aset_ne by (done || lia). apply Ho. lia.
    + intros j Hj. erewrite aget_aset_ne by (done || lia). apply Hb. lia.
Qed.

Lemma FilterSegment_upto_inv cfg in_data p out dg n p' out' dg' :
  FilterSegment_upto cfg in_data (p, out, dg) n = Some (p', out', dg') →
  0 ≤ n →
  index p' = index p + n ∧
  seg_fixed p' = seg_fixed p ∧
  length out' = length out ∧
  length (buffer p') = length (buffer p) ∧
  (∀ j, j < index p ∨ index p + n ≤ j → aget out' j = aget out j) ∧
  (∀ j, j < index p + PITCH_BUFFSIZE cfg ∨ index p + PITCH_BUFFSIZE cfg + n ≤ j →
        aget (buffer p') j = aget (buffer p) j).
Proof.
  unfold FilterSegment_upto. simpl. intros H Hn.
  apply (sample_loop_inv _ (index p)) in H; [|lia..].
  rewrite !Z.add_0_r in H. done.
Qed.

(** C1: every sample that [FilterSegment] processes, in every mode.  Sample
    [n] of a segment reads [x = in_data[index + n]]; the damped value is the
    inner product of the five damper-state slots, as they are after the
    sample, with [kDampFilter]; the output sample is [x] minus the damped
    value, and the buffer at the sample's position then holds input plus
    output.  Both values are still there when the segment ends. *)
Theorem FilterSegment_sample cfg in_data p out dg p' out' dg' n :
  FilterSegment cfg in_data (p, out, dg) = Some (p', out', dg') →
  0 ≤ n < num_samples p →
  ∃ pn outn dgn x,
    FilterSegment_upto cfg in_data (p, out, dg) (n + 1) = Some (pn, outn, dgn) ∧
    aget in_data (index p + n) = Some x ∧
    let damped :=
      inner_product (take (Z.to_nat PITCH_DAMPORDER) (damper_state pn)) kDampFilter in
    let y := (x - damped)%float in
    aget outn (index p + n) = Some y ∧
    aget (buffer pn) (index p + PITCH_BUFFSIZE cfg + n) = Some (x + y)%float ∧
    aget out' (index p + n) = Some y ∧
    aget (buffer p') (index p + PITCH_BUFFSIZE cfg + n) = Some (x + y)%float.
Proof.
  unfold FilterSegment, FilterSegment_upto. simpl. intros H Hn.
  apply (for_up_split _ _ _ (n + 1)) in H as ([[pn outn] dgn] & Hpre & Hrest); [|lia].
  exists pn, outn, dgn.
  pose proof Hpre as Hpre'.
  apply (for_up_split _ _ _ n) in Hpre as ([[q o] g] & Hq & Hstep); [|lia].
  apply for_up_step in Hstep as ([[q1 o1] g1] & Hs & Hnil); [|lia].
  rewrite for_up_nil in Hnil by lia. simplify_eq.
  apply (sample_loop_inv _ (index p)) in Hq as (Hidx & _); [|lia..].
  apply FilterSample_inv in Hs
    as (d & sum & x & damped & _ & _ & _ & Hd & Hx & Hout & Hbuf & _).
  apply damp_inner_product in Hd. subst damped.
  rewrite Hidx in Hx, Hout.
  exists x. simpl. split_and!; try done.
  - by eapply aget_aset_eq.
  - by eapply aget_aset_eq.
  - apply (sample_loop_inv _ (index p)) in Hrest as (_ & _ & _ & _ & Ho & _);
      [|lia|].
    + rewrite Ho by lia. by eapply aget_aset_eq.
    + apply (sample_loop_inv _ (index p)) in Hpre' as (? & _); [done|lia..].
  - apply (sample_loop_inv _ (index p)) in Hrest as (_ & _ & _ & _ & _ & Hb);
      [|lia|].
    + rewrite Hb by lia. by eapply aget_aset_eq.
    + apply (sample_loop_inv _ (index p)) in Hpre' as (? & _); [done|lia..].
Qed.

Lemma FilterSegment_sample_witness :
  ∃ p' out' dg',
    FilterSegment ex_cfg (ex_signal 12) (ex_param, replicate 12 0%float, [])
      = Some (p', out', dg') ∧
    0 ≤ 3 < num_samples ex_param ∧
    ∃ pn outn dgn x,
      FilterSegment_upto ex_cfg (ex_signal 12) (ex_param, replicate 12 0%float, []) (3 + 1)
        = Some (pn, outn, dgn) ∧
      aget (ex_signal 12) (index ex_param + 3) = Some x ∧
      let damped :=
        inner_product (take (Z.to_nat PITCH_DAMPORDER) (damper_state pn)) kDampFilter in
      let y := (x - damped)%float in
      aget outn (index ex_param + 3) = Some y ∧
      aget (buffer pn) (index ex_param + PITCH_BUFFSIZE ex_cfg + 3) = Some (x + y)%float ∧
      aget out' (index ex_param + 3) = Some y ∧
      aget (buffer p') (index ex_param + PITCH_BUFFSIZE ex_cfg + 3) = Some (x + y)%float.
Proof.
  eexists _, _, _. split; [vm_compute; reflexivity|]. split; [done|].
  eapply (FilterSegment_sample ex_cfg (ex_signal 12) ex_param); [vm_compute; reflexivity|done].
Defined.

(** ** Update *)

(** [Update] in terms of the values that it derives from the lag. *)
Lemma Update_values cfg p :
  Update cfg p =
  row ← aget kIntrpCoef (fraction_index_of cfg (lag p));
  let q := set_interpol_coeff (set_lag_offset p (lag_offset_of cfg (lag p))) row in
  if decide (mode p = kPitchFilterPreGain) then
    g ← aget (gain_mult p) (sub_frame p);
    gm ← aset (gain_mult p) (sub_frame p) (g + 0.2)%float;
    g ← aget gm (sub_frame p);
    gm ← (if (1.0 <? g)%float then aset gm (sub_frame p) 1.0%float else Some gm);
    gm ← (if decide (0 < sub_frame p)
          then g ← aget gm (sub_frame p - 1);
               aset gm (sub_frame p - 1) (g - 0.2)%float
          else Some gm);
    Some (set_gain_mult q gm)
  else Some q.
Proof. reflexivity. Qed.

Lemma Update_inv cfg p p' :
  Update cfg p = Some p' →
  lag_offset p' = lag_offset_of cfg (lag p) ∧
  aget kIntrpCoef (fraction_index_of cfg (lag p)) = Some (interpol_coeff p') ∧
  upd_fixed p' = upd_fixed p ∧
  (mode p ≠ kPitchFilterPreGain → gain_mult p' = gain_mult p).
Proof.
  rewrite Update_values. intros H. bind_inv H. simpl in H.
  case_decide.
  - bind_inv H. simplify_eq. by split_and!.
  - simplify_eq. by split_and!.
Qed.

Lemma Update_outside_table cfg p :
  aget kIntrpCoef (fraction_index_of cfg (lag p)) = None → Update cfg p = None.
Proof.
  intros Hrow. rewrite Update_values. by rewrite Hrow.
Qed.


Lemma to_int_range z : in_int (to_int z).
Proof.
  unfold in_int, to_int.
  pose proof (Z.mod_pos_bound (z + 2 ^ 31) (2 ^ 32) ltac:(lia)). lia.
Qed.





(** At that lag the field holds 42 and the fourth row is selected, as for
    the lag 40, while the formula of the spec gives [2^32 + 42]. *)
Example Update_narrows :
  spec_lag_offset ex_cfg 4294967336 = 4294967338 ∧
  lag_offset_of ex_cfg 4294967336 = 42 ∧
  fraction_index_of ex_cfg 4294967336 = 4 ∧
  lag_offset_of ex_cfg 40 = 42 ∧
  fraction_index_of ex_cfg 40 = 4.
Proof. vm_compute. split_and!; reflexivity. Qed.

(** C9: in gain-search mode a call of [Update] adds 0.2 to the gain
    multiplier of the current sub-frame and clamps the sum at 1.0 from above;
    when the sub-frame index is greater than 0 it subtracts 0.2 from the
    multiplier of the sub-frame before; the other multipliers keep their
    values. *)
Theorem Update_gain_mult cfg p p' :
  mode p = kPitchFilterPreGain →
  Update cfg p = Some p' →
  ∃ g,
    aget (gain_mult p) (sub_frame p) = Some g ∧
    aget (gain_mult p') (sub_frame p) = Some (clamp_one (g + 0.2)) ∧
    (0 < sub_frame p →
     ∃ g', aget (gain_mult p) (sub_frame p - 1) = Some g' ∧
           aget (gain_mult p') (sub_frame p - 1) = Some (g' - 0.2)%float) ∧
    (∀ j, j ≠ sub_frame p → ¬ (0 < sub_frame p ∧ j = sub_frame p - 1) →
          aget (gain_mult p') j = aget (gain_mult p) j) ∧
    length (gain_mult p') = length (gain_mult p).
Proof.
  unfold Update. intros Hm H. simpl in H.
  destruct (aget kIntrpCoef _) as [row|]; simpl in H; [|done].
  rewrite decide_True in H by done.
  destruct (aget (gain_mult p) (sub_frame p)) as [f|]; simpl in H; [|done].
  destruct (aset (gain_mult p) _ _) as [l0|] eqn:H1; simpl in H; [|done].
  rewrite (aget_aset_eq _ _ _ _ H1) in H. simpl in H.
  destruct (if (1 <? _)%float then _ else _) as [l1|] eqn:H3; simpl in H; [|done].
  destruct (if decide _ then _ else _) as [l2|] eqn:H4; simpl in H; [|done].
  simplify_eq. simpl.
  eexists. split; [done|].
  assert (aget l1 (sub_frame p) = Some (clamp_one (f + 0.2)) ∧
          (∀ j, j ≠ sub_frame p → aget l1 j = aget (gain_mult p) j) ∧
          length l1 = length (gain_mult p)) as (Hc & Ho & Hl).
  { unfold clamp_one. destruct (1 <? f + 0.2)%float; simplify_eq.
    - split_and!.
      + by eapply aget_aset_eq.
      + intros j Hj.
        by rewrite (aget_aset_ne _ _ _ _ _ H3), (aget_aset_ne _ _ _ _ _ H1).
      + by rewrite (aset_length _ _ _ _ H3), (aset_length _ _ _ _ H1).
    - split_and!.
      + by eapply aget_aset_eq.
      + intros j Hj. by rewrite (aget_aset_ne _ _ _ _ _ H1).
      + by rewrite (aset_length _ _ _ _ H1). }
  case_decide.
  - bind_inv H4. split_and!.
    + rewrite (aget_aset_ne _ _ _ _ _ H4) by lia. done.
    + intros _. eexists. split.
      * rewrite <- Ho by lia. done.
      * by eapply aget_aset_eq.
    + intros j Hj Hj'. rewrite (aget_aset_ne _ _ _ _ _ H4) by lia. by apply Ho.
    + by rewrite (aset_length _ _ _ _ H4).
  - simplify_eq. split_and!; [done|lia| |done].
    intros j Hj _. by apply Ho.
Qed.

Lemma Update_gain_mult_witness :
  ∃ p',
    mode ex_param_dg = kPitchFilterPreGain ∧
    Update ex_cfg ex_param_dg = Some p' ∧
    gain_mult p' = [0.2 - 0.2; 1.0; 0; 0]%float ∧
    ∃ g,
      aget (gain_mult ex_param_dg) (sub_frame ex_param_dg) = Some g ∧
      aget (gain_mult p') (sub_frame ex_param_dg) = Some (clamp_one (g + 0.2)) ∧
      (0 < sub_frame ex_param_dg →
       ∃ g', aget (gain_mult ex_param_dg) (sub_frame ex_param_dg - 1) = Some g' ∧
             aget (gain_mult p') (sub_frame ex_param_dg - 1) = Some (g' - 0.2)%float) ∧
      (∀ j, j ≠ sub_frame ex_param_dg →
            ¬ (0 < sub_frame ex_param_dg ∧ j = sub_frame ex_param_dg - 1) →
            aget (gain_mult p') j = aget (gain_mult ex_param_dg) j) ∧
      length (gain_mult p') = length (gain_mult ex_param_dg).
Proof.
  eexists. split; [done|]. split; [vm_compute; reflexivity|].
  split; [vm_compute; reflexivity|].
  apply (Update_gain_mult ex_cfg ex_param_dg); [done|vm_compute; reflexivity].
Defined.

(** C6: there is a lag for which the bin index that [Update] derives lies
    outside the rows 0..7 of [kIntrpCoef], and nothing stands between that
    index and the table: the lookup is out of bounds and the call has no
    defined result.  At lag 39.5 the index is 8 when ties are rounded to the
    even integer or away from zero, and -1 with the [floor] variant. *)
Theorem Update_index_outside_table :
  ∃ lag : float,
    is_finite lag = true ∧
    spec_fraction_index (isac lrint_nearest_even) lag = 8 ∧
    spec_fraction_index (isac lrint_half_away) lag = 8 ∧
    spec_fraction_index (isac lrint_floor) lag = -1 ∧
    aget kIntrpCoef 8 = None ∧ aget kIntrpCoef (-1) = None ∧
    ∀ p,
      Update (isac lrint_nearest_even) (set_lag p lag) = None ∧
      Update (isac lrint_half_away) (set_lag p lag) = None ∧
      Update (isac lrint_floor) (set_lag p lag) = None.
Proof.
  exists 39.5%float. split_and!; try (vm_compute; reflexivity).
  intros p. split_and!; by apply Update_outside_table.
Qed.

(** ** The frame *)

Lemma FilterFrame_inv cfg in_data st lags gains md out dg r :
  FilterFrame cfg in_data st lags gains md out dg = Some r →
  ∃ gains' ol og w st' p2 out2 dg2,
    frame_filter cfg in_data st lags gains md out dg = Some (gains', (ol, og, w)) ∧
    frame_export cfg st ol og w.1.1 = Some st' ∧
    frame_lookahead cfg in_data w = Some (p2, out2, dg2) ∧
    r = mkResult st' gains' out2 dg2.
Proof.
  unfold FilterFrame. intros H.
  destruct (frame_filter _ _ _ _ _ _ _ _) as [[gains' [[ol og] w]]|] eqn:E1; simpl in H; [|done].
  destruct (frame_export _ _ _ _ _) as [st'|] eqn:E2; simpl in H; [|done].
  destruct (frame_lookahead _ _ _) as [[[p2 out2] dg2]|] eqn:E3; simpl in H; [|done].
  simplify_eq. by eexists _, _, _, _, _, _, _, _.
Qed.

Lemma frame_filter_inv cfg in_data st lags gains md out dg gains' ol og w :
  frame_filter cfg in_data st lags gains md out dg = Some (gains', (ol, og, w)) →
  ∃ p0 dg0 ol0 og0 p1,
    frame_mode_setup cfg (frame_init cfg st md) gains dg = Some (p0, gains', dg0) ∧
    frame_anchors cfg st lags gains' p0 = Some (ol0, og0, p1) ∧
    for_up (frame_sub_frame cfg in_data lags gains') 0 PITCH_SUBFRAMES
      (ol0, og0, (set_num_samples p1 (PITCH_UPDATE cfg), out, dg0)) = Some (ol, og, w).
Proof.
  unfold frame_filter. intros H.
  case_guard; simpl in H; [|done].
  destruct (frame_mode_setup _ _ _ _) as [[[p0 g0] dg0]|] eqn:E1; simpl in H; [|done].
  destruct (frame_anchors _ _ _ _ _) as [[[ol0 og0] p1]|] eqn:E2; simpl in H; [|done].
  destruct (for_up _ _ _ _) as [s|] eqn:E; simpl in H; [|done].
  simplify_eq. by eexists _, _, _, _, _.
Qed.

Lemma frame_mode_setup_inv cfg p gains dg p' gains' dg' :
  frame_mode_setup cfg p gains dg = Some (p', gains', dg') →
  mode p' = mode p ∧ buffer p' = buffer p ∧ damper_state p' = damper_state p ∧
  index p' = index p ∧
  (mode p ≠ kPitchFilterPreGain → p' = p ∧ dg' = dg) ∧
  (mode p ≠ kPitchFilterPost → gains' = gains) ∧
  (mode p = kPitchFilterPost →
   ∃ g0 g1 g2 g3 rest,
     gains = g0 :: g1 :: g2 :: g3 :: rest ∧
     gains' = (g0 * -1.3)%float :: (g1 * -1.3)%float :: (g2 * -1.3)%float
                :: (g3 * -1.3)%float :: rest).
Proof.
  unfold frame_mode_setup. intros H.
  destruct (decide (mode p = kPitchFilterPreGain)) as [Hm|Hm].
  - bind_inv H. simplify_eq. simpl. split_and!; try done. by rewrite Hm.
  - destruct (decide (mode p = kPitchFilterPost)) as [Hm'|Hm'].
    + bind_inv H. simplify_eq. split_and!; try done. intros _.
      destruct gains as [|g0 [|g1 [|g2 [|g3 rest]]]]; try (vm_compute in E; discriminate).
      cbv in E. simplify_eq. eauto 10.
    + simplify_eq. split_and!; done.
Qed.

(** C10: a post-filter call scales the caller's gains in place.  When the
    call returns, each of the four gains is its value on entry times -1.3,
    and the entries after them are as they were; nothing restores them. *)
Theorem PitchfilterPost_scales_gains cfg in_data out_data pf_state lags gains r :
  WebRtcIsac_PitchfilterPost cfg in_data out_data pf_state lags gains = Some r →
  ∃ g0 g1 g2 g3 rest,
    gains = g0 :: g1 :: g2 :: g3 :: rest ∧
    r_gains r = (g0 * -1.3)%float :: (g1 * -1.3)%float :: (g2 * -1.3)%float
                  :: (g3 * -1.3)%float :: rest.
Proof.
  unfold WebRtcIsac_PitchfilterPost. intros H.
  apply FilterFrame_inv in H as (gains' & ol & og & w & st' & p2 & o2 & d2 & H & _ & _ & ->).
  apply frame_filter_inv in H as (p0 & dg0 & ol0 & og0 & p1 & H & _).
  apply frame_mode_setup_inv in H as (_ & _ & _ & _ & _ & _ & H).
  simpl. by apply H.
Qed.

Lemma PitchfilterPost_scales_gains_witness :
  ∃ r,
    WebRtcIsac_PitchfilterPost ex_cfg (ex_signal 240) (replicate 240 0%float)
      ex_state ex_lags ex_gains = Some r ∧
    ∃ g0 g1 g2 g3 rest,
      ex_gains = g0 :: g1 :: g2 :: g3 :: rest ∧
      r_gains r = (g0 * -1.3)%float :: (g1 * -1.3)%float :: (g2 * -1.3)%float
                    :: (g3 * -1.3)%float :: rest.
Proof.
  eexists. split; [vm_compute; reflexivity|].
  apply (PitchfilterPost_scales_gains ex_cfg (ex_signal 240) (replicate 240 0%float)
           ex_state ex_lags ex_gains).
  vm_compute. reflexivity.
Defined.

Lemma frame_anchors_inv cfg st lags gains p ol og p' :
  frame_anchors cfg st lags gains p = Some (ol, og, p') →
  ∃ lag0,
    aget lags 0 = Some lag0 ∧
    if lag_jump cfg (oldlagp st) lag0
    then ol = lag0 ∧ aget gains 0 = Some og ∧
         (if decide (mode p = kPitchFilterPreGain)
          then aset (gain_mult p) 0 1.0%float = Some (gain_mult p') ∧
               p' = set_gain_mult p (gain_mult p')
          else p' = p)
    else ol = oldlagp st ∧ og = oldgainp st ∧ p' = p.
Proof.
  unfold frame_anchors, lag_jump. intros H.
  destruct (aget lags 0) as [lag0|] eqn:E0; simpl in H; [|done].
  exists lag0. split; [done|].
  destruct (_ || _).
  - destruct (aget gains 0) as [g0|]; simpl in H; [|done].
    case_decide.
    + bind_inv H. by simplify_eq.
    + by simplify_eq.
  - by simplify_eq.
Qed.

Lemma FilterSegment_fixed cfg in_data p o d p' o' d' :
  FilterSegment cfg in_data (p, o, d) = Some (p', o', d') →
  seg_fixed p' = seg_fixed p.
Proof.
  unfold FilterSegment. simpl. intros H.
  destruct (decide (0 ≤ num_samples p)).
  - by apply FilterSegment_upto_inv in H as (_ & ? & _).
  - unfold FilterSegment_upto in H. rewrite for_up_nil in H by lia. by simplify_eq.
Qed.

Lemma frame_granule_inv cfg in_data gd ld p o d w' :
  frame_granule cfg in_data gd ld (p, o, d) = Some w' →
  ∃ p1,
    Update cfg (set_lag (set_gain p (gain p + gd)) (lag p + ld)) = Some p1 ∧
    FilterSegment cfg in_data (p1, o, d) = Some w'.
Proof. unfold frame_granule. intros H. bind_inv H. eauto. Qed.

Lemma frame_sub_frame_inv cfg in_data lags gains m ol og p o d s' :
  frame_sub_frame cfg in_data lags gains m (ol, og, (p, o, d)) = Some s' →
  ∃ lag_m gain_m w',
    aget lags m = Some lag_m ∧ aget gains m = Some gain_m ∧
    for_up (λ _ w,
        frame_granule cfg in_data
          ((gain_m - og) / of_int (PITCH_GRAN_PER_SUBFRAME cfg))
          ((lag_m - ol) / of_int (PITCH_GRAN_PER_SUBFRAME cfg)) w)
      0 (PITCH_GRAN_PER_SUBFRAME cfg)
      (set_gain (set_lag (set_sub_frame p m) ol) og, o, d) = Some w' ∧
    s' = (lag_m, gain_m, w').
Proof.
  unfold frame_sub_frame. intros H. bind_inv H. simplify_eq.
  by eexists _, _, _.
Qed.

Lemma frame_loops_param_inv cfg in_data lags gains (P : PitchFilterParam → Prop) :
  (∀ p g, P p → P (set_gain p g)) →
  (∀ p l, P p → P (set_lag p l)) →
  (∀ p m, P p → P (set_sub_frame p m)) →
  (∀ p p', P p → Update cfg p = Some p' → P p') →
  (∀ p o d p' o' d', P p → FilterSegment cfg in_data (p, o, d) = Some (p', o', d') → P p') →
  ∀ s s',
    for_up (frame_sub_frame cfg in_data lags gains) 0 PITCH_SUBFRAMES s = Some s' →
    P s.2.1.1 → P s'.2.1.1.
Proof.
  intros Hg Hl Hs Hu Hf s s' H H0.
  apply (for_up_inv (λ _ s, P s.2.1.1) _ _ _ _ _ H); [done..|].
  clear H H0. intros m [[ol og] [[p o] d]] t' _ HP Hb. simpl in *.
  apply frame_sub_frame_inv in Hb as (lag_m & gain_m & w' & _ & _ & Hb & ->). simpl.
  destruct (decide (0 ≤ PITCH_GRAN_PER_SUBFRAME cfg)).
  - apply (for_up_inv (λ _ (w : Work), P w.1.1) _ _ _ _ _ Hb); [done| |].
    + simpl. auto.
    + intros _ [[q o1] d1] [[q' o2] d2] _ HQ Hgr. simpl in *.
      apply frame_granule_inv in Hgr as (q1 & Hup & Hseg).
      eapply Hf; [|done]. eapply Hu; [|done]. auto.
  - rewrite for_up_nil in Hb by lia. simplify_eq. simpl. auto.
Qed.

Lemma sub_frames_mode cfg in_data lags gains s s' :
  for_up (frame_sub_frame cfg in_data lags gains) 0 PITCH_SUBFRAMES s = Some s' →
  mode s'.2.1.1 = mode s.2.1.1.
Proof.
  intros H.
  apply (frame_loops_param_inv _ _ _ _ (λ q, mode q = mode s.2.1.1)) in H; try done.
  - intros q q' Hq Hu. apply Update_inv in Hu as (_ & _ & Hu & _).
    unfold upd_fixed in Hu. congruence.
  - intros q o1 d1 q' o' d' Hq Hs. apply FilterSegment_fixed in Hs.
    unfold seg_fixed in Hs. congruence.
Qed.

(** C3: in every call of [FilterFrame], the result is the one that the
    sub-frame loop, the export and the lookahead give from the anchors [ol]
    and [og] that the lag-jump guard leaves.  When the first target lag
    exceeds [PITCH_UPSTEP * old_lag] or falls below
    [PITCH_DOWNSTEP * old_lag], these are the first sub-frame's target lag
    and gain (the gain as the filter uses it, which in a post-filter call is
    the scaled one), and in gain-search mode the first gain multiplier is
    set to 1.0; otherwise they are the lag and gain of the persistent state,
    and nothing else changes. *)
Theorem FilterFrame_lag_jump cfg in_data st lags gains md out dg r :
  FilterFrame cfg in_data st lags gains md out dg = Some r →
  ∃ p0 dg0 lag0 ol og p1,
    frame_mode_setup cfg (frame_init cfg st md) gains dg = Some (p0, r_gains r, dg0) ∧
    aget lags 0 = Some lag0 ∧
    (if lag_jump cfg (oldlagp st) lag0
     then ol = lag0 ∧ aget (r_gains r) 0 = Some og ∧
          (if decide (md = kPitchFilterPreGain)
           then aget (gain_mult p1) 0 = Some 1.0%float ∧
                p1 = set_gain_mult p0 (<[0%nat := 1.0%float]> (gain_mult p0))
           else p1 = p0)
     else ol = oldlagp st ∧ og = oldgainp st ∧ p1 = p0) ∧
    frame_from_anchors cfg in_data st lags (r_gains r) ol og p1 out dg0 = Some r.
Proof.
  intros H.
  apply FilterFrame_inv in H
    as (gains' & ol & og & w & st' & p2 & o2 & d2 & H & Hexp & Hla & ->).
  apply frame_filter_inv in H as (p0 & dg0 & ol0 & og0 & p1 & Hset & Hanc & Hloop).
  simpl. exists p0, dg0.
  pose proof Hset as Hmode. apply frame_mode_setup_inv in Hmode as (Hmode & _).
  apply frame_anchors_inv in Hanc as (lag0 & Hlag0 & Hanc).
  exists lag0, ol0, og0, p1. split_and!; try done.
  - destruct (lag_jump cfg (oldlagp st) lag0); [|done].
    destruct Hanc as (-> & Hg0 & Hp1). split_and!; try done.
    rewrite Hmode in Hp1. simpl in Hp1.
    case_decide; [|done]. destruct Hp1 as [Hgm Hp1]. split.
    + by apply aget_aset_eq in Hgm.
    + apply aset_Some in Hgm as [_ Hgm]. change (Z.to_nat 0) with 0%nat in Hgm.
      by rewrite <- Hgm.
  - unfold frame_from_anchors. rewrite Hloop. simpl. rewrite Hexp. simpl.
    rewrite Hla. done.
Qed.

Lemma FilterFrame_lag_jump_witness :
  ∃ r,
    FilterFrame ex_cfg (ex_signal 264) ex_state [70; 70; 70; 70]%float ex_gains
      kPitchFilterPreGain (replicate 264 0%float) (replicate 4 []) = Some r ∧
    lag_jump ex_cfg (oldlagp ex_state) 70 = true ∧
    ∃ p0 dg0 lag0 ol og p1,
      frame_mode_setup ex_cfg (frame_init ex_cfg ex_state kPitchFilterPreGain)
        ex_gains (replicate 4 []) = Some (p0, r_gains r, dg0) ∧
      aget [70; 70; 70; 70]%float 0 = Some lag0 ∧
      (if lag_jump ex_cfg (oldlagp ex_state) lag0
       then ol = lag0 ∧ aget (r_gains r) 0 = Some og ∧
            (if decide (kPitchFilterPreGain = kPitchFilterPreGain)
             then aget (gain_mult p1) 0 = Some 1.0%float ∧
                  p1 = set_gain_mult p0 (<[0%nat := 1.0%float]> (gain_mult p0))
             else p1 = p0)
       else ol = oldlagp ex_state ∧ og = oldgainp ex_state ∧ p1 = p0) ∧
      frame_from_anchors ex_cfg (ex_signal 264) ex_state [70; 70; 70; 70]%float (r_gains r)
        ol og p1 (replicate 264 0%float) dg0 = Some r.
Proof.
  eexists. split; [vm_compute; reflexivity|]. split; [vm_compute; reflexivity|].
  apply (FilterFrame_lag_jump ex_cfg (ex_signal 264) ex_state [70; 70; 70; 70]%float
           ex_gains kPitchFilterPreGain (replicate 264 0%float) (replicate 4 [])).
  vm_compute. reflexivity.
Defined.

(** The anchors count: in the frame of the witness, the loop from the lag
    of the persistent state, from another gain, or with the first gain
    multiplier left at 0.0, gives another output than the call. *)
Example lag_jump_anchors_count :
  let run ol og gm :=
    r ← frame_from_anchors ex_cfg (ex_signal 264) ex_state [70; 70; 70; 70]%float ex_gains
           ol og
           (set_gain_mult (set_damper_state_dg (frame_init ex_cfg ex_state kPitchFilterPreGain)
                             (replicate 4 (replicate 5 0%float))) gm)
           (replicate 264 0%float)
           (replicate 4 (replicate 264 0%float));
    Some (probe (dg_entry (r_out_dg r) 0 1), probe (aget (r_out_data r) 1)) in
  let call :=
    r ← FilterFrame ex_cfg (ex_signal 264) ex_state [70; 70; 70; 70]%float ex_gains
           kPitchFilterPreGain (replicate 264 0%float) (replicate 4 []);
    Some (probe (dg_entry (r_out_dg r) 0 1), probe (aget (r_out_data r) 1)) in
  is_Some call ∧
  run 70%float 0.5%float [1; 0; 0; 0]%float = call ∧
  run 40%float 0.5%float [1; 0; 0; 0]%float ≠ call ∧
  run 70%float 0.9%float [1; 0; 0; 0]%float ≠ call ∧
  run 70%float 0.5%float [0; 0; 0; 0]%float ≠ call.
Proof.
  vm_compute. split_and!; [by eexists|done|discriminate|discriminate|discriminate].
Qed.

(** C2: a gain search leaves the persistent state as it found it: the
    history buffer, the damper memory, the last lag and the last gain after
    the call are those before it, whatever the input, the lags and the
    gains. *)
Theorem PitchfilterPre_gains_keeps_state cfg in_data out_data out_dg pf_state lags gains r :
  WebRtcIsac_PitchfilterPre_gains cfg in_data out_data out_dg pf_state lags gains
    = Some r →
  r_state r = pf_state.
Proof.
  unfold WebRtcIsac_PitchfilterPre_gains. intros H.
  apply FilterFrame_inv in H
    as (gains' & ol & og & [[p o] d] & st' & p2 & o2 & d2 & H & Hexp & _ & ->).
  apply frame_filter_inv in H as (p0 & dg0 & ol0 & og0 & p1 & Hset & Hanc & Hloop).
  apply frame_mode_setup_inv in Hset as (Hmode & _). simpl in Hmode.
  apply frame_anchors_inv in Hanc as (lag0 & _ & Hanc).
  assert (mode p1 = kPitchFilterPreGain) as Hp1.
  { destruct (lag_jump _ _ _).
    - destruct Hanc as (_ & _ & Hanc). case_decide; [|congruence].
      destruct Hanc as [_ ->]. done.
    - destruct Hanc as (_ & _ & ->). done. }
  apply (frame_loops_param_inv _ _ _ _ (λ q, mode q = kPitchFilterPreGain)) in Hloop;
    try done.
  - simpl in *. unfold frame_export in Hexp.
    rewrite decide_False in Hexp by (intros ?; done). by simplify_eq.
  - intros q q' Hq Hu. apply Update_inv in Hu as (_ & _ & Hu & _).
    unfold upd_fixed in Hu. congruence.
  - intros q o1 d1 q' o' d' Hq Hs. apply FilterSegment_fixed in Hs.
    unfold seg_fixed in Hs. congruence.
Qed.

Lemma PitchfilterPre_gains_keeps_state_witness :
  ∃ r,
    WebRtcIsac_PitchfilterPre_gains ex_cfg (ex_signal 264) (replicate 264 0%float)
      (replicate 4 []) ex_state ex_lags ex_gains = Some r ∧
    r_state r = ex_state.
Proof.
  eexists. split; [vm_compute; reflexivity|].
  apply (PitchfilterPre_gains_keeps_state ex_cfg (ex_signal 264) (replicate 264 0%float)
           (replicate 4 []) ex_state ex_lags ex_gains).
  vm_compute. reflexivity.
Defined.

(** ** Doubles *)

Lemma is_zero_fzero x : is_zero x = true ↔ fzero x.
Proof.
  unfold is_zero, fzero.
  rewrite FloatAxioms.eqb_spec. change (Prim2SF 0) with (S754_zero false).
  destruct (Prim2SF x) as [[]|[]| |[] m e]; simpl; try done.
Qed.

Lemma is_finite_ffinite x : is_finite x = true → ffinite x.
Proof.
  unfold ffinite, is_finite, Prim2SF.
  destruct (is_nan x); [done|]. simpl.
  destruct (is_infinity x); [done|]. intros _.
  destruct (is_zero x); [done|].
  destruct (Z.frexp x) as [r ex].
  destruct (shr_fexp _ _ _ _ _) as [sh e'].
  by destruct (shr_m sh).
Qed.

Lemma fzero_cases x : fzero x → x = 0%float ∨ x = (-0)%float.
Proof.
  unfold fzero. intros H. rewrite <- (SF2Prim_Prim2SF x).
  destruct (Prim2SF x) as [[]| | |]; try done; [right|left]; reflexivity.
Qed.

Lemma mul_zero_l a c : fzero a → ffinite c → fzero (a * c).
Proof.
  unfold fzero, ffinite. rewrite mul_spec. unfold SF64mul.
  destruct (Prim2SF a) as [sa| | |]; try done.
  by destruct (Prim2SF c).
Qed.

Lemma mul_zero_r a c : ffinite c → fzero a → fzero (c * a).
Proof.
  unfold fzero, ffinite. rewrite mul_spec. unfold SF64mul.
  destruct (Prim2SF a) as [sa| | |]; try done.
  by destruct (Prim2SF c).
Qed.

Lemma add_pos_zero b : fzero b → (0 + b)%float = 0%float.
Proof.
  intros [-> | ->]%fzero_cases; reflexivity.
Qed.

Lemma sub_pos_zero x : (x - 0)%float = x.
Proof.
  apply Prim2SF_inj. rewrite sub_spec. change (Prim2SF 0) with (S754_zero false).
  unfold SF64sub. by destruct (Prim2SF x) as [[]|[]| |[] m e].
Qed.

Lemma add_zero a b : fzero a → fzero b → fzero (a + b).
Proof.
  intros [-> | ->]%fzero_cases [-> | ->]%fzero_cases; exact I.
Qed.

Lemma sub_zero a b : fzero a → fzero b → fzero (a - b).
Proof.
  intros [-> | ->]%fzero_cases [-> | ->]%fzero_cases; exact I.
Qed.

Lemma div_zero a c : fzero a → (0 <? c)%float = true → fzero (a / c).
Proof.
  unfold fzero. rewrite FloatAxioms.ltb_spec, div_spec. change (Prim2SF 0) with (S754_zero false).
  unfold SF64div. destruct (Prim2SF a) as [sa| | |]; try done. intros _.
  by destruct (Prim2SF c) as [[]|[]| |[] m e].
Qed.

(** Number of binary digits *)
Lemma digits2_pos_bounds p :
  2 ^ (Z.pos (digits2_pos p) - 1) ≤ Z.pos p < 2 ^ Z.pos (digits2_pos p).
Proof.
  induction p as [p IH|p IH|]; simpl digits2_pos.
  - rewrite Pos2Z.inj_succ. replace (Z.succ (Z.pos (digits2_pos p)) - 1)
      with (Z.succ (Z.pos (digits2_pos p) - 1)) by lia.
    rewrite !Z.pow_succ_r by lia. lia.
  - rewrite Pos2Z.inj_succ. replace (Z.succ (Z.pos (digits2_pos p)) - 1)
      with (Z.succ (Z.pos (digits2_pos p) - 1)) by lia.
    rewrite !Z.pow_succ_r by lia. lia.
  - simpl. lia.
Qed.

Lemma Zdigits2_nonneg m : 0 ≤ Zdigits2 m.
Proof. destruct m; simpl; lia. Qed.

Lemma Zdigits2_lt_pow m k : 0 ≤ m < 2 ^ k → 0 ≤ k → Zdigits2 m ≤ k.
Proof.
  intros [H0 Hm] Hk. destruct m as [|p|p]; simpl; [lia| |lia].
  destruct (digits2_pos_bounds p) as [Hlo _].
  destruct (decide (Z.pos (digits2_pos p) ≤ k)) as [|Hn]; [done|].
  assert (2 ^ k ≤ 2 ^ (Z.pos (digits2_pos p) - 1)) by (apply Z.pow_le_mono_r; lia).
  lia.
Qed.

Lemma Zdigits2_gt m : 0 ≤ m → m < 2 ^ Zdigits2 m.
Proof.
  intros H. destruct m as [|p|p]; simpl; [lia| |lia].
  apply digits2_pos_bounds.
Qed.

Lemma Zdigits2_succ m : 0 ≤ m → Zdigits2 (m + 1) ≤ Zdigits2 m + 1.
Proof.
  intros H. apply Zdigits2_lt_pow.
  - pose proof (Zdigits2_gt m H). pose proof (Zdigits2_nonneg m).
    rewrite Z.pow_add_r by lia. lia.
  - pose proof (Zdigits2_nonneg m). lia.
Qed.

Lemma Zdigits2_mul a b : 0 ≤ a → 0 ≤ b → Zdigits2 (a * b) ≤ Zdigits2 a + Zdigits2 b.
Proof.
  intros Ha Hb. pose proof (Zdigits2_nonneg a). pose proof (Zdigits2_nonneg b).
  apply Zdigits2_lt_pow; [|lia].
  pose proof (Zdigits2_gt a Ha). pose proof (Zdigits2_gt b Hb).
  rewrite Z.pow_add_r by lia. nia.
Qed.

Lemma Zdigits2_add a b k :
  0 ≤ a → 0 ≤ b → Zdigits2 a ≤ k → Zdigits2 b ≤ k → ∀ s, Z.abs s ≤ a + b →
  Zdigits2 (Z.abs s) ≤ k + 1.
Proof.
  intros Ha Hb Hka Hkb s Hs.
  pose proof (Zdigits2_nonneg a). 
  apply Zdigits2_lt_pow; [|lia].
  pose proof (Zdigits2_gt a Ha). pose proof (Zdigits2_gt b Hb).
  assert (2 ^ Zdigits2 a ≤ 2 ^ k) by (apply Z.pow_le_mono_r; lia).
  assert (2 ^ Zdigits2 b ≤ 2 ^ k) by (apply Z.pow_le_mono_r; [lia|done]).
  rewrite Z.pow_add_r by lia. lia.
Qed.

(** Right shifts *)
Lemma shr_1_digits r :
  0 ≤ shr_m r →
  0 ≤ shr_m (shr_1 r) ∧ Zdigits2 (shr_m (shr_1 r)) = Z.max 0 (Zdigits2 (shr_m r) - 1).
Proof.
  destruct r as [m rb sb]. simpl. intros Hm.
  destruct m as [|[p|p|]|p]; simpl; try lia.
Qed.

Lemma iter_shr_1_digits n r :
  0 ≤ shr_m r →
  0 ≤ shr_m (@SpecFloat.iter_pos shr_record shr_1 n r) ∧
  Zdigits2 (shr_m (@SpecFloat.iter_pos shr_record shr_1 n r)) = Z.max 0 (Zdigits2 (shr_m r) - Z.pos n).
Proof.
  revert r. induction n as [n IH|n IH|]; intros r Hr; simpl.
  - destruct (shr_1_digits r Hr) as [H1 E1].
    destruct (IH _ H1) as [H2 E2]. destruct (IH _ H2) as [H3 E3].
    split; [done|]. rewrite E3, E2, E1. lia.
  - destruct (IH _ Hr) as [H2 E2]. destruct (IH _ H2) as [H3 E3].
    split; [done|]. rewrite E3, E2. lia.
  - by apply shr_1_digits.
Qed.

Lemma fexp_eq x : fexp prec emax x = Z.max (x - 53) (-1074).
Proof. reflexivity. Qed.

Lemma shr_m_of_loc m l : shr_m (shr_record_of_loc m l) = m.
Proof. by destruct l as [|[]]. Qed.

Lemma shr_fexp_digits m e l r e' :
  0 ≤ m → shr_fexp prec emax m e l = (r, e') →
  0 ≤ shr_m r ∧
  e' = Z.max e (fexp prec emax (Zdigits2 m + e)) ∧
  Zdigits2 (shr_m r) = Z.max 0 (Zdigits2 m + e - e').
Proof.
  unfold shr_fexp, shr. intros Hm H.
  pose proof (Zdigits2_nonneg m).
  destruct (fexp prec emax (Zdigits2 m + e) - e) as [|n|n] eqn:E.
  - simplify_eq. rewrite shr_m_of_loc. lia.
  - simplify_eq.
    destruct (iter_shr_1_digits n (shr_record_of_loc m l)) as [H1 H2].
    { by rewrite shr_m_of_loc. }
    rewrite shr_m_of_loc in H2. split; [done|]. lia.
  - simplify_eq. rewrite shr_m_of_loc. lia.
Qed.

Lemma round_nearest_even_digits m l :
  0 ≤ m →
  0 ≤ round_nearest_even m l ∧ Zdigits2 (round_nearest_even m l) ≤ Zdigits2 m + 1.
Proof.
  intros Hm. pose proof (Zdigits2_succ m Hm).
  unfold round_nearest_even. destruct l as [|[]]; try destruct (Z.even m); lia.
Qed.

Lemma binary_round_aux_bound sx m e l K :
  0 < m → Zdigits2 m + e ≤ K → e ≤ 971 → -1074 ≤ K ≤ 1023 →
  SFbound (K + 1) (binary_round_aux prec emax sx m e l).
Proof.
  intros Hm HK He HK'. unfold binary_round_aux.
  destruct (shr_fexp prec emax m e l) as [r1 e1] eqn:E1.
  apply shr_fexp_digits in E1 as (H1 & -> & D1); [|lia].
  destruct (round_nearest_even_digits (shr_m r1) (loc_of_shr_record r1) H1) as [H1' D1'].
  destruct (shr_fexp prec emax _ _ loc_Exact) as [r2 e2] eqn:E2.
  apply shr_fexp_digits in E2 as (H2 & -> & D2); [|done].
  rewrite !fexp_eq in *.
  assert (1 ≤ Zdigits2 m) by (destruct m; simpl; lia).
  destruct (shr_m r2) as [|m2|m2] eqn:Em2; simpl; [done| |lia].
  simpl in D2.
  case_match eqn:Hle; simpl.
  - lia.
  - apply Z.leb_gt in Hle. unfold prec, emax in Hle. lia.
Qed.

Lemma digits2_pos_iter_xO m d :
  Z.pos (digits2_pos (Pos.iter xO m d)) = Z.pos (digits2_pos m) + Z.pos d.
Proof.
  induction d as [|d IH] using Pos.peano_ind.
  - simpl. lia.
  - rewrite Pos.iter_succ. simpl digits2_pos. lia.
Qed.

Lemma shl_align_digits m e e' m' e'' :
  shl_align m e e' = (m', e'') →
  e'' = Z.min e e' ∧ Z.pos (digits2_pos m') + e'' = Z.pos (digits2_pos m) + e.
Proof.
  unfold shl_align. destruct (e' - e) as [|d|d] eqn:E; intros ?; simplify_eq.
  - lia.
  - lia.
  - rewrite digits2_pos_iter_xO. lia.
Qed.

Lemma binary_round_bound sx m e K :
  Z.pos (digits2_pos m) + e ≤ K → e ≤ 971 → -1074 ≤ K ≤ 1023 →
  SFbound (K + 1) (binary_round prec emax sx m e).
Proof.
  intros HK He HK'. unfold binary_round.
  destruct (shl_align _ _ _) as [mz ez] eqn:E.
  apply shl_align_digits in E as [-> E].
  apply binary_round_aux_bound; simpl; lia.
Qed.

Lemma Prim2SF_valid_exp x : SFvalid_exp (Prim2SF x).
Proof.
  pose proof (Prim2SF_valid x) as H.
  destruct (Prim2SF x) as [| | |s m e]; try done. simpl in *.
  unfold bounded in H. apply andb_prop in H as [_ H%Z.leb_le]. done.
Qed.

Lemma SFmul_bound A B X Y :
  SFbound A X → SFvalid_exp X → SFsmall B Y → -1074 ≤ A + B ≤ 1023 →
  SFbound (A + B + 1) (SFmul prec emax X Y).
Proof.
  intros HX HvX HY HAB.
  destruct X as [sx| | |sx mx ex], Y as [sy| | |sy my ey]; simpl in *; try done.
  destruct HY as [Hey HY].
  apply binary_round_aux_bound; [lia| |lia|lia].
  pose proof (Zdigits2_mul (Z.pos mx) (Z.pos my)) as Hm. simpl in *. lia.
Qed.

Lemma SFadd_bound A X Y :
  SFbound A X → SFbound A Y → SFvalid_exp X → SFvalid_exp Y → -1075 ≤ A ≤ 1022 →
  SFbound (A + 2) (SFadd prec emax X Y).
Proof.
  intros HX HY HvX HvY HA.
  destruct X as [sx| | |sx mx ex], Y as [sy| | |sy my ey]; simpl in *; try done.
  - by destruct sx, sy.
  - lia.
  - lia.
  - destruct (shl_align mx ex (Z.min ex ey)) as [a ea] eqn:Ea.
    destruct (shl_align my ey (Z.min ex ey)) as [b eb] eqn:Eb.
    apply shl_align_digits in Ea as [-> Ea], Eb as [-> Eb]. simpl.
    set (z := cond_Zopp sx (Z.pos a) + cond_Zopp sy (Z.pos b)).
    assert (Zdigits2 (Z.abs z) ≤ A - Z.min ex ey + 1) as Hz.
    { apply (Zdigits2_add (Z.pos a) (Z.pos b)); simpl; try lia.
      unfold z. destruct sx, sy; simpl; lia. }
    replace (A + 2) with (A + 1 + 1) by lia.
    destruct z as [|p|p]; simpl in *; [done| |].
    + apply binary_round_bound; lia.
    + apply binary_round_bound; lia.
Qed.

Lemma fsmallb_fsmall x : fsmallb x = true → fsmall x.
Proof.
  unfold fsmallb, fsmall. destruct (Prim2SF x); simpl; try done.
  intros [?%Z.leb_le ?%Z.leb_le]%andb_prop. done.
Qed.

Lemma fsmall_ffinite x : fsmall x → ffinite x.
Proof. unfold fsmall, ffinite. by destruct (Prim2SF x). Qed.

Lemma fbound_ffinite K x : fbound K x → ffinite x.
Proof. unfold fbound, ffinite. by destruct (Prim2SF x). Qed.

Lemma fzero_fbound K x : fzero x → fbound K x.
Proof. unfold fbound, fzero. by destruct (Prim2SF x). Qed.

Lemma fbound_mono K K' x : fbound K x → K ≤ K' → fbound K' x.
Proof. unfold fbound. destruct (Prim2SF x); simpl; try done. lia. Qed.

Lemma mul_bound A x c :
  fbound A x → fsmall c → -1074 ≤ A ≤ 1023 → fbound (A + 1) (x * c).
Proof.
  unfold fbound, fsmall. intros Hx Hc HA. rewrite mul_spec.
  replace (A + 1) with (A + 0 + 1) by lia.
  apply SFmul_bound; [done|apply Prim2SF_valid_exp|done|lia].
Qed.

Lemma add_bound A x y :
  fbound A x → fbound A y → -1075 ≤ A ≤ 1022 → fbound (A + 2) (x + y).
Proof.
  unfold fbound. intros Hx Hy HA. rewrite add_spec.
  apply SFadd_bound; try done; apply Prim2SF_valid_exp.
Qed.

(** ** A frame without feedback *)

Lemma kIntrpCoef_small row c : row ∈ kIntrpCoef → c ∈ row → fsmall c.
Proof.
  intros Hrow Hc. apply fsmallb_fsmall.
  assert (forallb (forallb fsmallb) kIntrpCoef = true) as H by (vm_compute; reflexivity).
  rewrite forallb_forall in H. apply list_elem_of_In in Hrow. apply H in Hrow.
  rewrite forallb_forall in Hrow. apply Hrow. by apply list_elem_of_In.
Qed.

Lemma kDampFilter_small c : c ∈ kDampFilter → fsmall c.
Proof.
  intros Hc. apply fsmallb_fsmall.
  assert (forallb fsmallb kDampFilter = true) as H by (vm_compute; reflexivity).
  rewrite forallb_forall in H. apply H. by apply list_elem_of_In.
Qed.

Lemma aget_elem_of {A} (a : list A) i x : aget a i = Some x → x ∈ a.
Proof. intros [_ H]%aget_Some. by eapply list_elem_of_lookup_2. Qed.

(** The damping filter of a damper state of zeros gives +0. *)
Lemma damp_zero d s : Forall fzero d → damp d = Some s → s = 0%float.
Proof.
  intros Hd H. unfold damp in H.
  apply (for_up_inv (λ _ s, s = 0%float) _ _ _ _ _ H); [done..|].
  intros i t t' _ -> Hb. bind_inv Hb. simplify_eq.
  apply add_pos_zero. apply mul_zero_l.
  - rewrite Forall_forall in Hd. apply Hd. by eapply aget_elem_of.
  - apply fsmall_ffinite, kDampFilter_small. by eapply aget_elem_of.
Qed.

(** The fractional-pitch sum over a buffer of zeros is +0. *)
Lemma fractional_pitch_zero buf row pl s :
  Forall fzero buf → row ∈ kIntrpCoef →
  fractional_pitch buf row pl = Some s → s = 0%float.
Proof.
  intros Hb Hrow H. unfold fractional_pitch in H.
  apply (for_up_inv (λ _ s, s = 0%float) _ _ _ _ _ H); [done..|].
  intros i t t' _ -> Hs. bind_inv Hs. simplify_eq.
  apply add_pos_zero. apply mul_zero_l.
  - rewrite Forall_forall in Hb. apply Hb. by eapply aget_elem_of.
  - eapply fsmall_ffinite, kIntrpCoef_small; [done|]. by eapply aget_elem_of.
Qed.

(** The fractional-pitch sum over bounded samples is finite. *)
Lemma fractional_pitch_finite E buf row pl s :
  Forall (fbound E) buf → row ∈ kIntrpCoef → 0 ≤ E ≤ 1000 →
  fractional_pitch buf row pl = Some s → ffinite s.
Proof.
  intros Hb Hrow HE H. unfold fractional_pitch in H.
  apply (fbound_ffinite (E + 1 + 2 * PITCH_FRACORDER)).
  apply (for_up_inv (λ i s, fbound (E + 1 + 2 * i) s) _ _ _ _ _ H); [done| |].
  - by apply fzero_fbound.
  - intros i t t' Hi Ht Hs. bind_inv Hs. simplify_eq.
    replace (E + 1 + 2 * (i + 1)) with (E + 1 + 2 * i + 2) by lia.
    unfold PITCH_FRACORDER in Hi. apply add_bound; [done| |lia].
    apply (fbound_mono (E + 1)); [|lia]. apply mul_bound; [| |lia].
    + rewrite Forall_forall in Hb. apply Hb. by eapply aget_elem_of.
    + eapply kIntrpCoef_small; [done|]. by eapply aget_elem_of.
Qed.

(** Whatever makes each product [gain * sum] of a frame a zero: [B] holds of
    the buffer entries, [Bin] of the input samples, [S] of the
    fractional-pitch sums and [G] of the gains. *)
Section ZeroFeedback.
Variables B Bin S G : float → Prop.
Hypothesis HS : ∀ buf row pl s,
  Forall B buf → row ∈ kIntrpCoef → fractional_pitch buf row pl = Some s → S s.
Hypothesis HG : ∀ g s, G g → S s → fzero (g * s).
Hypothesis HB : ∀ x, Bin x → B (x + x).
Variable in_data : list float.
Hypothesis Hin : Forall Bin in_data.

#[local] Abbreviation Inv := (zero_feedback B in_data).

Lemma FilterSample_Inv pos pl w w' :
  Inv w → G (gain w.1.1) → interpol_coeff w.1.1 ∈ kIntrpCoef →
  FilterSample in_data pos pl w = Some w' →
  Inv w'.
Proof.
  destruct w as [[p o] d], w' as [[p' o'] d'].
  intros (Hm & Hd & Hb & Ho) Hg Hrow H. simpl in *.
  apply FilterSample_inv in H
    as (ds & sum & x & damped & Hsh & Hsum & Hd0 & Hdamp & Hx & Hout & Hbuf & Hidx & _ & Hfix).
  apply shift_damper_Some in Hsh as (d0 & d1 & d2 & d3 & d4 & r & Ed & ->).
  assert (Forall fzero (damper_state p')) as Hd'.
  { apply aset_Some in Hd0 as [_ ->]. apply Forall_insert.
    - rewrite Ed in Hd. inversion Hd as [|? ? H0 Hd1]; subst.
      inversion Hd1 as [|? ? H1 Hd2]; subst. inversion Hd2 as [|? ? H2 Hd3]; subst.
      inversion Hd3 as [|? ? H3 Hd4]; subst. inversion Hd4 as [|? ? H4 Hd5]; subst.
      repeat constructor; done.
    - apply HG; [done|]. by eapply HS. }
  apply damp_zero in Hdamp; [|done]. subst damped.
  rewrite sub_pos_zero in Hout, Hbuf.
  split_and!; simpl.
  - congruence.
  - done.
  - apply aset_Some in Hbuf as [_ ->]. apply Forall_insert; [done|].
    apply HB. rewrite Forall_forall in Hin. apply Hin. by eapply aget_elem_of.
  - intros i Hi. destruct (decide (i = index p)) as [->|Hne].
    + exists x. split; [done|]. by eapply aget_aset_eq.
    + rewrite (aget_aset_ne _ _ _ _ _ Hout) by done. apply Ho. lia.
Qed.

Lemma FilterSegment_Inv cfg w w' :
  Inv w → G (gain w.1.1) → interpol_coeff w.1.1 ∈ kIntrpCoef →
  FilterSegment cfg in_data w = Some w' →
  Inv w' ∧ index w'.1.1 = index w.1.1 + Z.max 0 (num_samples w.1.1) ∧
  seg_fixed w'.1.1 = seg_fixed w.1.1.
Proof.
  intros HI Hg Hrow H. unfold FilterSegment, FilterSegment_upto in H.
  destruct (decide (0 ≤ num_samples w.1.1)) as [Hn|Hn].
  - rewrite Z.max_r by done.
    apply (for_up_inv
             (λ i (v : Work), Inv v ∧ index v.1.1 = index w.1.1 + i ∧
                               seg_fixed v.1.1 = seg_fixed w.1.1) _ _ _ _ _ H);
      [done| |].
    + split_and!; [done|lia|done].
    + intros i v v' _ (Hv & Hi & Hf) Hs. split_and!.
      * eapply FilterSample_Inv; [done| | |done].
        -- replace (gain v.1.1) with (gain w.1.1); [done|].
           unfold seg_fixed in Hf. congruence.
        -- replace (interpol_coeff v.1.1) with (interpol_coeff w.1.1); [done|].
           unfold seg_fixed in Hf. congruence.
      * destruct v as [[q o] d], v' as [[q' o'] d'].
        apply FilterSample_inv in Hs as (?&?&?&?&_&_&_&_&_&_&_&Hq&_). simpl in *. lia.
      * destruct v as [[q o] d], v' as [[q' o'] d'].
        apply FilterSample_inv in Hs as (?&?&?&?&_&_&_&_&_&_&_&_&_&Hq).
        unfold seg_fixed in *. simpl in *. congruence.
  - rewrite for_up_nil in H by lia. simplify_eq. split_and!; [done|lia|done].
Qed.

Lemma frame_granule_Inv cfg gd ld w w' :
  Inv w → G (gain w.1.1 + gd) →
  frame_granule cfg in_data gd ld w = Some w' →
  Inv w' ∧ index w'.1.1 = index w.1.1 + Z.max 0 (num_samples w.1.1) ∧
  gain w'.1.1 = (gain w.1.1 + gd)%float ∧ num_samples w'.1.1 = num_samples w.1.1.
Proof.
  destruct w as [[p o] d]. intros (Hm & Hd & Hb & Ho) Hg H. simpl in *.
  apply frame_granule_inv in H as (p1 & Hu & Hs).
  apply Update_inv in Hu as (_ & Hrow & Hfix & _).
  destruct p1 as [b1 ds1 c1 g1 l1 lo1 sf1 m1 ns1 i1 dg1 gm1].
  unfold upd_fixed in Hfix. simpl in Hfix, Hrow. simplify_eq.
  apply FilterSegment_Inv in Hs as (HI & Hidx & Hseg); simpl.
  - unfold seg_fixed in Hseg. simpl in *. injection Hseg as _ Eg _ _ _ _ Ens _.
    split_and!; [done|lia| |lia]. by rewrite Eg.
  - by split_and!.
  - done.
  - by eapply aget_elem_of.
Qed.

Lemma granules_Inv cfg gd ld w w' :
  for_up (λ _ w, frame_granule cfg in_data gd ld w) 0 (PITCH_GRAN_PER_SUBFRAME cfg) w
    = Some w' →
  Inv w →
  (∀ n, (n < Z.to_nat (PITCH_GRAN_PER_SUBFRAME cfg))%nat →
        G (ramp (Datatypes.S n) (gain w.1.1) gd)) →
  Inv w' ∧
  index w'.1.1 = index w.1.1 +
                 Z.max 0 (PITCH_GRAN_PER_SUBFRAME cfg) * Z.max 0 (num_samples w.1.1) ∧
  num_samples w'.1.1 = num_samples w.1.1.
Proof.
  intros H HI Hg.
  destruct (decide (0 ≤ PITCH_GRAN_PER_SUBFRAME cfg)) as [Hn|Hn].
  - rewrite (Z.max_r 0 (PITCH_GRAN_PER_SUBFRAME cfg)) by done.
    apply (for_up_inv
             (λ i (v : Work),
                Inv v ∧ index v.1.1 = index w.1.1 + i * Z.max 0 (num_samples w.1.1) ∧
                num_samples v.1.1 = num_samples w.1.1 ∧
                gain v.1.1 = ramp (Z.to_nat i) (gain w.1.1) gd) _ _ _ _ _ H) in Hn
      as (? & ? & ? & _); [done| |].
    + split_and!; [done|lia|done..].
    + intros i v v' Hi (Hv & Hidx & Hns & Hgv) Hs.
      apply frame_granule_Inv in Hs as (Hv' & Hidx' & Hg' & Hns'); [|done|].
      * split_and!; [done|lia|congruence|].
        rewrite Hg', Hgv. replace (Z.to_nat (i + 1)) with (Datatypes.S (Z.to_nat i)) by lia.
        done.
      * rewrite Hgv. apply (Hg (Z.to_nat i)). lia.
  - rewrite for_up_nil in H by lia. simplify_eq. split_and!; [done|lia|done].
Qed.

Lemma sub_frames_Inv cfg lags gains ol0 og0 w s' :
  for_up (frame_sub_frame cfg in_data lags gains) 0 PITCH_SUBFRAMES (ol0, og0, w)
    = Some s' →
  Inv w →
  (∀ m n, 0 ≤ m < PITCH_SUBFRAMES →
          (n < Z.to_nat (PITCH_GRAN_PER_SUBFRAME cfg))%nat →
          G (frame_gain cfg og0 gains m n)) →
  Inv s'.2 ∧
  index s'.2.1.1 = index w.1.1 +
    PITCH_SUBFRAMES *
    (Z.max 0 (PITCH_GRAN_PER_SUBFRAME cfg) * Z.max 0 (num_samples w.1.1)).
Proof.
  intros H HI Hg.
  assert (0 ≤ PITCH_SUBFRAMES) as H4 by done.
  apply (for_up_inv
           (λ m (s : float * float * Work),
              s.1.2 = gain_anchor og0 gains m ∧ Inv s.2 ∧
              index s.2.1.1 = index w.1.1 +
                m * (Z.max 0 (PITCH_GRAN_PER_SUBFRAME cfg) * Z.max 0 (num_samples w.1.1)) ∧
              num_samples s.2.1.1 = num_samples w.1.1) _ _ _ _ _ H) in H4
    as (_ & ? & ? & _); [done| |].
  - simpl. split_and!; [done|done|lia|done].
  - clear H. intros m [[ol og] [[p o] d]] t' Hm (Hog & Hv & Hidx & Hns) Hb. simpl in *.
    apply frame_sub_frame_inv in Hb as (lag_m & gain_m & v' & _ & Hgm & Hb & ->).
    apply granules_Inv in Hb as (Hv' & Hidx' & Hns').
    + simpl in *. split_and!.
      * unfold gain_anchor. rewrite decide_False by lia.
        replace (m + 1 - 1) with m by lia. by rewrite Hgm.
      * done.
      * lia.
      * congruence.
    + destruct Hv as (? & ? & ? & ?). by split_and!.
    + intros n Hn. simpl. specialize (Hg m n Hm Hn).
      unfold frame_gain in Hg. rewrite Hgm, <- Hog in Hg. done.
Qed.

Lemma PitchfilterPre_Inv cfg out st lags gains r :
  WebRtcIsac_PitchfilterPre cfg in_data out st lags gains = Some r →
  Forall fzero (ystate st) → Forall B (ubuf st) → B 0%float →
  Forall G (frame_gains cfg (anchor_gain cfg st lags gains) gains) →
  ∀ i, 0 ≤ i < frame_samples cfg →
       ∃ x, aget in_data i = Some x ∧ aget (r_out_data r) i = Some x.
Proof.
  unfold WebRtcIsac_PitchfilterPre. intros H Hy Hu H0 Hg.
  apply FilterFrame_inv in H
    as (gains' & ol & og & [[p o] d] & st' & p2 & o2 & d2 & H & _ & Hla & ->).
  apply frame_filter_inv in H as (p0 & dg0 & ol0 & og0 & p1 & Hset & Hanc & Hloop).
  apply frame_mode_setup_inv in Hset as (_ & _ & _ & _ & Hp0 & Hgains & _).
  destruct Hp0 as [-> ->]; [done|]. rewrite Hgains in * by done. clear Hgains gains'.
  apply frame_anchors_inv in Hanc as (lag0 & Hlag0 & Hanc).
  assert (og0 = anchor_gain cfg st lags gains ∧ p1 = frame_init cfg st kPitchFilterPre)
    as [-> ->].
  { unfold anchor_gain. rewrite Hlag0. simpl.
    destruct (lag_jump _ _ _).
    - destruct Hanc as (_ & -> & Hp1). simpl in Hp1. done.
    - by destruct Hanc as (_ & -> & ->). }
  pose proof (sub_frames_mode _ _ _ _ _ _ Hloop) as Hmode.
  apply sub_frames_Inv in Hloop as [(_ & _ & _ & Ho) Hidx].
  - simpl in *. unfold frame_lookahead in Hla. rewrite Hmode in Hla.
    rewrite decide_False in Hla by (by intros [?|?]). simplify_eq.
    intros i Hi. apply Ho. unfold frame_samples in Hi. lia.
  - split_and!; simpl; [done|done| |lia].
    apply Forall_app. split; [done|]. by apply Forall_replicate.
  - intros m n Hm Hn. rewrite Forall_forall in Hg. apply Hg.
    unfold frame_gains. apply list_elem_of_bind. exists m. split.
    + apply list_elem_of_fmap_2. apply elem_of_seq. lia.
    + apply elem_of_seqZ. lia.
Qed.
End ZeroFeedback.

Lemma SFltb_limit m e :
  SFltb (S754_finite false m e) (S754_finite false 4503599627370496 848) = true →
  e ≤ 848.
Proof.
  unfold SFltb, SFcompare.
  destruct (e ?= 848) eqn:Hcmp; intros H.
  - apply Z.compare_eq in Hcmp. lia.
  - rewrite Z.compare_lt_iff in Hcmp. lia.
  - discriminate H.
Qed.

Lemma abs_lt_limit x : (abs x <? sample_limit)%float = true → fbound 901 x.
Proof.
  rewrite FloatAxioms.ltb_spec, abs_spec. unfold fbound.
  change (Prim2SF sample_limit) with (S754_finite false 4503599627370496 848).
  pose proof (Prim2SF_valid x) as Hv.
  destruct (Prim2SF x) as [| | |s m e]; try (intros; exact I).
  - destruct s; intros H; discriminate H.
  - intros H; discriminate H.
  - intros He%SFltb_limit. cbn [valid_binary] in Hv.
    unfold bounded, canonical_mantissa in Hv.
    apply andb_prop in Hv as [Hc%Z.eqb_eq _]. rewrite fexp_eq in Hc.
    cbn [SFbound]. lia.
Qed.

Lemma ramp_zero k a delta : fzero a → fzero delta → fzero (ramp k a delta).
Proof.
  intros Ha Hd. induction k as [|k IH]; simpl; [done|]. by apply add_zero.
Qed.

Lemma frame_gains_zero cfg og0 gains :
  (0 <? of_int (PITCH_GRAN_PER_SUBFRAME cfg))%float = true →
  fzero og0 → Forall fzero gains →
  Forall fzero (frame_gains cfg og0 gains).
Proof.
  intros Hgran Hog Hgains. apply Forall_forall. intros g Hg.
  unfold frame_gains in Hg. apply list_elem_of_bind in Hg as (m & Hg & _).
  apply list_elem_of_fmap in Hg as (n & -> & _).
  assert (∀ i, fzero (default 0%float (aget gains i))) as Hdef.
  { intros i. destruct (aget gains i) as [x|] eqn:E; simpl; [|done].
    rewrite Forall_forall in Hgains. apply Hgains. by eapply aget_elem_of. }
  assert (fzero (gain_anchor og0 gains m)) as Ha.
  { unfold gain_anchor. by case_decide. }
  unfold frame_gain. apply ramp_zero; [done|].
  apply div_zero; [|done]. apply sub_zero; [apply Hdef|done].
Qed.

Lemma Forall_forallb {A} (f : A → bool) (l : list A) :
  forallb f l = true → Forall (λ x, f x = true) l.
Proof. rewrite forallb_forall, Forall_forall. intros H x Hx. apply H. by apply list_elem_of_In. Qed.

(** C8: a pre-filter call on a frame of zeros, from a persistent state whose
    history and damper memory are zeros, gives an output of zeros: every
    sample of the frame that the call writes is zero.  The lags are valid
    when the call stays inside its arrays, that is, has a result; the gains
    are valid when every gain that the interpolation passes through is a
    finite number. *)
Theorem PitchfilterPre_zero cfg in_data out_data pf_state lags gains r :
  WebRtcIsac_PitchfilterPre cfg in_data out_data pf_state lags gains = Some r →
  Forall (λ x, is_zero x = true) in_data →
  Forall (λ x, is_zero x = true) (ubuf pf_state) →
  Forall (λ x, is_zero x = true) (ystate pf_state) →
  Forall (λ g, is_finite g = true)
    (frame_gains cfg (anchor_gain cfg pf_state lags gains) gains) →
  ∀ i, 0 ≤ i < frame_samples cfg →
       ∃ y, aget (r_out_data r) i = Some y ∧ is_zero y = true.
Proof.
  intros H Hin Hu Hy Hg i Hi.
  destruct (PitchfilterPre_Inv fzero fzero (λ s, s = 0%float) ffinite) 
    with (in_data := in_data) (cfg := cfg) (out := out_data) (st := pf_state)
         (lags := lags) (gains := gains) (r := r) (i := i) as (x & Hx & Hout);
    try done.
  - intros buf row pl s Hb Hrow Hs. by eapply fractional_pitch_zero.
  - intros g s Hgf ->. by apply mul_zero_r.
  - intros x Hx. by apply add_zero.
  - eapply Forall_impl; [exact Hin|]. intros x. apply is_zero_fzero.
  - eapply Forall_impl; [exact Hy|]. intros x. apply is_zero_fzero.
  - eapply Forall_impl; [exact Hu|]. intros x. apply is_zero_fzero.
  - eapply Forall_impl; [exact Hg|]. intros x. apply is_finite_ffinite.
  - exists x. split; [done|]. apply is_zero_fzero.
    rewrite Forall_forall in Hin. apply is_zero_fzero, Hin. by eapply aget_elem_of.
Qed.

Lemma PitchfilterPre_zero_witness :
  ∃ r,
    WebRtcIsac_PitchfilterPre ex_cfg (replicate 240 0%float) (replicate 240 1%float)
      ex_zero_state ex_lags ex_gains = Some r ∧
    Forall (λ x, is_zero x = true) (replicate 240 0%float) ∧
    Forall (λ x, is_zero x = true) (ubuf ex_zero_state) ∧
    Forall (λ x, is_zero x = true) (ystate ex_zero_state) ∧
    Forall (λ g, is_finite g = true)
      (frame_gains ex_cfg (anchor_gain ex_cfg ex_zero_state ex_lags ex_gains) ex_gains) ∧
    ∀ i, 0 ≤ i < frame_samples ex_cfg →
         ∃ y, aget (r_out_data r) i = Some y ∧ is_zero y = true.
Proof.
  eexists. split; [vm_compute; reflexivity|].
  assert (Forall (λ x, is_zero x = true) (replicate 240 0%float)) as H1
    by (apply Forall_forallb; vm_compute; reflexivity).
  assert (Forall (λ x, is_zero x = true) (ubuf ex_zero_state)) as H2
    by (apply Forall_forallb; vm_compute; reflexivity).
  assert (Forall (λ x, is_zero x = true) (ystate ex_zero_state)) as H3
    by (apply Forall_forallb; vm_compute; reflexivity).
  assert (Forall (λ g, is_finite g = true)
      (frame_gains ex_cfg (anchor_gain ex_cfg ex_zero_state ex_lags ex_gains) ex_gains))
    as H4 by (apply Forall_forallb; vm_compute; reflexivity).
  split_and!; try done.
  apply (PitchfilterPre_zero ex_cfg (replicate 240 0%float) (replicate 240 1%float)
           ex_zero_state ex_lags ex_gains); [vm_compute; reflexivity|done..].
Defined.

(** C7, amended: when the gains of the sub-frames are zero, the pre-filter
    output equals the input, sample for sample, provided that the filter
    starts from rest: the gain from which the first sub-frame ramps is zero
    (the last gain of the persistent state is zero, or the lag-jump guard
    replaces it by the first gain), the damper memory holds zeros, and the
    samples of the history and of the input are finite, below [2^900] in
    magnitude, so that no interpolation overflows.  The granule count is one
    that converts to a positive double. *)
Theorem PitchfilterPre_zero_gains cfg in_data out_data pf_state lags gains r :
  WebRtcIsac_PitchfilterPre cfg in_data out_data pf_state lags gains = Some r →
  Forall (λ g, is_zero g = true) gains →
  is_zero (anchor_gain cfg pf_state lags gains) = true →
  Forall (λ x, is_zero x = true) (ystate pf_state) →
  Forall (λ x, (abs x <? sample_limit)%float = true) (ubuf pf_state) →
  Forall (λ x, (abs x <? sample_limit)%float = true) in_data →
  (0 <? of_int (PITCH_GRAN_PER_SUBFRAME cfg))%float = true →
  ∀ i, 0 ≤ i < frame_samples cfg →
       ∃ x, aget in_data i = Some x ∧ aget (r_out_data r) i = Some x.
Proof.
  intros H Hg Hog Hy Hu Hin Hgran.
  apply (PitchfilterPre_Inv (fbound 903) (fbound 901) ffinite fzero)
    with (out := out_data) (st := pf_state) (lags := lags) (gains := gains); try done.
  - intros buf row pl s Hb Hrow Hs. by eapply (fractional_pitch_finite 903).
  - intros g s Hgz Hs. by apply mul_zero_l.
  - intros x Hx. by apply (add_bound 901).
  - eapply Forall_impl; [exact Hin|]. intros x. apply abs_lt_limit.
  - eapply Forall_impl; [exact Hy|]. intros x. apply is_zero_fzero.
  - eapply Forall_impl; [exact Hu|]. intros x Hx.
    apply (fbound_mono 901); [|lia]. by apply abs_lt_limit.
  - apply frame_gains_zero; [done|by apply is_zero_fzero|].
    eapply Forall_impl; [exact Hg|]. intros x. apply is_zero_fzero.
Qed.

Lemma PitchfilterPre_zero_gains_witness :
  ∃ r,
    WebRtcIsac_PitchfilterPre ex_cfg (ex_signal 240) (replicate 240 0%float)
      ex_rest_state ex_lags ex_zero_gains = Some r ∧
    Forall (λ g, is_zero g = true) ex_zero_gains ∧
    is_zero (anchor_gain ex_cfg ex_rest_state ex_lags ex_zero_gains) = true ∧
    Forall (λ x, is_zero x = true) (ystate ex_rest_state) ∧
    Forall (λ x, (abs x <? sample_limit)%float = true) (ubuf ex_rest_state) ∧
    Forall (λ x, (abs x <? sample_limit)%float = true) (ex_signal 240) ∧
    (0 <? of_int (PITCH_GRAN_PER_SUBFRAME ex_cfg))%float = true ∧
    ∀ i, 0 ≤ i < frame_samples ex_cfg →
         ∃ x, aget (ex_signal 240) i = Some x ∧ aget (r_out_data r) i = Some x.
Proof.
  eexists. split; [vm_compute; reflexivity|].
  assert (Forall (λ g, is_zero g = true) ex_zero_gains) as H1
    by (apply Forall_forallb; vm_compute; reflexivity).
  assert (Forall (λ x, is_zero x = true) (ystate ex_rest_state)) as H3
    by (apply Forall_forallb; vm_compute; reflexivity).
  assert (Forall (λ x, (abs x <? sample_limit)%float = true) (ubuf ex_rest_state)) as H4
    by (apply Forall_forallb; vm_compute; reflexivity).
  assert (Forall (λ x, (abs x <? sample_limit)%float = true) (ex_signal 240)) as H5
    by (apply Forall_forallb; vm_compute; reflexivity).
  split_and!; try done.
  apply (PitchfilterPre_zero_gains ex_cfg (ex_signal 240) (replicate 240 0%float)
           ex_rest_state ex_lags ex_zero_gains); [vm_compute; reflexivity|done..].
Defined.

(** The claim C7 as the spec states it, for every persistent state, fails:
    from [ex_state] the first output sample differs from the first input
    sample. *)
Lemma PitchfilterPre_zero_gains_any_state :
  ¬ (∀ in_data out_data pf_state lags r,
       WebRtcIsac_PitchfilterPre ex_cfg in_data out_data pf_state lags ex_zero_gains
         = Some r →
       ∀ i, 0 ≤ i < frame_samples ex_cfg →
            aget (r_out_data r) i = aget in_data i).
Proof.
  assert (∃ r, WebRtcIsac_PitchfilterPre ex_cfg (ex_signal 240) (replicate 240 0%float)
                 ex_state ex_lags ex_zero_gains = Some r ∧
               aget (r_out_data r) 0 ≠ aget (ex_signal 240) 0) as (r & E & Hne).
  { eexists. split; [vm_compute; reflexivity|].
    intros H. apply (f_equal probe) in H. vm_compute in H. discriminate H. }
  intros H. apply Hne. apply (H _ _ _ _ r E 0). clear. change (0 ≤ 0 < 240). lia.
Qed.

(** Each of the three conditions counts.  From rest the first output sample
    is the first input sample, -3; a damper memory that still rings or a last
    gain of one half changes it, and an infinite history sample turns it into
    NaN. *)
Example zero_gains_first_output :
  probe (aget (ex_signal 240) 0) = Some (S754_finite true 6755399441055744 (-51)) ∧
  first_output ex_rest_state = Some (S754_finite true 6755399441055744 (-51)) ∧
  first_output ex_ringing_state ≠ probe (aget (ex_signal 240) 0) ∧
  first_output ex_gain_state ≠ probe (aget (ex_signal 240) 0) ∧
  first_output ex_overflow_state = Some S754_nan.
Proof. vm_compute. split_and!; done. Qed.

(** ** The mode of a pre-filter frame *)

Lemma for_up_sim {S} (f : S → S) (R : S → Prop) (body1 body2 : Z → S → option S) lo hi s :
  (∀ i s, R s → body2 i (f s) = f <$> body1 i s) →
  (∀ i s s', R s → body1 i s = Some s' → R s') →
  R s →
  for_up body2 lo hi (f s) = f <$> for_up body1 lo hi s.
Proof.
  unfold for_up. intros Hsim Hpres.
  generalize (Z.to_nat (hi - lo)). intros k. revert lo s.
  induction k as [|k IH]; intros lo s HR; simpl; [done|].
  rewrite Hsim by done.
  destruct (body1 lo s) as [s1|] eqn:E; simpl; [|done].
  apply IH. by eapply Hpres.
Qed.

Lemma FilterSample_set_mode in_data pos pos_lag m w :
  mode w.1.1 ≠ kPitchFilterPreGain → m ≠ kPitchFilterPreGain →
  FilterSample in_data pos pos_lag (work_mode m w)
  = work_mode m <$> FilterSample in_data pos pos_lag w.
Proof.
  destruct w as [[p o] d]. unfold FilterSample, work_mode. simpl. intros Hp Hm.
  destruct (shift_damper _); simpl; [|done].
  destruct (fractional_pitch _ _ _); simpl; [|done].
  destruct (aset _ 0 _); simpl; [|done].
  rewrite !decide_False by done. simpl.
  destruct (damp _); simpl; [|done].
  destruct (aget in_data _); simpl; [|done].
  destruct (aset o _ _) as [o'|]; simpl; [|done].
  destruct (aget o' _); simpl; [|done].
  destruct (aset (buffer p) _ _); simpl; done.
Qed.

Lemma FilterSample_mode in_data pos pos_lag w w' :
  FilterSample in_data pos pos_lag w = Some w' → mode w'.1.1 = mode w.1.1.
Proof.
  destruct w as [[p o] d], w' as [[p' o'] d']. intros H.
  apply FilterSample_inv in H as (?&?&?&?&_&_&_&_&_&_&_&_&_&H). simpl. congruence.
Qed.

Lemma FilterSegment_set_mode cfg in_data m w :
  mode w.1.1 ≠ kPitchFilterPreGain → m ≠ kPitchFilterPreGain →
  FilterSegment cfg in_data (work_mode m w) = work_mode m <$> FilterSegment cfg in_data w.
Proof.
  intros Hp Hm. unfold FilterSegment, FilterSegment_upto. simpl.
  apply (for_up_sim (work_mode m) (λ w, mode w.1.1 ≠ kPitchFilterPreGain)); [| |done].
  - intros i s Hs. by apply FilterSample_set_mode.
  - intros i s s' Hs H. apply FilterSample_mode in H. congruence.
Qed.

Lemma Update_set_mode cfg m p :
  mode p ≠ kPitchFilterPreGain → m ≠ kPitchFilterPreGain →
  Update cfg (set_mode p m) = (λ p, set_mode p m) <$> Update cfg p.
Proof.
  intros Hp Hm. unfold Update. simpl.
  destruct (aget kIntrpCoef _); simpl; [|done].
  by rewrite !decide_False by done.
Qed.

Lemma frame_granule_set_mode cfg in_data gd ld m w :
  mode w.1.1 ≠ kPitchFilterPreGain → m ≠ kPitchFilterPreGain →
  frame_granule cfg in_data gd ld (work_mode m w)
  = work_mode m <$> frame_granule cfg in_data gd ld w.
Proof.
  destruct w as [[p o] d]. intros Hp Hm. unfold frame_granule, work_mode. simpl.
  change (set_lag (set_gain (set_mode p m) ?g) ?l)
    with (set_mode (set_lag (set_gain p g) l) m).
  rewrite Update_set_mode by done.
  destruct (Update cfg _) as [p1|] eqn:E; simpl; [|done].
  apply (FilterSegment_set_mode cfg in_data m (p1, o, d)); [|done]. simpl.
  apply Update_inv in E as (_ & _ & E & _). unfold upd_fixed in E. simpl in *. congruence.
Qed.

Lemma frame_granule_mode cfg in_data gd ld w w' :
  frame_granule cfg in_data gd ld w = Some w' → mode w'.1.1 = mode w.1.1.
Proof.
  destruct w as [[p o] d], w' as [[p' o'] d']. intros H.
  apply frame_granule_inv in H as (p1 & Hu & Hs).
  apply Update_inv in Hu as (_ & _ & Hu & _). apply FilterSegment_fixed in Hs.
  unfold upd_fixed, seg_fixed in *. simpl in *. congruence.
Qed.

Lemma frame_sub_frame_set_mode cfg in_data lags gains m i s :
  mode s.2.1.1 ≠ kPitchFilterPreGain → m ≠ kPitchFilterPreGain →
  frame_sub_frame cfg in_data lags gains i (frame_mode m s)
  = frame_mode m <$> frame_sub_frame cfg in_data lags gains i s.
Proof.
  destruct s as [[ol og] [[p o] d]]. intros Hp Hm.
  unfold frame_sub_frame, frame_mode, work_mode. simpl.
  destruct (aget lags i) as [lag_m|]; simpl; [|done].
  destruct (aget gains i) as [gain_m|]; simpl; [|done].
  change (set_gain (set_lag (set_sub_frame (set_mode p m) i) ol) og, o, d)
    with (work_mode m (set_gain (set_lag (set_sub_frame p i) ol) og, o, d)).
  set (gd := ((gain_m - og) / of_int (PITCH_GRAN_PER_SUBFRAME cfg))%float).
  set (ld := ((lag_m - ol) / of_int (PITCH_GRAN_PER_SUBFRAME cfg))%float).
  rewrite (for_up_sim (work_mode m) (λ w, mode w.1.1 ≠ kPitchFilterPreGain)
             (λ _ w, frame_granule cfg in_data gd ld w)
             (λ _ w, frame_granule cfg in_data gd ld w)); [| | |done].
  - by destruct (for_up _ _ _ _).
  - intros _ w Hw. by apply frame_granule_set_mode.
  - intros _ w w' Hw H. apply frame_granule_mode in H. congruence.
Qed.

Lemma frame_sub_frame_mode cfg in_data lags gains i s s' :
  frame_sub_frame cfg in_data lags gains i s = Some s' → mode s'.2.1.1 = mode s.2.1.1.
Proof.
  destruct s as [[ol og] [[p o] d]]. intros H.
  apply frame_sub_frame_inv in H as (lag_m & gain_m & w' & _ & _ & H & ->). simpl.
  destruct (decide (0 ≤ PITCH_GRAN_PER_SUBFRAME cfg)).
  - apply (for_up_inv (λ _ (w : Work), mode w.1.1 = mode p) _ _ _ _ _ H); [done..|].
    intros _ w1 w2 _ Hw Hg. apply frame_granule_mode in Hg. congruence.
  - rewrite for_up_nil in H by lia. by simplify_eq.
Qed.

Lemma sub_frames_set_mode cfg in_data lags gains m s :
  mode s.2.1.1 ≠ kPitchFilterPreGain → m ≠ kPitchFilterPreGain →
  for_up (frame_sub_frame cfg in_data lags gains) 0 PITCH_SUBFRAMES (frame_mode m s)
  = frame_mode m <$> for_up (frame_sub_frame cfg in_data lags gains) 0 PITCH_SUBFRAMES s.
Proof.
  intros Hs Hm.
  apply (for_up_sim (frame_mode m) (λ s, mode s.2.1.1 ≠ kPitchFilterPreGain)); [| |done].
  - intros i t Ht. by apply frame_sub_frame_set_mode.
  - intros i t t' Ht H. apply frame_sub_frame_mode in H. congruence.
Qed.

(** Up to the mode field, a pre-filter frame with lookahead runs as one
    without. *)
Lemma frame_filter_PreLa cfg in_data st lags gains out dg :
  frame_filter cfg in_data st lags gains kPitchFilterPreLa out dg
  = (λ gs, (gs.1, frame_mode kPitchFilterPreLa gs.2)) <$>
      frame_filter cfg in_data st lags gains kPitchFilterPre out dg.
Proof.
  unfold frame_filter. case_guard; simpl; [|done].
  unfold frame_mode_setup. simpl.
  unfold frame_anchors. simpl.
  destruct (aget lags 0) as [lag0|]; simpl; [|done].
  destruct (_ || _).
  - destruct (aget gains 0) as [g0|]; simpl; [|done].
    pose proof (sub_frames_set_mode cfg in_data lags gains kPitchFilterPreLa
      (lag0, g0, (set_num_samples (frame_init cfg st kPitchFilterPre) (PITCH_UPDATE cfg),
                  out, dg))) as Hsim.
    unfold frame_mode, work_mode in Hsim. simpl in Hsim. 
    change (set_mode (set_num_samples (frame_init cfg st kPitchFilterPre) ?u) kPitchFilterPreLa)
      with (set_num_samples (frame_init cfg st kPitchFilterPreLa) u) in Hsim.
    etrans; [exact (f_equal (λ x, x ≫= (λ s, Some (gains, s)))
                      (Hsim ltac:(done) ltac:(done)))|].
    clear Hsim. destruct (for_up _ _ _ _) as [[[? ?] [[? ?] ?]]|]; reflexivity.
  - simpl.
    pose proof (sub_frames_set_mode cfg in_data lags gains kPitchFilterPreLa
      (oldlagp st, oldgainp st,
       (set_num_samples (frame_init cfg st kPitchFilterPre) (PITCH_UPDATE cfg),
        out, dg))) as Hsim.
    unfold frame_mode, work_mode in Hsim. simpl in Hsim. 
    change (set_mode (set_num_samples (frame_init cfg st kPitchFilterPre) ?u) kPitchFilterPreLa)
      with (set_num_samples (frame_init cfg st kPitchFilterPreLa) u) in Hsim.
    etrans; [exact (f_equal (λ x, x ≫= (λ s, Some (gains, s)))
                      (Hsim ltac:(done) ltac:(done)))|].
    clear Hsim. destruct (for_up _ _ _ _) as [[[? ?] [[? ?] ?]]|]; reflexivity.
Qed.

Lemma FilterSegment_index cfg in_data p o d p' o' d' :
  FilterSegment cfg in_data (p, o, d) = Some (p', o', d') →
  index p' = index p + Z.max 0 (num_samples p) ∧
  ∀ j, j < index p → aget o' j = aget o j.
Proof.
  unfold FilterSegment. simpl. intros H.
  destruct (decide (0 ≤ num_samples p)).
  - apply FilterSegment_upto_inv in H as (? & _ & _ & _ & Ho & _); [|done].
    split; [lia|]. intros j Hj. apply Ho. lia.
  - unfold FilterSegment_upto in H. rewrite for_up_nil in H by lia. simplify_eq.
    split; [lia|done].
Qed.

Lemma frame_granule_index cfg in_data gd ld w w' :
  frame_granule cfg in_data gd ld w = Some w' →
  index w'.1.1 = index w.1.1 + Z.max 0 (num_samples w.1.1) ∧
  num_samples w'.1.1 = num_samples w.1.1.
Proof.
  destruct w as [[p o] d], w' as [[p' o'] d']. intros H.
  apply frame_granule_inv in H as (p1 & Hu & Hs).
  apply Update_inv in Hu as (_ & _ & Hu & _).
  pose proof (FilterSegment_fixed _ _ _ _ _ _ _ _ Hs) as Hf.
  apply FilterSegment_index in Hs as [Hi _].
  unfold upd_fixed, seg_fixed in *. simpl in *.
  injection Hu as _ _ _ _ _ _ Hn1 Hi1 _. injection Hf as _ _ _ _ _ _ Hn2 _.
  lia.
Qed.

Lemma sub_frames_index cfg in_data lags gains s s' :
  for_up (frame_sub_frame cfg in_data lags gains) 0 PITCH_SUBFRAMES s = Some s' →
  index s'.2.1.1 = index s.2.1.1 +
    PITCH_SUBFRAMES *
    (Z.max 0 (PITCH_GRAN_PER_SUBFRAME cfg) * Z.max 0 (num_samples s.2.1.1)).
Proof.
  intros H. assert (0 ≤ PITCH_SUBFRAMES) as H4 by done.
  apply (for_up_inv
           (λ m (t : float * float * Work),
              index t.2.1.1 = index s.2.1.1 +
                m * (Z.max 0 (PITCH_GRAN_PER_SUBFRAME cfg)
                     * Z.max 0 (num_samples s.2.1.1)) ∧
              num_samples t.2.1.1 = num_samples s.2.1.1) _ _ _ _ _ H) in H4
    as [? _]; [done|split; [lia|done]|].
  clear H. intros m [[ol og] [[p o] d]] t' Hm [Hidx Hns] Hb. simpl in *.
  apply frame_sub_frame_inv in Hb as (lag_m & gain_m & v' & _ & _ & Hb & ->). simpl.
  destruct (decide (0 ≤ PITCH_GRAN_PER_SUBFRAME cfg)) as [Hn|Hn].
  - pose proof Hn as Hn'.
    apply (for_up_inv
             (λ i (v : Work),
                index v.1.1 = index p + i * Z.max 0 (num_samples p) ∧
                num_samples v.1.1 = num_samples p) _ _ _ _ _ Hb) in Hn
      as [Hv' Hvn']; [| |].
    + simpl in Hv'. rewrite (Z.max_r 0 (PITCH_GRAN_PER_SUBFRAME cfg)) by done.
      rewrite <- Hns. split; [nia|congruence].
    + simpl. split; [lia|done].
    + intros i v v2 Hi [Hv Hvn] Hg. apply frame_granule_index in Hg as [Hv2 Hvn2].
      rewrite Hvn in Hv2. split; [nia|congruence].
  - rewrite for_up_nil in Hb by lia. simplify_eq. simpl. split; [lia|done].
Qed.

Lemma frame_export_set_mode cfg st ol og p m :
  mode p ≠ kPitchFilterPreGain → m ≠ kPitchFilterPreGain →
  frame_export cfg st ol og (set_mode p m) = frame_export cfg st ol og p.
Proof. intros Hp Hm. unfold frame_export. simpl. by rewrite !decide_True. Qed.

(** C5, amended: in pre-with-lookahead mode the commit to the persistent
    state comes before the lookahead segment is filtered, as in the C source.
    The state (buffer tail, damper memory, last lag and gain) is exported
    from the work [w] that the sub-frame loop leaves; it is, like the gains
    and the output of the frame's own samples, what a plain pre-filter call
    on the same arguments gives.  The lookahead segment is then filtered as
    part of the last sub-frame, from that work and on the output of the
    frame: it decides the output of the call beyond the frame, and nothing of
    the state. *)
Theorem PitchfilterPre_la_state cfg in_data out_data pf_state lags gains r :
  WebRtcIsac_PitchfilterPre_la cfg in_data out_data pf_state lags gains = Some r →
  ∃ r0 ol og w p2,
    WebRtcIsac_PitchfilterPre cfg in_data out_data pf_state lags gains = Some r0 ∧
    r_state r = r_state r0 ∧
    r_gains r = r_gains r0 ∧
    (∀ i, i < frame_samples cfg → aget (r_out_data r) i = aget (r_out_data r0) i) ∧
    frame_filter cfg in_data pf_state lags gains kPitchFilterPreLa out_data []
      = Some (r_gains r, (ol, og, w)) ∧
    w.1.2 = r_out_data r0 ∧
    index w.1.1 = frame_samples cfg ∧
    frame_export cfg pf_state ol og w.1.1 = Some (r_state r) ∧
    FilterSegment cfg in_data
      (set_num_samples (set_sub_frame w.1.1 (PITCH_SUBFRAMES - 1)) (QLOOKAHEAD cfg),
       w.1.2, w.2)
      = Some (p2, r_out_data r, r_out_dg r).
Proof.
  unfold WebRtcIsac_PitchfilterPre_la, WebRtcIsac_PitchfilterPre, FilterFrame.
  pose proof (frame_filter_PreLa cfg in_data pf_state lags gains out_data []) as Ela.
  rewrite Ela. intros H.
  destruct (frame_filter cfg in_data pf_state lags gains kPitchFilterPre out_data [])
    as [[gains' [[ol og] [[p o] d]]]|] eqn:E; simpl in *; [|done].
  assert (mode p = kPitchFilterPre ∧ index p = frame_samples cfg) as [Hmode Hidx].
  { apply frame_filter_inv in E as (p0 & dg0 & ol0 & og0 & p1 & Hset & Hanc & Hloop).
    apply frame_mode_setup_inv in Hset as (_ & _ & _ & _ & Hp0 & _).
    destruct Hp0 as [-> ->]; [done|].
    apply frame_anchors_inv in Hanc as (lag0 & _ & Hanc).
    assert (p1 = frame_init cfg pf_state kPitchFilterPre) as ->.
    { destruct (lag_jump _ _ _); [by destruct Hanc as (_ & _ & ?)|by destruct Hanc as (_ & _ & ?)]. }
    split.
    - by apply sub_frames_mode in Hloop.
    - by apply sub_frames_index in Hloop. }
  pose proof (frame_export_set_mode cfg pf_state ol og p kPitchFilterPreLa) as Eexp.
  destruct (frame_export cfg pf_state ol og (set_mode p kPitchFilterPreLa)) as [st'|] eqn:Ee;
    simpl in H; [|done].
  rewrite <- Eexp by (done || by rewrite Hmode). simpl.
  unfold frame_lookahead in *. simpl in H. rewrite Hmode. simpl.
  destruct (FilterSegment _ _ _) as [[[p2 o2] d2]|] eqn:Es; simpl in H; [|done].
  simplify_eq. eexists _, ol, og, (set_mode p kPitchFilterPreLa, o, d), p2.
  split; [done|]. simpl. split_and!; try done.
  intros i Hi. apply FilterSegment_index in Es as [_ Ho]. apply Ho. simpl. lia.
Qed.

Lemma PitchfilterPre_la_state_witness :
  ∃ r,
    WebRtcIsac_PitchfilterPre_la ex_cfg (ex_signal 264) (replicate 264 0%float)
      ex_state ex_lags ex_gains = Some r ∧
    ∃ r0 ol og w p2,
      WebRtcIsac_PitchfilterPre ex_cfg (ex_signal 264) (replicate 264 0%float)
        ex_state ex_lags ex_gains = Some r0 ∧
      r_state r = r_state r0 ∧
      r_gains r = r_gains r0 ∧
      (∀ i, i < frame_samples ex_cfg → aget (r_out_data r) i = aget (r_out_data r0) i) ∧
      frame_filter ex_cfg (ex_signal 264) ex_state ex_lags ex_gains kPitchFilterPreLa
        (replicate 264 0%float) [] = Some (r_gains r, (ol, og, w)) ∧
      w.1.2 = r_out_data r0 ∧
      index w.1.1 = frame_samples ex_cfg ∧
      frame_export ex_cfg ex_state ol og w.1.1 = Some (r_state r) ∧
      FilterSegment ex_cfg (ex_signal 264)
        (set_num_samples (set_sub_frame w.1.1 (PITCH_SUBFRAMES - 1)) (QLOOKAHEAD ex_cfg),
         w.1.2, w.2)
        = Some (p2, r_out_data r, r_out_dg r).
Proof.
  eexists. split; [vm_compute; reflexivity|].
  apply (PitchfilterPre_la_state ex_cfg (ex_signal 264) (replicate 264 0%float)
           ex_state ex_lags ex_gains).
  vm_compute. reflexivity.
Defined.

(** The lookahead shows in the output: from sample 240 on the call with
    lookahead has written, where the plain pre-filter call has left the
    caller's zeros. *)
Example lookahead_output :
  let out md :=
    r ← FilterFrame ex_cfg (ex_signal 264) ex_state ex_lags ex_gains md
           (replicate 264 0%float) [];
    Some (probe (aget (r_out_data r) 239), probe (aget (r_out_data r) 240)) in
  is_Some (out kPitchFilterPreLa) ∧
  fst <$> out kPitchFilterPreLa = fst <$> out kPitchFilterPre ∧
  snd <$> out kPitchFilterPre = Some (Some (S754_zero false)) ∧
  snd <$> out kPitchFilterPreLa ≠ snd <$> out kPitchFilterPre.
Proof. vm_compute. split_and!; [by eexists|done|done|discriminate]. Qed.

(** The claim C5 as the spec states it fails: the state that [FilterFrame]
    commits differs from the one that the order of the spec's steps 6 and 7
    would commit (the damper memory after the lookahead segment). *)
Lemma PitchfilterPre_la_state_lookahead_first :
  ¬ (∀ in_data out_data pf_state lags gains,
       r_state <$> FilterFrame ex_cfg in_data pf_state lags gains kPitchFilterPreLa
                     out_data []
       = r_state <$> FilterFrame_lookahead_first ex_cfg in_data pf_state lags gains
                       kPitchFilterPreLa out_data []).
Proof.
  intros H.
  specialize (H (ex_signal 264) (replicate 264 0%float) ex_state ex_lags ex_gains).
  apply (f_equal (λ o, probe (st ← o; ystate st !! 0%nat))) in H.
  vm_compute in H. discriminate H.
Qed.

(** ** The bounds of a segment *)

Lemma for_up_total {S} (P : Z → S → Prop) (body : Z → S → option S) lo hi s :
  lo ≤ hi → P lo s →
  (∀ i t, lo ≤ i < hi → P i t → ∃ t', body i t = Some t' ∧ P (i + 1) t') →
  ∃ s', for_up body lo hi s = Some s' ∧ P hi s'.
Proof.
  unfold for_up. intros Hle H0 Hstep.
  remember (Z.to_nat (hi - lo)) as k eqn:Hk.
  revert lo s Hle H0 Hstep Hk.
  induction k as [|k IH]; intros lo s Hle H0 Hstep Hk; simpl.
  - exists s. split; [done|]. by replace hi with lo by lia.
  - destruct (Hstep lo s) as (t' & -> & Ht'); [lia|done|]. simpl.
    apply IH; [lia|done| |lia]. intros i t ?. apply Hstep. lia.
Qed.

(** A loop that finishes has run each of its turns from a state that the
    invariant describes. *)
Lemma for_up_at {S} (P : Z → S → Prop) (body : Z → S → option S) lo hi s s' i :
  for_up body lo hi s = Some s' → lo ≤ i < hi →
  P lo s →
  (∀ j t t', lo ≤ j < hi → P j t → body j t = Some t' → P (j + 1) t') →
  ∃ t t', P i t ∧ body i t = Some t'.
Proof.
  intros H Hi H0 Hstep.
  apply (for_up_split _ _ _ i) in H as (t & Hpre & Hrest); [|lia].
  apply for_up_step in Hrest as (t' & Hb & _); [|lia].
  exists t, t'. split; [|done].
  apply (for_up_inv P _ _ _ _ _ Hpre); [lia|done|].
  intros j u u' Hj. apply Hstep. lia.
Qed.

Lemma for_up_ext {S} (body1 body2 : Z → S → option S) lo hi s :
  (∀ i t, lo ≤ i < hi → body1 i t = body2 i t) →
  for_up body1 lo hi s = for_up body2 lo hi s.
Proof.
  unfold for_up. intros Hext.
  remember (Z.to_nat (hi - lo)) as k eqn:Hk.
  revert lo s Hext Hk. induction k as [|k IH]; intros lo s Hext Hk; simpl; [done|].
  rewrite Hext by lia. destruct (body2 lo s) as [s1|]; simpl; [|done].
  apply IH; [|lia]. intros i t ?. apply Hext. lia.
Qed.

Lemma shift_damper_total d :
  PITCH_DAMPORDER ≤ Z.of_nat (length d) → ∃ d', shift_damper d = Some d'.
Proof.
  destruct d as [|d0 [|d1 [|d2 [|d3 [|d4 d]]]]]; simpl; try (unfold PITCH_DAMPORDER; lia).
  intros _. eexists. cbv. reflexivity.
Qed.

Lemma damp_total d :
  PITCH_DAMPORDER ≤ Z.of_nat (length d) → ∃ s, damp d = Some s.
Proof.
  destruct d as [|d0 [|d1 [|d2 [|d3 [|d4 d]]]]]; simpl; try (unfold PITCH_DAMPORDER; lia).
  intros _. eexists. vm_compute. reflexivity.
Qed.

Lemma fractional_pitch_total buf coeff pl :
  PITCH_FRACORDER ≤ Z.of_nat (length coeff) →
  0 ≤ pl → pl + PITCH_FRACORDER ≤ Z.of_nat (length buf) →
  ∃ s, fractional_pitch buf coeff pl = Some s.
Proof.
  intros Hc Hpl Hb. unfold fractional_pitch.
  destruct (for_up_total (λ _ _, True)
              (λ m sum, b ← aget buf (pl + m); c ← aget coeff m; Some (sum + b * c)%float)
              0 PITCH_FRACORDER 0%float) as (s & Hs & _); [done|done| |by eauto].
  intros i t Hi _.
  destruct (aget_is_Some buf (pl + i)) as [b ->]; [lia|].
  destruct (aget_is_Some coeff i) as [c ->]; [lia|]. simpl. eauto.
Qed.

Lemma fractional_pitch_bounds buf coeff pl s :
  fractional_pitch buf coeff pl = Some s →
  PITCH_FRACORDER ≤ Z.of_nat (length coeff) ∧
  0 ≤ pl ∧ pl + PITCH_FRACORDER ≤ Z.of_nat (length buf).
Proof.
  unfold fractional_pitch. intros H.
  pose proof H as H'.
  apply for_up_step in H as (s1 & H0 & _); [|done].
  apply (for_up_split _ _ _ (PITCH_FRACORDER - 1)) in H' as (s8 & _ & H8); [|done].
  apply for_up_step in H8 as (s9 & H8 & _); [|done].
  bind_inv H0. bind_inv H8.
  repeat match goal with H : aget _ _ = Some _ |- _ => apply aget_Some in H as [? _] end.
  unfold PITCH_FRACORDER in *. lia.
Qed.

Lemma FilterSample_total in_data pos pl p o d :
  mode p ≠ kPitchFilterPreGain →
  PITCH_DAMPORDER ≤ Z.of_nat (length (damper_state p)) →
  PITCH_FRACORDER ≤ Z.of_nat (length (interpol_coeff p)) →
  0 ≤ pl → pl + PITCH_FRACORDER ≤ Z.of_nat (length (buffer p)) →
  0 ≤ index p < Z.of_nat (length in_data) →
  index p < Z.of_nat (length o) →
  0 ≤ pos < Z.of_nat (length (buffer p)) →
  ∃ w', FilterSample in_data pos pl (p, o, d) = Some w'.
Proof.
  intros Hm Hd Hc Hpl Hpl' Hi Ho Hpos. unfold FilterSample.
  destruct (shift_damper_total _ Hd) as [d1 Hd1]. rewrite Hd1. simpl.
  destruct (fractional_pitch_total (buffer p) (interpol_coeff p) pl) as [s ->]; [done..|].
  simpl.
  assert (length d1 = length (damper_state p)) as Hl1.
  { apply shift_damper_Some in Hd1 as (?&?&?&?&?&?&->&->). done. }
  destruct (aset_is_Some d1 0 (gain p * s)%float) as [d2 Hd2]; [unfold PITCH_DAMPORDER in *; lia|].
  rewrite Hd2. simpl. rewrite decide_False by done. simpl.
  destruct (damp_total d2) as [dv ->]; [apply aset_length in Hd2; lia|]. simpl.
  destruct (aget_is_Some in_data (index p)) as [x ->]; [lia|]. simpl.
  destruct (aset_is_Some o (index p) (x - dv)%float) as [o' Ho']; [lia|].
  rewrite Ho'. simpl. rewrite (aget_aset_eq _ _ _ _ Ho'). simpl.
  destruct (aset_is_Some (buffer p) pos (x + (x - dv))%float) as [b' ->]; [lia|].
  simpl. eauto.
Qed.

Lemma FilterSample_bounds in_data pos pl p o d w' :
  FilterSample in_data pos pl (p, o, d) = Some w' →
  PITCH_DAMPORDER ≤ Z.of_nat (length (damper_state p)) ∧
  PITCH_FRACORDER ≤ Z.of_nat (length (interpol_coeff p)) ∧
  0 ≤ pl ∧ pl + PITCH_FRACORDER ≤ Z.of_nat (length (buffer p)) ∧
  0 ≤ index p < Z.of_nat (length in_data) ∧
  index p < Z.of_nat (length o) ∧
  0 ≤ pos < Z.of_nat (length (buffer p)).
Proof.
  destruct w' as [[p' o'] d']. intros H.
  apply FilterSample_inv in H
    as (ds & sum & x & damped & Hsh & Hsum & Hd0 & Hdamp & Hx & Hout & Hbuf & _).
  apply fractional_pitch_bounds in Hsum as (? & ? & ?).
  apply shift_damper_Some in Hsh as (?&?&?&?&?&?&E&_).
  apply aget_Some in Hx as [? _]. apply aset_Some in Hout as [? _].
  apply aset_Some in Hbuf as [? _].
  rewrite E. simpl. unfold PITCH_DAMPORDER. split_and!; lia.
Qed.

Lemma FilterSample_lengths in_data pos pl p o d p' o' d' :
  FilterSample in_data pos pl (p, o, d) = Some (p', o', d') →
  length (damper_state p') = length (damper_state p) ∧
  length (buffer p') = length (buffer p) ∧
  length o' = length o.
Proof.
  intros H.
  apply FilterSample_inv in H
    as (ds & sum & x & damped & Hsh & _ & Hd0 & _ & _ & Hout & Hbuf & _).
  apply shift_damper_Some in Hsh as (?&?&?&?&?&?&->&->).
  apply aset_length in Hd0, Hout, Hbuf. simpl in *. split_and!; congruence.
Qed.

Lemma FilterSegment_bounds cfg in_data p o d w' :
  0 < num_samples p →
  FilterSegment cfg in_data (p, o, d) = Some w' →
  segment_in_bounds cfg in_data p o.
Proof.
  intros Hn H. unfold FilterSegment, FilterSegment_upto, segment_in_bounds in *.
  simpl in *. pose proof H as H'.
  apply for_up_step in H as ([[p1 o1] d1] & H0 & _); [|done].
  apply FilterSample_bounds in H0 as (? & ? & ? & ? & ? & ? & ?).
  apply (for_up_split _ _ _ (num_samples p - 1)) in H' as ([[q oq] dq] & Hq & Hl); [|lia].
  apply for_up_step in Hl as (wl & Hl & _); [|lia].
  apply (sample_loop_inv _ (index p)) in Hq as (Hidx & _ & Hlo & Hlb & _); [|lia..].
  apply FilterSample_bounds in Hl as (_ & _ & _ & ? & ? & ? & ?).
  rewrite Hidx, ?Hlo, ?Hlb in *. split_and!; lia.
Qed.

Lemma FilterSegment_total cfg in_data p o d :
  mode p ≠ kPitchFilterPreGain → 0 < num_samples p →
  segment_in_bounds cfg in_data p o →
  ∃ w', FilterSegment cfg in_data (p, o, d) = Some w'.
Proof.
  intros Hm Hn (Hd & Hc & Hi & Hin & Ho & Hpos & Hposn & Hpl & Hpln).
  unfold FilterSegment, FilterSegment_upto. simpl.
  destruct (for_up_total
    (λ i (w : Work),
       mode w.1.1 = mode p ∧ index w.1.1 = index p + i ∧
       interpol_coeff w.1.1 = interpol_coeff p ∧
       length (damper_state w.1.1) = length (damper_state p) ∧
       length (buffer w.1.1) = length (buffer p) ∧
       length w.1.2 = length o)
    (λ n w, FilterSample in_data (index p + PITCH_BUFFSIZE cfg + n)
              (index p + PITCH_BUFFSIZE cfg - lag_offset p + n) w)
    0 (num_samples p) (p, o, d)) as (w' & Hw' & _); [lia| | |by eauto].
  - simpl. split_and!; [done|lia|done..].
  - intros i [[q oq] dq] Hi' (Hmq & Hiq & Hcq & Hdq & Hbq & Hoq). simpl in *.
    destruct (FilterSample_total in_data (index p + PITCH_BUFFSIZE cfg + i)
                (index p + PITCH_BUFFSIZE cfg - lag_offset p + i) q oq dq)
      as [[[q' oq'] dq'] Hs]; try lia; try congruence.
    exists (q', oq', dq'). split; [done|].
    pose proof (FilterSample_lengths _ _ _ _ _ _ _ _ _ Hs) as (? & ? & ?).
    apply FilterSample_inv in Hs as (?&?&?&?&_&_&_&_&_&_&_&Hidx&_&Hfix).
    simpl. split_and!; try congruence. lia.
Qed.

(** X1: outside a gain search, a segment of at least one sample has a
    result exactly when its accesses are in bounds: the damper state has its
    five slots and the coefficient row its nine entries, the samples
    [index .. index + num_samples) exist in the input and in the output, the
    buffer positions [index + PITCH_BUFFSIZE ..] that are written exist, and
    so do the nine buffer entries that each sample reads from
    [index + PITCH_BUFFSIZE - lag_offset] on.  Nothing in [FilterSegment]
    checks any of this. *)
Theorem FilterSegment_in_bounds cfg in_data p o d :
  mode p ≠ kPitchFilterPreGain → 0 < num_samples p →
  is_Some (FilterSegment cfg in_data (p, o, d)) ↔ segment_in_bounds cfg in_data p o.
Proof.
  intros Hm Hn. split.
  - intros [w H]. by eapply FilterSegment_bounds.
  - intros Hb. destruct (FilterSegment_total cfg in_data p o d) as [w Hw]; [done..|].
    by exists w.
Qed.

Lemma FilterSegment_in_bounds_witness :
  mode ex_param ≠ kPitchFilterPreGain ∧ 0 < num_samples ex_param ∧
  is_Some (FilterSegment ex_cfg (ex_signal 12) (ex_param, replicate 12 0%float, [])) ∧
  segment_in_bounds ex_cfg (ex_signal 12) ex_param (replicate 12 0%float).
Proof.
  assert (is_Some (FilterSegment ex_cfg (ex_signal 12) (ex_param, replicate 12 0%float, [])))
    as H by (eexists; vm_compute; reflexivity).
  split; [done|]. split; [done|]. split; [done|].
  by apply (FilterSegment_in_bounds ex_cfg (ex_signal 12) ex_param (replicate 12 0%float) []).
Defined.

(** X2: a segment writes its own samples and nothing else.  The index
    advances by the number of samples (by nothing when [num_samples] is not
    positive); the output and the buffer keep their sizes, the output
    changes inside [index .. index + n) only and the buffer inside
    [index + PITCH_BUFFSIZE ..] of the same length only; the gain, the lag,
    the lag offset, the coefficients, the sub-frame, the mode, the sample
    count and the gain multipliers stay as they are, and outside a gain
    search so do the trial outputs and their damper states. *)
Theorem FilterSegment_window cfg in_data p out dg p' out' dg' :
  FilterSegment cfg in_data (p, out, dg) = Some (p', out', dg') →
  let n := Z.max 0 (num_samples p) in
  index p' = index p + n ∧
  seg_fixed p' = seg_fixed p ∧
  length out' = length out ∧
  length (buffer p') = length (buffer p) ∧
  (∀ j, j < index p ∨ index p + n ≤ j → aget out' j = aget out j) ∧
  (∀ j, j < index p + PITCH_BUFFSIZE cfg ∨ index p + PITCH_BUFFSIZE cfg + n ≤ j →
        aget (buffer p') j = aget (buffer p) j) ∧
  (mode p ≠ kPitchFilterPreGain → dg' = dg ∧ damper_state_dg p' = damper_state_dg p).
Proof.
  intros H n. pose proof H as H'. unfold FilterSegment in H. simpl in H.
  destruct (decide (0 ≤ num_samples p)) as [Hn|Hn].
  - apply FilterSegment_upto_inv in H as (? & ? & ? & ? & ? & ?); [|done].
    unfold n. rewrite Z.max_r by done. split_and!; try done.
    intros Hm. unfold FilterSegment, FilterSegment_upto in H'. simpl in H'.
    destruct (for_up_inv (λ _ (v : Work), mode v.1.1 = mode p ∧ v.2 = dg ∧
                                           damper_state_dg v.1.1 = damper_state_dg p)
                _ _ _ _ _ H' Hn) as (_ & ? & ?); [done| |done].
    intros i [[q oq] dq] [[q' oq'] dq'] _ (Hq & Hd & Hdd) Hs. simpl in *. subst dq.
    apply FilterSample_inv in Hs as (?&?&?&?&_&_&_&_&_&_&_&_&Hdg&Hfix).
    destruct Hdg as [-> ->]; [congruence|]. split_and!; congruence.
  - unfold FilterSegment_upto in H. rewrite for_up_nil in H by lia. simplify_eq.
    unfold n. rewrite Z.max_l by lia. split_and!; try done. lia.
Qed.

Lemma FilterSegment_window_witness :
  ∃ p' out' dg',
    FilterSegment ex_cfg (ex_signal 12) (ex_param, replicate 12 0%float, []) = Some (p', out', dg') ∧
    let n := Z.max 0 (num_samples ex_param) in
    index p' = index ex_param + n ∧
    seg_fixed p' = seg_fixed ex_param ∧
    length out' = length (replicate 12 0%float) ∧
    length (buffer p') = length (buffer ex_param) ∧
    (∀ j, j < index ex_param ∨ index ex_param + n ≤ j →
          aget out' j = aget (replicate 12 0%float) j) ∧
    (∀ j, j < index ex_param + PITCH_BUFFSIZE ex_cfg
          ∨ index ex_param + PITCH_BUFFSIZE ex_cfg + n ≤ j →
          aget (buffer p') j = aget (buffer ex_param) j) ∧
    (mode ex_param ≠ kPitchFilterPreGain →
     dg' = [] ∧ damper_state_dg p' = damper_state_dg ex_param).
Proof.
  eexists _, _, _. split; [vm_compute; reflexivity|].
  apply (FilterSegment_window ex_cfg (ex_signal 12) ex_param (replicate 12 0%float) []).
  vm_compute. reflexivity.
Defined.

Lemma aget_drop {A} (l : list A) pl m :
  0 ≤ pl → 0 ≤ m → aget (drop (Z.to_nat pl) l) m = aget l (pl + m).
Proof.
  intros Hpl Hm. unfold aget. rewrite !decide_True by lia.
  rewrite lookup_drop. f_equal. lia.
Qed.

(** The fractional-pitch sum is the inner product of nine buffer entries
    with the coefficients. *)
Lemma fractional_pitch_inner_product buf coeff pl s :
  fractional_pitch buf coeff pl = Some s →
  s = inner_product
        (take (Z.to_nat PITCH_FRACORDER) (drop (Z.to_nat pl) buf)) coeff.
Proof.
  intros H. pose proof (fractional_pitch_bounds _ _ _ _ H) as (Hc & Hpl & Hb).
  assert (fractional_pitch (drop (Z.to_nat pl) buf) coeff 0 = Some s) as H'.
  { rewrite <- H. unfold fractional_pitch. apply for_up_ext. intros i t Hi.
    rewrite aget_drop by lia. done. }
  clear H. assert (PITCH_FRACORDER ≤ Z.of_nat (length (drop (Z.to_nat pl) buf))) as Hl.
  { rewrite length_drop. lia. }
  destruct (drop (Z.to_nat pl) buf) as [|b0 [|b1 [|b2 [|b3 [|b4 [|b5 [|b6 [|b7 [|b8 l]]]]]]]]];
    try (simpl in Hl; unfold PITCH_FRACORDER in Hl; lia).
  destruct coeff as [|c0 [|c1 [|c2 [|c3 [|c4 [|c5 [|c6 [|c7 [|c8 c]]]]]]]]];
    try (simpl in Hc; unfold PITCH_FRACORDER in Hc; lia).
  cbv in H'. simplify_eq. reflexivity.
Qed.

(** X3: the damper state is a delay line.  Sample [n] of a segment pushes
    the gain times the fractional-pitch sum into slot 0 and moves the slots
    0..3 up by one, dropping slot 4; the sum is the inner product of the
    coefficient row with the nine buffer entries from
    [index + PITCH_BUFFSIZE - lag_offset + n] on, the buffer being as the
    samples before [n] have left it. *)
Theorem FilterSegment_delay_line cfg in_data p out dg w' n :
  FilterSegment cfg in_data (p, out, dg) = Some w' →
  0 ≤ n < num_samples p →
  ∃ wn wn1,
    FilterSegment_upto cfg in_data (p, out, dg) n = Some wn ∧
    FilterSegment_upto cfg in_data (p, out, dg) (n + 1) = Some wn1 ∧
    let pos_lag := index p + PITCH_BUFFSIZE cfg - lag_offset p + n in
    let sum :=
      inner_product
        (take (Z.to_nat PITCH_FRACORDER) (drop (Z.to_nat pos_lag) (buffer wn.1.1)))
        (interpol_coeff p) in
    damper_state wn1.1.1 =
      (gain p * sum)%float :: take 4 (damper_state wn.1.1) ++ drop 5 (damper_state wn.1.1).
Proof.
  unfold FilterSegment, FilterSegment_upto. simpl. intros H Hn.
  apply (for_up_split _ _ _ (n + 1)) in H as (wn1 & Hpre & _); [|lia].
  pose proof Hpre as Hpre'.
  apply (for_up_split _ _ _ n) in Hpre as ([[q o] g] & Hq & Hstep); [|lia].
  apply for_up_step in Hstep as (w1 & Hs & Hnil); [|lia].
  rewrite for_up_nil in Hnil by lia. simplify_eq.
  exists (q, o, g), wn1. split_and!; [done..|]. simpl.
  apply (sample_loop_inv _ (index p)) in Hq as (_ & Hfix & _); [|lia..].
  destruct wn1 as [[q1 o1] g1].
  apply FilterSample_inv in Hs
    as (d & sum & x & damped & Hsh & Hsum & Hd0 & _).
  apply fractional_pitch_inner_product in Hsum.
  apply shift_damper_Some in Hsh as (d0 & d1 & d2 & d3 & d4 & r & -> & ->).
  apply aset_Some in Hd0 as [_ Hd0]. simpl. rewrite Hd0. simpl.
  unfold seg_fixed in Hfix. injection Hfix as Hc Hg _ _ _ _ _ _.
  rewrite <- Hc, <- Hg, Hsum. done.
Qed.

Lemma FilterSegment_delay_line_witness :
  ∃ w',
    FilterSegment ex_cfg (ex_signal 12) (ex_param, replicate 12 0%float, []) = Some w' ∧
    0 ≤ 3 < num_samples ex_param ∧
    ∃ wn wn1,
      FilterSegment_upto ex_cfg (ex_signal 12) (ex_param, replicate 12 0%float, []) 3
        = Some wn ∧
      FilterSegment_upto ex_cfg (ex_signal 12) (ex_param, replicate 12 0%float, []) (3 + 1)
        = Some wn1 ∧
      let pos_lag := index ex_param + PITCH_BUFFSIZE ex_cfg - lag_offset ex_param + 3 in
      let sum :=
        inner_product
          (take (Z.to_nat PITCH_FRACORDER) (drop (Z.to_nat pos_lag) (buffer wn.1.1)))
          (interpol_coeff ex_param) in
      damper_state wn1.1.1 =
        (gain ex_param * sum)%float
          :: take 4 (damper_state wn.1.1) ++ drop 5 (damper_state wn.1.1).
Proof.
  eexists. split; [vm_compute; reflexivity|]. split; [done|].
  eapply (FilterSegment_delay_line ex_cfg (ex_signal 12) ex_param (replicate 12 0%float) []);
    [vm_compute; reflexivity|done].
Defined.

(** ** The course of a frame *)

Lemma frame_trace_refl cfg in_data w : frame_trace cfg in_data w w.
Proof. unfold frame_trace. split_and!; try done. intros i Hi. lia. Qed.

Lemma frame_trace_core cfg in_data w0 p o d p' d' :
  frame_trace cfg in_data w0 (p, o, d) → run_core p' = run_core p →
  frame_trace cfg in_data w0 (p', o, d').
Proof.
  unfold frame_trace, run_core. simpl. intros H E. injection E as -> -> ->. done.
Qed.

Lemma FilterSample_trace cfg in_data pos pl w0 p o d p' o' d' :
  frame_trace cfg in_data w0 (p, o, d) →
  pos = index p + PITCH_BUFFSIZE cfg →
  FilterSample in_data pos pl (p, o, d) = Some (p', o', d') →
  frame_trace cfg in_data w0 (p', o', d') ∧ index p' = index p + 1.
Proof.
  unfold frame_trace. simpl. intros (Hi & Hlo & Hlb & Hld & Ho & Hb & Ht) -> H.
  pose proof (FilterSample_lengths _ _ _ _ _ _ _ _ _ H) as (? & ? & ?).
  apply FilterSample_inv in H
    as (ds & sum & x & damped & _ & _ & _ & _ & Hx & Hout & Hbuf & Hidx & _).
  split; [|done]. split_and!; try congruence.
  - lia.
  - intros j Hj. rewrite (aget_aset_ne _ _ _ _ _ Hout) by lia. apply Ho. lia.
  - intros j Hj. rewrite (aget_aset_ne _ _ _ _ _ Hbuf) by lia. apply Hb. lia.
  - intros i Hi'. destruct (decide (i = index p)) as [->|Hne].
    + exists x, (x - damped)%float. split_and!; [done|by eapply aget_aset_eq|].
      replace (PITCH_BUFFSIZE cfg + index p) with (index p + PITCH_BUFFSIZE cfg) by lia.
      by eapply aget_aset_eq.
    + destruct (Ht i) as (x' & y' & Hx' & Hy' & Hb'); [lia|].
      exists x', y'. split_and!; [done| |].
      * by rewrite (aget_aset_ne _ _ _ _ _ Hout).
      * rewrite (aget_aset_ne _ _ _ _ _ Hbuf) by lia. done.
Qed.

Lemma FilterSegment_trace cfg in_data w0 w w' :
  frame_trace cfg in_data w0 w →
  FilterSegment cfg in_data w = Some w' →
  frame_trace cfg in_data w0 w' ∧
  index w'.1.1 = index w.1.1 + Z.max 0 (num_samples w.1.1).
Proof.
  intros Ht H. unfold FilterSegment, FilterSegment_upto in H.
  destruct (decide (0 ≤ num_samples w.1.1)) as [Hn|Hn].
  - rewrite Z.max_r by done.
    apply (for_up_inv
             (λ i (v : Work), frame_trace cfg in_data w0 v ∧
                               index v.1.1 = index w.1.1 + i) _ _ _ _ _ H); [done| |].
    + split; [done|lia].
    + intros i [[q o] d] [[q' o'] d'] _ [Hv Hi] Hs. simpl in *.
      eapply FilterSample_trace in Hs as [? ?]; [|done|lia]. split; [done|lia].
  - rewrite for_up_nil in H by lia. simplify_eq. split; [done|lia].
Qed.

Lemma Update_core cfg p p' : Update cfg p = Some p' → run_core p' = run_core p.
Proof.
  intros H. apply Update_inv in H as (_ & _ & H & _).
  unfold upd_fixed, run_core in *. congruence.
Qed.

Lemma frame_granule_trace cfg in_data gd ld w0 w w' :
  frame_trace cfg in_data w0 w →
  frame_granule cfg in_data gd ld w = Some w' →
  frame_trace cfg in_data w0 w'.
Proof.
  destruct w as [[p o] d]. intros Ht H.
  apply frame_granule_inv in H as (p1 & Hu & Hs).
  apply Update_core in Hu.
  eapply FilterSegment_trace in Hs as [? _]; [done|].
  eapply frame_trace_core; [done|]. by rewrite Hu.
Qed.

Lemma frame_sub_frame_trace cfg in_data lags gains m w0 s s' :
  frame_trace cfg in_data w0 s.2 →
  frame_sub_frame cfg in_data lags gains m s = Some s' →
  frame_trace cfg in_data w0 s'.2 ∧
  aget lags m = Some s'.1.1 ∧ aget gains m = Some s'.1.2.
Proof.
  destruct s as [[ol og] [[p o] d]]. simpl. intros Ht H.
  apply frame_sub_frame_inv in H as (lag_m & gain_m & w' & Hl & Hg & Hb & ->). simpl.
  split; [|done].
  destruct (decide (0 ≤ PITCH_GRAN_PER_SUBFRAME cfg)).
  - apply (for_up_inv (λ _ (v : Work), frame_trace cfg in_data w0 v) _ _ _ _ _ Hb); [done| |].
    + eapply frame_trace_core; [done|]. done.
    + intros _ v v' _ Hv Hgr. by eapply frame_granule_trace.
  - rewrite for_up_nil in Hb by lia. simplify_eq.
    eapply frame_trace_core; [done|]. done.
Qed.

Lemma sub_frames_trace cfg in_data lags gains s s' :
  for_up (frame_sub_frame cfg in_data lags gains) 0 PITCH_SUBFRAMES s = Some s' →
  frame_trace cfg in_data s.2 s'.2 ∧
  aget lags (PITCH_SUBFRAMES - 1) = Some s'.1.1 ∧
  aget gains (PITCH_SUBFRAMES - 1) = Some s'.1.2 ∧
  ∀ m, 0 ≤ m < PITCH_SUBFRAMES → is_Some (aget lags m) ∧ is_Some (aget gains m).
Proof.
  intros H.
  assert (0 ≤ PITCH_SUBFRAMES) as H4 by done.
  apply (for_up_inv
           (λ m (t : float * float * Work),
              frame_trace cfg in_data s.2 t.2 ∧
              (0 < m → aget lags (m - 1) = Some t.1.1 ∧ aget gains (m - 1) = Some t.1.2) ∧
              ∀ k, 0 ≤ k < m → is_Some (aget lags k) ∧ is_Some (aget gains k))
           _ _ _ _ _ H) in H4 as (? & Hlast & ?).
  - split_and!; [done|by apply Hlast|by apply Hlast|done].
  - split_and!; [apply frame_trace_refl|lia|lia].
  - clear H. intros m t t' Hm (Ht & _ & Hk) Hb.
    apply frame_sub_frame_trace with (w0 := s.2) in Hb as (? & Hl & Hg); [|done].
    split_and!; [done|intros _; by replace (m + 1 - 1) with m by lia|].
    intros k Hk'. destruct (decide (k = m)) as [->|]; [by rewrite Hl, Hg|]. apply Hk. lia.
Qed.

Lemma frame_lookahead_trace cfg in_data w0 w w' :
  frame_trace cfg in_data w0 w →
  frame_lookahead cfg in_data w = Some w' →
  frame_trace cfg in_data w0 w' ∧
  index w'.1.1 = index w.1.1 +
    (if decide (mode w.1.1 = kPitchFilterPreGain ∨ mode w.1.1 = kPitchFilterPreLa)
     then Z.max 0 (QLOOKAHEAD cfg) else 0).
Proof.
  destruct w as [[p o] d]. unfold frame_lookahead. simpl. intros Ht H.
  case_decide.
  - eapply FilterSegment_trace in H as [? Hi]; [|eapply frame_trace_core; [done|done]].
    split; [done|]. simpl in Hi. done.
  - simplify_eq. split; [done|simpl; lia].
Qed.

Lemma frame_export_inv cfg st ol og p st' :
  frame_export cfg st ol og p = Some st' →
  if decide (mode p = kPitchFilterPreGain) then st' = st
  else
    0 ≤ PITCH_FRAME_LEN cfg ∧
    PITCH_FRAME_LEN cfg + Z.of_nat (length (ubuf st)) ≤ Z.of_nat (length (buffer p)) ∧
    (length (ystate st) ≤ length (damper_state p))%nat ∧
    st' = {| ubuf := take (length (ubuf st))
                       (drop (Z.to_nat (PITCH_FRAME_LEN cfg)) (buffer p));
             ystate := take (length (ystate st)) (damper_state p);
             oldlagp := ol;
             oldgainp := og |}.
Proof.
  unfold frame_export. intros H.
  destruct (decide (mode p = kPitchFilterPreGain)) as [Hm|Hm].
  - rewrite decide_False in H by (intros ?; done). by simplify_eq.
  - rewrite decide_True in H by done.
    repeat case_guard; simplify_eq/=. destruct_and?. by split_and!.
Qed.

(** The course of a call that has a result. *)
Lemma FilterFrame_run cfg in_data st lags gains md out dg r :
  FilterFrame cfg in_data st lags gains md out dg = Some r →
  ∃ ol og w w0 p2,
    run_core w0.1.1 = (buffer (frame_init cfg st md), ystate st, 0) ∧ w0.1.2 = out ∧
    (md ≠ kPitchFilterPreGain → w0.2 = dg) ∧
    frame_trace cfg in_data w0 w ∧
    index w.1.1 = frame_samples cfg ∧ mode w.1.1 = md ∧
    aget lags (PITCH_SUBFRAMES - 1) = Some ol ∧
    aget (r_gains r) (PITCH_SUBFRAMES - 1) = Some og ∧
    (∀ m, 0 ≤ m < PITCH_SUBFRAMES → is_Some (aget lags m) ∧ is_Some (aget (r_gains r) m)) ∧
    frame_export cfg st ol og w.1.1 = Some (r_state r) ∧
    frame_lookahead cfg in_data w = Some (p2, r_out_data r, r_out_dg r).
Proof.
  intros H.
  apply FilterFrame_inv in H
    as (gains' & ol & og & w & st' & p2 & o2 & d2 & H & Hexp & Hla & ->).
  apply frame_filter_inv in H as (p0 & dg0 & ol0 & og0 & p1 & Hset & Hanc & Hloop).
  apply frame_mode_setup_inv in Hset as (Hm0 & Hb0 & Hd0 & Hi0 & Hdg0 & _).
  apply frame_anchors_inv in Hanc as (lag0 & _ & Hanc).
  assert (run_core p1 = run_core p0 ∧ mode p1 = mode p0) as [Hc1 Hm1].
  { destruct (lag_jump _ _ _).
    - destruct Hanc as (_ & _ & Hanc). case_decide; [|by subst].
      destruct Hanc as [_ ->]. done.
    - destruct Hanc as (_ & _ & ->). done. }
  pose proof (sub_frames_mode _ _ _ _ _ _ Hloop) as Hmode.
  pose proof (sub_frames_index _ _ _ _ _ _ Hloop) as Hidx.
  apply sub_frames_trace in Hloop as (Ht & Hl & Hg & Hall).
  simpl in *.
  exists ol, og, w, (set_num_samples p1 (PITCH_UPDATE cfg), out, dg0), p2.
  split_and!; try done.
  - unfold run_core in *. simpl. rewrite Hc1, Hb0, Hd0, Hi0. done.
  - intros Hmd. by destruct Hdg0 as [_ ->].
  - rewrite Hidx. unfold run_core in Hc1. injection Hc1 as _ _ ->. rewrite Hi0.
    unfold frame_samples. simpl. lia.
  - congruence.
Qed.

Lemma frame_mode_setup_sizes cfg p gains dg p' gains' dg' :
  frame_mode_setup cfg p gains dg = Some (p', gains', dg') →
  length gains' = length gains ∧
  (mode p = kPitchFilterPreGain → PITCH_SUBFRAMES ≤ Z.of_nat (length dg)).
Proof.
  intros H. pose proof H as H'.
  apply frame_mode_setup_inv in H' as (_ & _ & _ & _ & _ & Hnp & Hp).
  split.
  - destruct (decide (mode p = kPitchFilterPost)) as [Hm|Hm].
    + destruct (Hp Hm) as (?&?&?&?&?&->&->). reflexivity.
    + by rewrite Hnp.
  - intros Hm. unfold frame_mode_setup in H. rewrite decide_True in H by done.
    destruct (for_up _ _ _ dg) as [dg1|] eqn:E; [|done].
    destruct dg as [|r0 [|r1 [|r2 [|r3 dg]]]]; try (vm_compute in E; discriminate).
    simpl. unfold PITCH_SUBFRAMES. lia.
Qed.

(** X4: a call keeps the sizes of the caller's arrays and of the
    persistent state: the output, the gains, the history buffer and the
    damper memory are as long after the call as before, in every mode. *)
Theorem FilterFrame_lengths cfg in_data st lags gains md out dg r :
  FilterFrame cfg in_data st lags gains md out dg = Some r →
  length (r_out_data r) = length out ∧
  length (r_gains r) = length gains ∧
  length (ubuf (r_state r)) = length (ubuf st) ∧
  length (ystate (r_state r)) = length (ystate st).
Proof.
  intros H. pose proof H as H'.
  apply FilterFrame_run in H
    as (ol & og & w & w0 & p2 & Hc & Ho & _ & Ht & _ & _ & _ & _ & _ & Hexp & Hla).
  apply frame_lookahead_trace with (w0 := w0) in Hla as [(_ & Hlen & _) _]; [|done].
  simpl in Hlen. split_and!.
  - congruence.
  - apply FilterFrame_inv in H' as (gains' & ? & ? & ? & ? & ? & ? & ? & H' & _ & _ & ->).
    apply frame_filter_inv in H' as (p0 & dg0 & ol0 & og0 & p1 & Hset & _).
    apply frame_mode_setup_inv in Hset as (_ & _ & _ & _ & _ & Hnp & Hp). simpl in *.
    destruct (decide (md = kPitchFilterPost)) as [Hmd|Hmd].
    + destruct (Hp Hmd) as (?&?&?&?&?&->&->). reflexivity.
    + by rewrite Hnp.
  - apply frame_export_inv in Hexp. case_decide; [by subst|].
    destruct Hexp as (? & ? & ? & ->). simpl. rewrite length_take, length_drop. lia.
  - apply frame_export_inv in Hexp. case_decide; [by subst|].
    destruct Hexp as (? & ? & ? & ->). simpl. rewrite length_take. lia.
Qed.

Lemma FilterFrame_lengths_witness :
  ∃ r,
    FilterFrame ex_cfg (ex_signal 264) ex_state ex_lags ex_gains kPitchFilterPreLa
      (replicate 264 0%float) [] = Some r ∧
    length (r_out_data r) = length (replicate 264 0%float) ∧
    length (r_gains r) = length ex_gains ∧
    length (ubuf (r_state r)) = length (ubuf ex_state) ∧
    length (ystate (r_state r)) = length (ystate ex_state).
Proof.
  eexists. split; [vm_compute; reflexivity|].
  apply (FilterFrame_lengths ex_cfg (ex_signal 264) ex_state ex_lags ex_gains
           kPitchFilterPreLa (replicate 264 0%float) []).
  vm_compute. reflexivity.
Defined.

(** X5: a call writes the samples that it filters and none after them.
    These are the frame, and in the modes with lookahead (pre-filter with
    lookahead, gain search) the lookahead segment behind it: every output
    entry from [filtered_samples] on is as the caller left it, and each
    index below has an input and an output sample. *)
Theorem FilterFrame_output_window cfg in_data st lags gains md out dg r :
  FilterFrame cfg in_data st lags gains md out dg = Some r →
  (∀ j, filtered_samples cfg md ≤ j → aget (r_out_data r) j = aget out j) ∧
  (∀ i, 0 ≤ i < filtered_samples cfg md →
        is_Some (aget in_data i) ∧ is_Some (aget (r_out_data r) i)).
Proof.
  intros H.
  apply FilterFrame_run in H
    as (ol & og & w & w0 & p2 & Hc & Ho & _ & Ht & Hi & Hm & _ & _ & _ & _ & Hla).
  apply frame_lookahead_trace with (w0 := w0) in Hla as [(_ & _ & _ & _ & Hout & _ & Htr) Hi2];
    [|done].
  simpl in *. unfold run_core in Hc. injection Hc as _ _ Hi0.
  rewrite Hi, Hm in Hi2. fold (filtered_samples cfg md) in Hi2.
  rewrite Hi2, Hi0, Ho in *. split.
  - intros j Hj. apply Hout. lia.
  - intros i Hi'. destruct (Htr i Hi') as (x & y & -> & -> & _). done.
Qed.

Lemma FilterFrame_output_window_witness :
  ∃ r,
    FilterFrame ex_cfg (ex_signal 264) ex_state ex_lags ex_gains kPitchFilterPre
      (replicate 264 1%float) [] = Some r ∧
    filtered_samples ex_cfg kPitchFilterPre = 240 ∧
    filtered_samples ex_cfg kPitchFilterPreLa = 264 ∧
    (∀ j, filtered_samples ex_cfg kPitchFilterPre ≤ j →
          aget (r_out_data r) j = aget (replicate 264 1%float) j) ∧
    (∀ i, 0 ≤ i < filtered_samples ex_cfg kPitchFilterPre →
          is_Some (aget (ex_signal 264) i) ∧ is_Some (aget (r_out_data r) i)).
Proof.
  eexists. split; [vm_compute; reflexivity|]. split; [done|]. split; [done|].
  apply (FilterFrame_output_window ex_cfg (ex_signal 264) ex_state ex_lags ex_gains
           kPitchFilterPre (replicate 264 1%float) []).
  vm_compute. reflexivity.
Defined.

(** X6: the arrays that a call needs.  A call that has a result was given
    at least four lags and four gains, input and output arrays that hold
    every filtered sample, and in a gain search at least four rows of trial
    outputs; with anything shorter the call reads or writes outside an
    array. *)
Theorem FilterFrame_array_sizes cfg in_data st lags gains md out dg r :
  FilterFrame cfg in_data st lags gains md out dg = Some r →
  PITCH_SUBFRAMES ≤ Z.of_nat (length lags) ∧
  PITCH_SUBFRAMES ≤ Z.of_nat (length gains) ∧
  filtered_samples cfg md ≤ Z.of_nat (length in_data) ∧
  filtered_samples cfg md ≤ Z.of_nat (length out) ∧
  (md = kPitchFilterPreGain → PITCH_SUBFRAMES ≤ Z.of_nat (length dg)).
Proof.
  intros H. pose proof H as H'.
  apply FilterFrame_inv in H' as (gains' & ? & ? & ? & ? & ? & ? & ? & H' & _ & _ & ->).
  apply frame_filter_inv in H' as (p0 & dg0 & ol0 & og0 & p1 & Hset & _).
  apply frame_mode_setup_sizes in Hset as [Hgl Hdg]. simpl in *.
  apply FilterFrame_run in H
    as (ol & og & w & w0 & p2 & Hc & Ho & _ & Ht & Hi & Hm & Hl & Hg & _ & _ & Hla).
  apply frame_lookahead_trace with (w0 := w0) in Hla
    as [(_ & Hlen & _ & _ & _ & _ & Htr) Hi2]; [|done].
  simpl in *. unfold run_core in Hc. injection Hc as _ _ Hi0.
  rewrite Hi, Hm in Hi2. fold (filtered_samples cfg md) in Hi2.
  rewrite Hi2, Hi0, Ho in *.
  apply aget_Some in Hl as [Hl _]. apply aget_Some in Hg as [Hg _].
  unfold PITCH_SUBFRAMES in *.
  split_and!; [lia|lia| | |done].
  - destruct (decide (0 < filtered_samples cfg md)) as [Hpos|]; [|lia].
    destruct (Htr (filtered_samples cfg md - 1)) as (sx & sy & Hx & _); [lia|].
    apply aget_Some in Hx as [? _]. lia.
  - destruct (decide (0 < filtered_samples cfg md)) as [Hpos|]; [|lia].
    destruct (Htr (filtered_samples cfg md - 1)) as (sx & sy & _ & Hy & _); [lia|].
    apply aget_Some in Hy as [? _]. lia.
Qed.

Lemma FilterFrame_array_sizes_witness :
  ∃ r,
    FilterFrame ex_cfg (ex_signal 264) ex_state ex_lags ex_gains kPitchFilterPreGain
      (replicate 264 0%float) (replicate 4 []) = Some r ∧
    FilterFrame ex_cfg (ex_signal 263) ex_state ex_lags ex_gains kPitchFilterPreGain
      (replicate 264 0%float) (replicate 4 []) = None ∧
    FilterFrame ex_cfg (ex_signal 264) ex_state ex_lags ex_gains kPitchFilterPreGain
      (replicate 264 0%float) (replicate 3 []) = None ∧
    PITCH_SUBFRAMES ≤ Z.of_nat (length ex_lags) ∧
    PITCH_SUBFRAMES ≤ Z.of_nat (length ex_gains) ∧
    filtered_samples ex_cfg kPitchFilterPreGain ≤ Z.of_nat (length (ex_signal 264)) ∧
    filtered_samples ex_cfg kPitchFilterPreGain
      ≤ Z.of_nat (length (replicate 264 0%float)) ∧
    (kPitchFilterPreGain = kPitchFilterPreGain →
     PITCH_SUBFRAMES ≤ Z.of_nat (length (replicate 4 (@nil float)))).
Proof.
  eexists. split; [vm_compute; reflexivity|].
  split; [vm_compute; reflexivity|]. split; [vm_compute; reflexivity|].
  eapply (FilterFrame_array_sizes ex_cfg (ex_signal 264) ex_state ex_lags ex_gains
           kPitchFilterPreGain (replicate 264 0%float) (replicate 4 [])).
  vm_compute. reflexivity.
Defined.

Lemma sub_frames_work_inv cfg in_data lags gains (P : Work → Prop) :
  (∀ p o d p', P (p, o, d) → run_core p' = run_core p → mode p' = mode p → P (p', o, d)) →
  (∀ w w', P w → FilterSegment cfg in_data w = Some w' → P w') →
  ∀ s s',
    for_up (frame_sub_frame cfg in_data lags gains) 0 PITCH_SUBFRAMES s = Some s' →
    P s.2 → P s'.2.
Proof.
  intros Hc Hf s s' H H0.
  apply (for_up_inv (λ _ s, P s.2) _ _ _ _ _ H); [done..|].
  clear H H0. intros m [[ol og] [[p o] d]] t' _ HP Hb. simpl in *.
  apply frame_sub_frame_inv in Hb as (lag_m & gain_m & w' & _ & _ & Hb & ->). simpl.
  destruct (decide (0 ≤ PITCH_GRAN_PER_SUBFRAME cfg)).
  - apply (for_up_inv (λ _ (w : Work), P w) _ _ _ _ _ Hb); [done| |].
    + by apply (Hc p).
    + intros _ [[q o1] d1] w2 _ HQ Hgr.
      apply frame_granule_inv in Hgr as (q1 & Hup & Hseg).
      eapply Hf; [|done]. eapply Hc; [done| |].
      * apply Update_core in Hup. by rewrite Hup.
      * apply Update_inv in Hup as (_ & _ & Hup & _). unfold upd_fixed in Hup.
        by injection Hup as _ _ _ _ _ -> _ _ _.
  - rewrite for_up_nil in Hb by lia. simplify_eq. by apply (Hc p).
Qed.

Lemma FilterSegment_dg cfg in_data p o d p' o' d' :
  mode p ≠ kPitchFilterPreGain →
  FilterSegment cfg in_data (p, o, d) = Some (p', o', d') →
  mode p' = mode p ∧ d' = d.
Proof.
  intros Hm H. unfold FilterSegment, FilterSegment_upto in H. simpl in H.
  destruct (decide (0 ≤ num_samples p)) as [Hn|Hn].
  - apply (for_up_inv (λ _ (v : Work), mode v.1.1 = mode p ∧ v.2 = d) _ _ _ _ _ H);
      [done|done|].
    intros i [[q oq] dq] [[q' oq'] dq'] _ [Hq Hd] Hs. simpl in *. subst dq.
    apply FilterSample_inv in Hs as (?&?&?&?&_&_&_&_&_&_&_&_&Hdg&Hfix).
    split; [congruence|]. apply Hdg. congruence.
  - rewrite for_up_nil in H by lia. by simplify_eq.
Qed.

(** X7: what a call leaves alone.  Only the post-filter writes to the
    caller's gains: in the other three modes they come back as they were.
    Only the gain search touches the trial outputs: in the other three modes
    [out_dg], for which the entry points pass [NULL], comes back as it
    was. *)
Theorem FilterFrame_untouched cfg in_data st lags gains md out dg r :
  FilterFrame cfg in_data st lags gains md out dg = Some r →
  (md ≠ kPitchFilterPost → r_gains r = gains) ∧
  (md ≠ kPitchFilterPreGain → r_out_dg r = dg).
Proof.
  intros H.
  apply FilterFrame_inv in H
    as (gains' & ol & og & w & st' & p2 & o2 & d2 & H & _ & Hla & ->).
  apply frame_filter_inv in H as (p0 & dg0 & ol0 & og0 & p1 & Hset & Hanc & Hloop).
  apply frame_mode_setup_inv in Hset as (Hm0 & _ & _ & _ & Hdg0 & Hg & _).
  simpl in *. split; [done|]. intros Hmd.
  destruct (Hdg0 Hmd) as [-> ->].
  apply frame_anchors_inv in Hanc as (lag0 & _ & Hanc).
  assert (p1 = frame_init cfg st md) as ->.
  { destruct (lag_jump _ _ _).
    - destruct Hanc as (_ & _ & Hanc). simpl in Hanc. by rewrite decide_False in Hanc.
    - by destruct Hanc as (_ & _ & ->). }
  apply (sub_frames_work_inv _ _ _ _ (λ v, mode v.1.1 = md ∧ v.2 = dg)) in Hloop.
  - destruct w as [[p o] d]. simpl in Hloop. destruct Hloop as [Hm ->].
    unfold frame_lookahead in Hla. case_decide; [|by simplify_eq].
    apply FilterSegment_dg in Hla as [_ ->]; [done|]. simpl. congruence.
  - simpl. intros p o d p' [<- <-] _ Hm. done.
  - intros [[p o] d] [[p' o'] d'] [Hm Hd] Hs. simpl in *. subst d.
    apply FilterSegment_dg in Hs as [? ->]; [|congruence]. split; congruence.
  - done.
Qed.

Lemma FilterFrame_untouched_witness :
  ∃ r,
    FilterFrame ex_cfg (ex_signal 264) ex_state ex_lags ex_gains kPitchFilterPreLa
      (replicate 264 0%float) [] = Some r ∧
    (kPitchFilterPreLa ≠ kPitchFilterPost → r_gains r = ex_gains) ∧
    (kPitchFilterPreLa ≠ kPitchFilterPreGain → r_out_dg r = []).
Proof.
  eexists. split; [vm_compute; reflexivity|].
  apply (FilterFrame_untouched ex_cfg (ex_signal 264) ex_state ex_lags ex_gains
           kPitchFilterPreLa (replicate 264 0%float) []).
  vm_compute. reflexivity.
Defined.

(** X8: the anchors of the next frame.  Outside a gain search a call
    stores the target lag and the target gain of the last sub-frame,
    [lags[3]] and [gains[3]], as the last lag and the last gain of the
    persistent state; in a post-filter call the gain is the scaled one, as
    the call leaves it in the caller's array. *)
Theorem FilterFrame_stores_anchors cfg in_data st lags gains md out dg r :
  FilterFrame cfg in_data st lags gains md out dg = Some r →
  md ≠ kPitchFilterPreGain →
  aget lags 3 = Some (oldlagp (r_state r)) ∧
  aget (r_gains r) 3 = Some (oldgainp (r_state r)).
Proof.
  intros H Hmd.
  apply FilterFrame_run in H
    as (ol & og & w & w0 & p2 & _ & _ & _ & _ & _ & Hm & Hl & Hg & _ & Hexp & _).
  apply frame_export_inv in Hexp. rewrite Hm, decide_False in Hexp by done.
  destruct Hexp as (_ & _ & _ & ->). done.
Qed.

Lemma FilterFrame_stores_anchors_witness :
  ∃ r,
    FilterFrame ex_cfg (ex_signal 240) ex_state ex_lags ex_gains kPitchFilterPost
      (replicate 240 0%float) [] = Some r ∧
    kPitchFilterPost ≠ kPitchFilterPreGain ∧
    oldlagp (r_state r) = 40%float ∧
    oldgainp (r_state r) = (0.8 * -1.3)%float ∧
    aget ex_lags 3 = Some (oldlagp (r_state r)) ∧
    aget (r_gains r) 3 = Some (oldgainp (r_state r)).
Proof.
  eexists. split; [vm_compute; reflexivity|]. split; [done|].
  split; [vm_compute; reflexivity|]. split; [vm_compute; reflexivity|].
  apply (FilterFrame_stores_anchors ex_cfg (ex_signal 240) ex_state ex_lags ex_gains
           kPitchFilterPost (replicate 240 0%float) []); [vm_compute; reflexivity|done].
Defined.

Lemma aget_take_drop {A} (l : list A) (n : nat) m k :
  0 ≤ m → 0 ≤ k < Z.of_nat n →
  aget (take n (drop (Z.to_nat m) l)) k = aget l (k + m).
Proof.
  intros Hm Hk. unfold aget. rewrite !decide_True by lia.
  rewrite lookup_take_lt by lia. rewrite lookup_drop. f_equal. lia.
Qed.

(** X9: the history that a call commits.  Outside a gain search, entry [k]
    of the new history buffer is the sum of input and output of the sample
    [i = k + PITCH_FRAME_LEN - PITCH_BUFFSIZE] of this frame, for every such
    sample of the frame; where [i] is negative, the history is longer than
    the frame and the entry is the old entry [k + PITCH_FRAME_LEN]: the
    buffer has moved by one frame. *)
Theorem FilterFrame_history cfg in_data st lags gains md out dg r k :
  FilterFrame cfg in_data st lags gains md out dg = Some r →
  md ≠ kPitchFilterPreGain →
  0 ≤ k < Z.of_nat (length (ubuf st)) →
  let i := k + PITCH_FRAME_LEN cfg - PITCH_BUFFSIZE cfg in
  (0 ≤ i < frame_samples cfg →
   ∃ x y, aget in_data i = Some x ∧ aget (r_out_data r) i = Some y ∧
          aget (ubuf (r_state r)) k = Some (x + y)%float) ∧
  (i < 0 → k + PITCH_FRAME_LEN cfg < Z.of_nat (length (ubuf st)) →
   aget (ubuf (r_state r)) k = aget (ubuf st) (k + PITCH_FRAME_LEN cfg)).
Proof.
  intros H Hmd Hk i.
  apply FilterFrame_run in H
    as (ol & og & w & w0 & p2 & Hc & Ho & _ & Ht & Hi & Hm & _ & _ & _ & Hexp & Hla).
  apply frame_export_inv in Hexp. rewrite Hm, decide_False in Hexp by done.
  destruct Hexp as (Hfl & _ & _ & ->). simpl.
  rewrite aget_take_drop by done.
  apply frame_lookahead_trace with (w0 := w) in Hla as [(_ & _ & _ & _ & Hout & _) _];
    [|apply frame_trace_refl].
  simpl in Hout.
  destruct Ht as (_ & _ & _ & _ & _ & Hb & Htr).
  unfold run_core in Hc. injection Hc as Hb0 _ Hi0. rewrite Hi0 in *. split.
  - intros Hi'. destruct (Htr i) as (x & y & Hx & Hy & Hxy); [lia|].
    exists x, y. split_and!; [done| |].
    + rewrite Hout by lia. done.
    + replace (k + PITCH_FRAME_LEN cfg) with (PITCH_BUFFSIZE cfg + i) by (unfold i; lia).
      done.
  - intros Hi' Hlt. rewrite Hb by (unfold i in Hi'; lia). rewrite Hb0. simpl.
    unfold aget. rewrite !decide_True by lia.
    rewrite lookup_app_l by lia. done.
Qed.

Lemma FilterFrame_history_witness :
  ∃ r,
    FilterFrame ex_cfg (ex_signal 264) ex_state ex_lags ex_gains kPitchFilterPreLa
      (replicate 264 0%float) [] = Some r ∧
    kPitchFilterPreLa ≠ kPitchFilterPreGain ∧
    0 ≤ 7 < Z.of_nat (length (ubuf ex_state)) ∧
    let i := 7 + PITCH_FRAME_LEN ex_cfg - PITCH_BUFFSIZE ex_cfg in
    i = 57 ∧
    (0 ≤ i < frame_samples ex_cfg →
     ∃ x y, aget (ex_signal 264) i = Some x ∧ aget (r_out_data r) i = Some y ∧
            aget (ubuf (r_state r)) 7 = Some (x + y)%float) ∧
    (i < 0 → 7 + PITCH_FRAME_LEN ex_cfg < Z.of_nat (length (ubuf ex_state)) →
     aget (ubuf (r_state r)) 7 = aget (ubuf ex_state) (7 + PITCH_FRAME_LEN ex_cfg)).
Proof.
  eexists. split; [vm_compute; reflexivity|]. split; [done|]. split; [done|].
  split; [done|].
  apply (FilterFrame_history ex_cfg (ex_signal 264) ex_state ex_lags ex_gains
           kPitchFilterPreLa (replicate 264 0%float) []); [vm_compute; reflexivity|done..].
Defined.

(** ** One filter, four modes *)

Lemma frame_filter_Post cfg in_data st lags gains out dg p0 gains' dg0 :
  frame_mode_setup cfg (frame_init cfg st kPitchFilterPost) gains dg
    = Some (p0, gains', dg0) →
  frame_filter cfg in_data st lags gains kPitchFilterPost out dg
  = (λ gs, (gs.1, frame_mode kPitchFilterPost gs.2)) <$>
      frame_filter cfg in_data st lags gains' kPitchFilterPre out dg.
Proof.
  intros Es. unfold frame_filter. rewrite Es.
  apply frame_mode_setup_inv in Es as (_ & _ & _ & _ & Hp0 & _).
  destruct Hp0 as [-> ->]; [done|].
  case_guard; simpl; [|done].
  unfold frame_mode_setup. simpl.
  unfold frame_anchors. simpl.
  destruct (aget lags 0) as [lag0|]; simpl; [|done].
  destruct (_ || _).
  - destruct (aget gains' 0) as [g0|]; simpl; [|done].
    pose proof (sub_frames_set_mode cfg in_data lags gains' kPitchFilterPost
      (lag0, g0, (set_num_samples (frame_init cfg st kPitchFilterPre) (PITCH_UPDATE cfg),
                  out, dg))) as Hsim.
    unfold frame_mode, work_mode in Hsim. simpl in Hsim.
    change (set_mode (set_num_samples (frame_init cfg st kPitchFilterPre) ?u) kPitchFilterPost)
      with (set_num_samples (frame_init cfg st kPitchFilterPost) u) in Hsim.
    etrans; [exact (f_equal (λ x, x ≫= (λ s, Some (gains', s)))
                      (Hsim ltac:(done) ltac:(done)))|].
    clear Hsim. destruct (for_up _ _ _ _) as [[[? ?] [[? ?] ?]]|]; reflexivity.
  - simpl.
    pose proof (sub_frames_set_mode cfg in_data lags gains' kPitchFilterPost
      (oldlagp st, oldgainp st,
       (set_num_samples (frame_init cfg st kPitchFilterPre) (PITCH_UPDATE cfg),
        out, dg))) as Hsim.
    unfold frame_mode, work_mode in Hsim. simpl in Hsim.
    change (set_mode (set_num_samples (frame_init cfg st kPitchFilterPre) ?u) kPitchFilterPost)
      with (set_num_samples (frame_init cfg st kPitchFilterPost) u) in Hsim.
    etrans; [exact (f_equal (λ x, x ≫= (λ s, Some (gains', s)))
                      (Hsim ltac:(done) ltac:(done)))|].
    clear Hsim. destruct (for_up _ _ _ _) as [[[? ?] [[? ?] ?]]|]; reflexivity.
Qed.

(** X10: the post-filter is the pre-filter run with the scaled gains.  A
    post-filter call that has a result leaves the gains times -1.3 in the
    caller's array, and a pre-filter call on the same input and state with
    those gains has the same result: the same output, the same new state,
    the same gains. *)
Theorem PitchfilterPost_as_Pre cfg in_data out_data pf_state lags gains r :
  WebRtcIsac_PitchfilterPost cfg in_data out_data pf_state lags gains = Some r →
  WebRtcIsac_PitchfilterPre cfg in_data out_data pf_state lags (r_gains r) = Some r.
Proof.
  unfold WebRtcIsac_PitchfilterPost, WebRtcIsac_PitchfilterPre, FilterFrame. intros H.
  destruct (frame_mode_setup cfg (frame_init cfg pf_state kPitchFilterPost) gains [])
    as [[[p0 gains'] dg0]|] eqn:Es.
  2:{ unfold frame_filter in H. rewrite Es in H. by case_guard. }
  rewrite (frame_filter_Post _ _ _ _ _ _ _ _ _ _ Es) in H.
  destruct (frame_filter cfg in_data pf_state lags gains' kPitchFilterPre out_data [])
    as [[gains2 [[ol og] [[p o] d]]]|] eqn:E; simpl in *; [|done].
  assert (gains2 = gains' ∧ mode p = kPitchFilterPre) as [-> Hmode].
  { apply frame_filter_inv in E as (q0 & dq0 & ol0 & og0 & q1 & Hset & Hanc & Hloop).
    apply frame_mode_setup_inv in Hset as (_ & _ & _ & _ & Hq0 & Hg & _).
    destruct Hq0 as [-> ->]; [done|]. split; [by apply Hg|].
    apply frame_anchors_inv in Hanc as (lag0 & _ & Hanc).
    assert (q1 = frame_init cfg pf_state kPitchFilterPre) as ->.
    { destruct (lag_jump _ _ _); [by destruct Hanc as (_ & _ & ?)|by destruct Hanc as (_ & _ & ?)]. }
    by apply sub_frames_mode in Hloop. }
  rewrite frame_export_set_mode in H by (done || by rewrite Hmode).
  destruct (frame_export cfg pf_state ol og p) as [st'|] eqn:Ee; simpl in H; [|done].
  unfold frame_lookahead in H. simpl in H. simplify_eq. simpl.
  rewrite E. simpl. rewrite Ee. simpl.
  unfold frame_lookahead. rewrite Hmode. simpl. done.
Qed.

Lemma PitchfilterPost_as_Pre_witness :
  ∃ r,
    WebRtcIsac_PitchfilterPost ex_cfg (ex_signal 240) (replicate 240 0%float)
      ex_state ex_lags ex_gains = Some r ∧
    WebRtcIsac_PitchfilterPre ex_cfg (ex_signal 240) (replicate 240 0%float)
      ex_state ex_lags (r_gains r) = Some r.
Proof.
  eexists. split; [vm_compute; reflexivity|].
  apply (PitchfilterPost_as_Pre ex_cfg (ex_signal 240) (replicate 240 0%float)
           ex_state ex_lags ex_gains).
  vm_compute. reflexivity.
Defined.

Lemma for_up_sim_Some {S T} (f : S → T) (body1 : Z → S → option S)
    (body2 : Z → T → option T) lo hi s s' :
  (∀ i t t', body1 i t = Some t' → body2 i (f t) = Some (f t')) →
  for_up body1 lo hi s = Some s' →
  for_up body2 lo hi (f s) = Some (f s').
Proof.
  unfold for_up. intros Hsim.
  generalize (Z.to_nat (hi - lo)). intros k. revert lo s.
  induction k as [|k IH]; intros lo s H; simpl in *; [by simplify_eq|].
  destruct (body1 lo s) as [s1|] eqn:E; simpl in H; [|done].
  rewrite (Hsim _ _ _ E). simpl. by apply IH.
Qed.

Lemma FilterSample_drop_search in_data pos pl w w' :
  FilterSample in_data pos pl w = Some w' →
  FilterSample in_data pos pl (work_drop_search w) = Some (work_drop_search w').
Proof.
  destruct w as [[p o] d], w' as [[p' o'] d']. intros H.
  apply FilterSample_inv in H
    as (ds & sum & x & damped & Hsh & Hsum & Hd0 & Hdamp & Hx & Hout & Hbuf & Hidx & _ & Hfix).
  unfold FilterSample, work_drop_search. simpl.
  rewrite Hsh. simpl. rewrite Hsum. simpl. rewrite Hd0. simpl.
  rewrite Hdamp. simpl. rewrite Hx. simpl. rewrite Hout. simpl.
  rewrite (aget_aset_eq _ _ _ _ Hout). simpl. rewrite Hbuf. simpl.
  destruct p'. simpl in *. unfold drop_search. simpl. simplify_eq. done.
Qed.

Lemma FilterSegment_drop_search cfg in_data w w' :
  FilterSegment cfg in_data w = Some w' →
  FilterSegment cfg in_data (work_drop_search w) = Some (work_drop_search w').
Proof.
  unfold FilterSegment, FilterSegment_upto. simpl. intros H.
  by apply (for_up_sim_Some work_drop_search
              (λ n w0, FilterSample in_data (index w.1.1 + PITCH_BUFFSIZE cfg + n)
                         (index w.1.1 + PITCH_BUFFSIZE cfg - lag_offset w.1.1 + n) w0)
              (λ n w0, FilterSample in_data (index w.1.1 + PITCH_BUFFSIZE cfg + n)
                         (index w.1.1 + PITCH_BUFFSIZE cfg - lag_offset w.1.1 + n) w0));
    [intros i t t'; apply FilterSample_drop_search|].
Qed.

Lemma Update_drop_search cfg p p' :
  Update cfg p = Some p' → Update cfg (drop_search p) = Some (drop_search p').
Proof.
  intros H. apply Update_inv in H as (Hlo & Hrow & Hfix & _).
  rewrite Update_values. simpl. rewrite Hrow. simpl.
  destruct p'. unfold upd_fixed, drop_search in *. simpl in *. simplify_eq. done.
Qed.

Lemma frame_granule_drop_search cfg in_data gd ld w w' :
  frame_granule cfg in_data gd ld w = Some w' →
  frame_granule cfg in_data gd ld (work_drop_search w) = Some (work_drop_search w').
Proof.
  destruct w as [[p o] d]. intros H.
  apply frame_granule_inv in H as (p1 & Hu & Hs).
  apply Update_drop_search in Hu. apply FilterSegment_drop_search in Hs.
  unfold frame_granule, work_drop_search in *. simpl in *.
  unfold drop_search in Hu at 1. simpl in Hu.
  etrans; [|exact Hs]. 
  change (set_lag (set_gain (drop_search p) (gain p + gd)) (lag p + ld))
    with (mkParam (buffer p) (damper_state p) (interpol_coeff p) (gain p + gd) (lag p + ld)
            (lag_offset p) (sub_frame p) kPitchFilterPreLa (num_samples p) (index p) [] []).
  rewrite Hu. done.
Qed.

Lemma frame_sub_frame_drop_search cfg in_data lags gains m s s' :
  frame_sub_frame cfg in_data lags gains m s = Some s' →
  frame_sub_frame cfg in_data lags gains m (frame_drop_search s)
  = Some (frame_drop_search s').
Proof.
  destruct s as [[ol og] [[p o] d]]. intros H.
  apply frame_sub_frame_inv in H as (lag_m & gain_m & w' & Hl & Hg & Hb & ->).
  unfold frame_sub_frame, frame_drop_search. simpl. rewrite Hl, Hg. simpl.
  apply (for_up_sim_Some work_drop_search _
           (λ _ w, frame_granule cfg in_data
                     ((gain_m - og) / of_int (PITCH_GRAN_PER_SUBFRAME cfg))
                     ((lag_m - ol) / of_int (PITCH_GRAN_PER_SUBFRAME cfg)) w)) in Hb.
  - unfold work_drop_search in Hb at 1. simpl in Hb.
    change (drop_search (set_gain (set_lag (set_sub_frame p m) ol) og))
      with (set_gain (set_lag (set_sub_frame (drop_search p) m) ol) og) in Hb.
    rewrite Hb. done.
  - intros i t t'. apply frame_granule_drop_search.
Qed.

Lemma sub_frames_drop_search cfg in_data lags gains s s' :
  for_up (frame_sub_frame cfg in_data lags gains) 0 PITCH_SUBFRAMES s = Some s' →
  for_up (frame_sub_frame cfg in_data lags gains) 0 PITCH_SUBFRAMES (frame_drop_search s)
  = Some (frame_drop_search s').
Proof.
  apply for_up_sim_Some. intros i t t'. apply frame_sub_frame_drop_search.
Qed.

Lemma frame_filter_drop_search cfg in_data st lags gains out dg gains' s :
  frame_filter cfg in_data st lags gains kPitchFilterPreGain out dg = Some (gains', s) →
  gains' = gains ∧
  frame_filter cfg in_data st lags gains kPitchFilterPreLa out []
  = Some (gains, frame_drop_search s).
Proof.
  intros H. unfold frame_filter in *.
  case_guard; simpl in *; [|done].
  unfold frame_mode_setup in *. simpl in *.
  destruct (for_up _ 0 PITCH_SUBFRAMES dg) as [dg0|]; simpl in H; [|done].
  unfold frame_anchors in *. simpl in *.
  destruct (aget lags 0) as [lag0|]; simpl in *; [|done].
  destruct (_ || _).
  - destruct (aget gains 0) as [g0|]; simpl in *; [|done].
    destruct (for_up _ _ _ _) as [s1|] eqn:E in H; simpl in H; [|done]. simplify_eq.
    apply sub_frames_drop_search in E. unfold frame_drop_search at 1 in E.
    simpl in E. unfold work_drop_search in E. simpl in E.
    split; [done|].
    apply bind_Some. eexists. split; [exact E|done].
  - simpl in *.
    destruct (for_up _ _ _ _) as [s1|] eqn:E in H; simpl in H; [|done]. simplify_eq.
    apply sub_frames_drop_search in E. unfold frame_drop_search at 1 in E.
    simpl in E. unfold work_drop_search in E. simpl in E.
    split; [done|].
    apply bind_Some. eexists. split; [exact E|done].
Qed.

(** X11: the signal of a gain search.  Beside the trial outputs, a gain
    search writes to [out_data] what the pre-filter with lookahead writes:
    where the work buffer holds a frame behind the history, so that the
    pre-filter can commit its state, a gain search that has a result gives
    the pre-filter with lookahead a result with the same output and the same
    gains. *)
Theorem PitchfilterPre_gains_output cfg in_data out_data out_dg pf_state lags gains r :
  WebRtcIsac_PitchfilterPre_gains cfg in_data out_data out_dg pf_state lags gains
    = Some r →
  0 ≤ PITCH_FRAME_LEN cfg →
  PITCH_FRAME_LEN cfg + Z.of_nat (length (ubuf pf_state))
    ≤ PITCH_INTBUFFSIZE cfg + QLOOKAHEAD cfg →
  ∃ r',
    WebRtcIsac_PitchfilterPre_la cfg in_data out_data pf_state lags gains = Some r' ∧
    r_out_data r' = r_out_data r ∧ r_gains r' = r_gains r.
Proof.
  unfold WebRtcIsac_PitchfilterPre_gains, WebRtcIsac_PitchfilterPre_la, FilterFrame.
  intros H Hfl Hbuf.
  destruct (frame_filter cfg in_data pf_state lags gains kPitchFilterPreGain out_data out_dg)
    as [[gains' [[ol og] [[p o] d]]]|] eqn:E; simpl in H; [|done].
  pose proof (frame_filter_drop_search _ _ _ _ _ _ _ _ _ E) as [-> E'].
  rewrite E'. simpl.
  apply frame_filter_inv in E as (p0 & dg0 & ol0 & og0 & p1 & Hset & Hanc & Hloop).
  apply frame_mode_setup_inv in Hset as (Hm0 & Hb0 & Hd0 & _).
  apply frame_anchors_inv in Hanc as (lag0 & _ & Hanc).
  assert (run_core p1 = run_core p0 ∧ mode p1 = mode p0) as [Hc1 Hm1].
  { destruct (lag_jump _ _ _).
    - destruct Hanc as (_ & _ & Hanc). case_decide; [|by subst].
      destruct Hanc as [_ ->]. done.
    - destruct Hanc as (_ & _ & ->). done. }
  assert (mode p = kPitchFilterPreGain) as Hm.
  { apply sub_frames_mode in Hloop. simpl in Hloop, Hm0. congruence. }
  apply sub_frames_trace in Hloop as ((_ & _ & Hlb & Hld & _) & _). simpl in Hlb, Hld.
  unfold run_core in Hc1. injection Hc1 as Eb Ed _.
  rewrite Eb, Hb0 in Hlb. rewrite Ed, Hd0 in Hld. simpl in Hlb, Hld.
  destruct (frame_export cfg pf_state ol og p) as [st0|]; simpl in H; [|done].
  unfold frame_export. simpl.
  rewrite option_guard_True.
  2:{ split; [done|]. rewrite Hlb, length_app, length_replicate. lia. }
  rewrite option_guard_True by lia. simpl.
  unfold frame_lookahead in *. simpl in *.
  rewrite decide_True in H by (by left).
  destruct (FilterSegment _ _ _) as [[[p2 o2] d2]|] eqn:Es in H; simpl in H; [|done].
  apply FilterSegment_drop_search in Es. unfold work_drop_search in Es. simpl in Es.
  change (drop_search (set_num_samples (set_sub_frame p ?a) ?b))
    with (set_num_samples (set_sub_frame (drop_search p) a) b) in Es.
  rewrite Es. simpl. simplify_eq. eexists. split; [done|]. done.
Qed.

Lemma PitchfilterPre_gains_output_witness :
  ∃ r,
    WebRtcIsac_PitchfilterPre_gains ex_cfg (ex_signal 264) (replicate 264 0%float)
      (replicate 4 []) ex_state ex_lags ex_gains = Some r ∧
    0 ≤ PITCH_FRAME_LEN ex_cfg ∧
    PITCH_FRAME_LEN ex_cfg + Z.of_nat (length (ubuf ex_state))
      ≤ PITCH_INTBUFFSIZE ex_cfg + QLOOKAHEAD ex_cfg ∧
    ∃ r',
      WebRtcIsac_PitchfilterPre_la ex_cfg (ex_signal 264) (replicate 264 0%float)
        ex_state ex_lags ex_gains = Some r' ∧
      r_out_data r' = r_out_data r ∧ r_gains r' = r_gains r.
Proof.
  eexists. split; [vm_compute; reflexivity|]. split; [done|]. split; [done|].
  apply (PitchfilterPre_gains_output ex_cfg (ex_signal 264) (replicate 264 0%float)
           (replicate 4 []) ex_state ex_lags ex_gains); [vm_compute; reflexivity|done..].
Defined.

Lemma FilterSample_dg_entries p sum dg dgs dg' j i :
  FilterSample_dg p sum dg = Some (dgs, dg') →
  sub_frame p < j ∨ i ≠ index p →
  dg_entry dg' j i = dg_entry dg j i.
Proof.
  unfold FilterSample_dg. intros H Hji.
  destruct (for_down _ _ _ _) as [d1|]; simpl in H; [|done].
  destruct (for_up _ _ _ d1) as [d2|]; simpl in H; [|done].
  destruct (for_up _ _ _ dg) as [dg2|] eqn:E; simpl in H; [|done]. simplify_eq.
  destruct (decide (0 ≤ sub_frame p + 1)) as [Hs|Hs];
    [|rewrite for_up_nil in E by lia; by simplify_eq].
  apply (for_up_inv
           (λ j0 (v : list (list float)),
              ∀ j1, j0 ≤ j1 ∨ i ≠ index p → dg_entry v j1 i = dg_entry dg j1 i)
           _ _ _ _ _ E Hs); [done| |lia].
  clear E Hji j. intros j0 v v' Hj0 Hv Hb j Hj.
  destruct (aget dgs j0) as [row|]; simpl in Hb; [|done].
  destruct (for_up _ _ _ _) as [s|]; simpl in Hb; [|done].
  destruct (aget v j0) as [orow|] eqn:Eo; simpl in Hb; [|done].
  destruct (aset orow (index p) s) as [orow'|] eqn:Er; simpl in Hb; [|done].
  destruct (decide (j = j0)) as [->|Hne].
  - unfold dg_entry at 1. rewrite (aget_aset_eq _ _ _ _ Hb). simpl.
    rewrite (aget_aset_ne _ _ _ _ _ Er) by lia.
    rewrite <- Hv by lia. unfold dg_entry. by rewrite Eo.
  - unfold dg_entry at 1. rewrite (aget_aset_ne _ _ _ _ _ Hb) by done.
    apply Hv. lia.
Qed.

Lemma FilterSample_entries in_data pos pl p o d p' o' d' j i :
  FilterSample in_data pos pl (p, o, d) = Some (p', o', d') →
  sub_frame p < j ∨ i ≠ index p →
  dg_entry d' j i = dg_entry d j i.
Proof.
  unfold FilterSample. intros H Hji.
  destruct (shift_damper _) as [ds|]; simpl in H; [|done].
  destruct (fractional_pitch _ _ _) as [sum|]; simpl in H; [|done].
  destruct (aset ds 0 _) as [ds'|]; simpl in H; [|done].
  case_decide.
  - destruct (FilterSample_dg _ _ _) as [[dgs d1]|] eqn:E; simpl in H; [|done].
    apply FilterSample_dg_entries with (j := j) (i := i) in E; [|done].
    bind_inv H. by simplify_eq.
  - simpl in H. bind_inv H. by simplify_eq.
Qed.

Lemma FilterSegment_entries cfg in_data p o d p' o' d' j i :
  FilterSegment cfg in_data (p, o, d) = Some (p', o', d') →
  sub_frame p < j ∨ i < index p →
  dg_entry d' j i = dg_entry d j i.
Proof.
  unfold FilterSegment, FilterSegment_upto. simpl. intros H Hji.
  destruct (decide (0 ≤ num_samples p)) as [Hn|Hn];
    [|rewrite for_up_nil in H by lia; by simplify_eq].
  apply (for_up_inv
           (λ k (v : Work),
              index p ≤ index v.1.1 ∧ sub_frame v.1.1 = sub_frame p ∧
              dg_entry v.2 j i = dg_entry d j i)
           _ _ _ _ _ H Hn); [done|].
  clear H. intros k [[q oq] dq] [[q' oq'] dq'] _ (Hi & Hs & He) Hb. simpl in *.
  pose proof (FilterSample_entries _ _ _ _ _ _ _ _ _ j i Hb) as He'.
  apply FilterSample_inv in Hb as (?&?&?&?&_&_&_&_&_&_&_&Hidx&_&Hfix).
  injection Hfix as _ _ _ _ Es _ _ _.
  split_and!; [lia|congruence|].
  rewrite He'; [done|]. rewrite Hs. lia.
Qed.

Lemma frame_mode_setup_rows cfg p gains dg p' gains' dg' j :
  mode p = kPitchFilterPreGain →
  frame_mode_setup cfg p gains dg = Some (p', gains', dg') →
  0 ≤ j < PITCH_SUBFRAMES →
  aget dg' j = Some (replicate (Z.to_nat (PITCH_FRAME_LEN cfg + QLOOKAHEAD cfg)) 0%float).
Proof.
  intros Hm H Hj. unfold frame_mode_setup in H. rewrite decide_True in H by done.
  destruct (for_up _ _ _ dg) as [dg1|] eqn:E; simpl in H; [|done]. simplify_eq.
  assert (0 ≤ PITCH_SUBFRAMES) as H4 by done.
  apply (for_up_inv
           (λ n (v : list (list float)),
              ∀ k, 0 ≤ k < n →
                   aget v k = Some (replicate (Z.to_nat (PITCH_FRAME_LEN cfg + QLOOKAHEAD cfg))
                                      0%float))
           _ _ _ _ _ E H4); [intros k Hk; lia| |done].
  clear E. intros n v v' Hn Hv Hb k Hk.
  destruct (decide (k = n)) as [->|Hne].
  - by rewrite (aget_aset_eq _ _ _ _ Hb).
  - rewrite (aget_aset_ne _ _ _ _ _ Hb) by done. apply Hv. lia.
Qed.

Lemma frame_sub_frame_early cfg in_data lags gains dg0 m s s' :
  0 ≤ m →
  index s.2.1.1 = m * sub_frame_samples cfg →
  num_samples s.2.1.1 = PITCH_UPDATE cfg →
  early_entries cfg dg0 s.2.2 →
  frame_sub_frame cfg in_data lags gains m s = Some s' →
  index s'.2.1.1 = (m + 1) * sub_frame_samples cfg ∧
  num_samples s'.2.1.1 = PITCH_UPDATE cfg ∧
  sub_frame s'.2.1.1 = m ∧
  early_entries cfg dg0 s'.2.2.
Proof.
  destruct s as [[ol og] [[p o] d]]. simpl. intros Hm Hidx Hns He H.
  apply frame_sub_frame_inv in H as (lag_m & gain_m & w' & _ & _ & Hb & ->). simpl.
  assert (0 ≤ sub_frame_samples cfg) as HL by (unfold sub_frame_samples; lia).
  destruct (decide (0 ≤ PITCH_GRAN_PER_SUBFRAME cfg)) as [Hn|Hn].
  - pose proof Hn as Hn'.
    apply (for_up_inv
             (λ k (v : Work),
                index v.1.1 = m * sub_frame_samples cfg + k * Z.max 0 (PITCH_UPDATE cfg) ∧
                num_samples v.1.1 = PITCH_UPDATE cfg ∧ sub_frame v.1.1 = m ∧
                early_entries cfg dg0 v.2) _ _ _ _ _ Hb) in Hn as (Hi' & ? & ? & ?).
    + split_and!; try done. rewrite Hi'. unfold sub_frame_samples.
      rewrite (Z.max_r 0 (PITCH_GRAN_PER_SUBFRAME cfg)) by done. lia.
    + simpl. split_and!; [lia|done..].
    + clear Hb. intros k [[q oq] dq] [[q' oq'] dq'] Hk (Hiq & Hnq & Hsq & Heq) Hg.
      simpl in Hiq, Hnq, Hsq, Heq |- *.
      pose proof (frame_granule_index _ _ _ _ _ _ Hg) as [Hi2 Hn2]. simpl in Hi2, Hn2.
      apply frame_granule_inv in Hg as (q1 & Hu & Hs).
      apply Update_inv in Hu as (_ & _ & Hfix & _).
      unfold upd_fixed in Hfix. simpl in Hfix. injection Hfix as _ _ _ _ Es1 _ _ Ei1 _.
      pose proof (FilterSegment_fixed _ _ _ _ _ _ _ _ Hs) as Hfix.
      unfold seg_fixed in Hfix. injection Hfix as _ _ _ _ Es2 _ _ _.
      split_and!; [rewrite Hi2, Hiq, Hnq; lia|congruence|congruence|].
      intros j i Hji.
      rewrite (FilterSegment_entries _ _ _ _ _ _ _ _ j i Hs); [by apply Heq|].
      rewrite Es1, Ei1, Hsq, Hiq.
      destruct (decide (m < j)); [by left|right]. nia.
  - rewrite for_up_nil in Hb by lia. simplify_eq. simpl.
    split_and!; try done. unfold sub_frame_samples in *.
    rewrite (Z.max_l 0 (PITCH_GRAN_PER_SUBFRAME cfg)) in * by lia. lia.
Qed.

(** X12: a trial output is zero before the sub-frame of its gain.  A gain
    search clears the four rows of [out_dg] and then, at each sample, writes
    the rows up to the current sub-frame only; so in the result row [j]
    holds 0.0 at every sample before sub-frame [j] begins. *)
Theorem PitchfilterPre_gains_rows cfg in_data out_data out_dg pf_state lags gains r j i :
  WebRtcIsac_PitchfilterPre_gains cfg in_data out_data out_dg pf_state lags gains
    = Some r →
  0 ≤ j < PITCH_SUBFRAMES →
  0 ≤ i < j * sub_frame_samples cfg →
  i < PITCH_FRAME_LEN cfg + QLOOKAHEAD cfg →
  dg_entry (r_out_dg r) j i = Some 0%float.
Proof.
  unfold WebRtcIsac_PitchfilterPre_gains. intros H Hj Hi Hlen.
  apply FilterFrame_inv in H
    as (gains' & ol & og & [[p o] d] & st' & p2 & o2 & d2 & H & _ & Hla & ->).
  apply frame_filter_inv in H as (p0 & dg0 & ol0 & og0 & p1 & Hset & Hanc & Hloop).
  assert (aget dg0 j
          = Some (replicate (Z.to_nat (PITCH_FRAME_LEN cfg + QLOOKAHEAD cfg)) 0%float))
    as Hrow by (eapply frame_mode_setup_rows; [|exact Hset|exact Hj]; done).
  apply frame_mode_setup_inv in Hset as (Hm0 & _ & _ & Hi0 & _).
  apply frame_anchors_inv in Hanc as (lag0 & _ & Hanc).
  assert (run_core p1 = run_core p0 ∧ mode p1 = mode p0) as [Hc1 Hm1].
  { destruct (lag_jump _ _ _).
    - destruct Hanc as (_ & _ & Hanc). case_decide; [|by subst].
      destruct Hanc as [_ ->]. done.
    - destruct Hanc as (_ & _ & ->). done. }
  unfold run_core in Hc1. injection Hc1 as _ _ Ei.
  pose proof (sub_frames_mode _ _ _ _ _ _ Hloop) as Hmode. simpl in Hmode, Hm0.
  assert (0 ≤ PITCH_SUBFRAMES) as H4 by done.
  apply (for_up_inv
           (λ m (s : float * float * Work),
              index s.2.1.1 = m * sub_frame_samples cfg ∧
              num_samples s.2.1.1 = PITCH_UPDATE cfg ∧
              early_entries cfg dg0 s.2.2) _ _ _ _ _ Hloop) in H4 as (Hidx & _ & He).
  - simpl in *. unfold frame_lookahead in Hla.
    rewrite decide_True in Hla by (left; congruence).
    assert (0 ≤ sub_frame_samples cfg) as HL by (unfold sub_frame_samples; lia).
    rewrite (FilterSegment_entries _ _ _ _ _ _ _ _ j i Hla).
    + rewrite He by lia. unfold dg_entry. rewrite Hrow. simpl.
      unfold aget. rewrite decide_True by lia. apply lookup_replicate_2. lia.
    + right. simpl. rewrite Hidx. unfold PITCH_SUBFRAMES in *. nia.
  - simpl. rewrite Ei, Hi0. simpl. split_and!; [lia|done|done].
  - intros m s s1 Hm (Hsi & Hsn & Hse) Hs.
    apply frame_sub_frame_early with (dg0 := dg0) in Hs as (? & ? & _ & ?); [done|lia|done..].
Qed.

Lemma PitchfilterPre_gains_rows_witness :
  ∃ r,
    WebRtcIsac_PitchfilterPre_gains ex_cfg (ex_signal 264) (replicate 264 0%float)
      (replicate 4 []) ex_state ex_lags ex_gains = Some r ∧
    0 ≤ 2 < PITCH_SUBFRAMES ∧ 0 ≤ 100 < 2 * sub_frame_samples ex_cfg ∧
    100 < PITCH_FRAME_LEN ex_cfg + QLOOKAHEAD ex_cfg ∧
    dg_entry (r_out_dg r) 2 100 = Some 0%float ∧
    dg_entry (r_out_dg r) 2 120 ≠ Some 0%float.
Proof.
  eexists. split; [vm_compute; reflexivity|].
  split; [done|]. split; [done|]. split; [done|]. split.
  - eapply (PitchfilterPre_gains_rows ex_cfg (ex_signal 264) (replicate 264 0%float)
              (replicate 4 []) ex_state ex_lags ex_gains);
      [vm_compute; reflexivity|done..].
  - intros H. apply (f_equal probe) in H. vm_compute in H. discriminate H.
Defined.

(** ** The state after a frame without feedback *)

(** The state that a pre-filter frame without feedback commits. *)
Lemma PitchfilterPre_state_Inv (B Bin S G : float → Prop) cfg in_data out st lags gains r :
  (∀ buf row pl s,
     Forall B buf → row ∈ kIntrpCoef → fractional_pitch buf row pl = Some s → S s) →
  (∀ g s, G g → S s → fzero (g * s)%float) →
  (∀ x, Bin x → B (x + x)%float) →
  Forall Bin in_data →
  WebRtcIsac_PitchfilterPre cfg in_data out st lags gains = Some r →
  Forall fzero (ystate st) → Forall B (ubuf st) → B 0%float →
  Forall G (frame_gains cfg (anchor_gain cfg st lags gains) gains) →
  Forall fzero (ystate (r_state r)) ∧ Forall B (ubuf (r_state r)) ∧
  aget gains (PITCH_SUBFRAMES - 1) = Some (oldgainp (r_state r)).
Proof.
  unfold WebRtcIsac_PitchfilterPre. intros HS HG HB Hin H Hy Hu H0 Hg.
  apply FilterFrame_inv in H
    as (gains' & ol & og & [[p o] d] & st' & p2 & o2 & d2 & H & Hexp & _ & ->).
  apply frame_filter_inv in H as (p0 & dg0 & ol0 & og0 & p1 & Hset & Hanc & Hloop).
  apply frame_mode_setup_inv in Hset as (_ & _ & _ & _ & Hp0 & Hgains & _).
  destruct Hp0 as [-> ->]; [done|]. rewrite Hgains in * by done. clear Hgains gains'.
  apply frame_anchors_inv in Hanc as (lag0 & Hlag0 & Hanc).
  assert (og0 = anchor_gain cfg st lags gains ∧ p1 = frame_init cfg st kPitchFilterPre)
    as [-> ->].
  { unfold anchor_gain. rewrite Hlag0. simpl.
    destruct (lag_jump _ _ _).
    - destruct Hanc as (_ & -> & Hp1). simpl in Hp1. done.
    - by destruct Hanc as (_ & -> & ->). }
  pose proof (sub_frames_mode _ _ _ _ _ _ Hloop) as Hmode.
  pose proof (sub_frames_trace _ _ _ _ _ _ Hloop) as (_ & _ & Hlast & _).
  apply (sub_frames_Inv B Bin S G HS HG HB in_data Hin) in Hloop as [(_ & Hd & Hb & _) _].
  - simpl in *. apply frame_export_inv in Hexp.
    rewrite Hmode, decide_False in Hexp by done.
    destruct Hexp as (_ & _ & _ & ->). simpl. split_and!; [| |done].
    + by apply Forall_take.
    + by apply Forall_take, Forall_drop.
  - split_and!; simpl; [done|done| |lia].
    apply Forall_app. split; [done|]. by apply Forall_replicate.
  - intros m n Hm Hn. rewrite Forall_forall in Hg. apply Hg.
    unfold frame_gains. apply list_elem_of_bind. exists m. split.
    + apply list_elem_of_fmap_2. apply elem_of_seq. lia.
    + apply elem_of_seqZ. lia.
Qed.

(** X13: silence is kept.  A pre-filter call on a frame of zeros, from a
    state whose history and damper memory are zeros, with gains that stay
    finite, commits a state whose history and damper memory are zeros again:
    the next frame of zeros starts as this one did. *)
Theorem PitchfilterPre_zero_state cfg in_data out_data pf_state lags gains r :
  WebRtcIsac_PitchfilterPre cfg in_data out_data pf_state lags gains = Some r →
  Forall (λ x, is_zero x = true) in_data →
  Forall (λ x, is_zero x = true) (ubuf pf_state) →
  Forall (λ x, is_zero x = true) (ystate pf_state) →
  Forall (λ g, is_finite g = true)
    (frame_gains cfg (anchor_gain cfg pf_state lags gains) gains) →
  Forall (λ x, is_zero x = true) (ubuf (r_state r)) ∧
  Forall (λ x, is_zero x = true) (ystate (r_state r)).
Proof.
  intros H Hin Hu Hy Hg.
  destruct (PitchfilterPre_state_Inv fzero fzero (λ s, s = 0%float) ffinite
              cfg in_data out_data pf_state lags gains r) as (Hy' & Hu' & _); try done.
  - intros buf row pl s Hb Hrow Hs. by eapply fractional_pitch_zero.
  - intros g s Hgf ->. by apply mul_zero_r.
  - intros x Hx. by apply add_zero.
  - eapply Forall_impl; [exact Hin|]. intros x. apply is_zero_fzero.
  - eapply Forall_impl; [exact Hy|]. intros x. apply is_zero_fzero.
  - eapply Forall_impl; [exact Hu|]. intros x. apply is_zero_fzero.
  - eapply Forall_impl; [exact Hg|]. intros x. apply is_finite_ffinite.
  - split.
    + eapply Forall_impl; [exact Hu'|]. intros x. apply is_zero_fzero.
    + eapply Forall_impl; [exact Hy'|]. intros x. apply is_zero_fzero.
Qed.

Lemma PitchfilterPre_zero_state_witness :
  ∃ r,
    WebRtcIsac_PitchfilterPre ex_cfg (replicate 240 0%float) (replicate 240 1%float)
      ex_zero_state ex_lags ex_gains = Some r ∧
    Forall (λ x, is_zero x = true) (ubuf (r_state r)) ∧
    Forall (λ x, is_zero x = true) (ystate (r_state r)).
Proof.
  eexists. split; [vm_compute; reflexivity|].
  apply (PitchfilterPre_zero_state ex_cfg (replicate 240 0%float) (replicate 240 1%float)
           ex_zero_state ex_lags ex_gains);
    [vm_compute; reflexivity|apply Forall_forallb; vm_compute; reflexivity..].
Defined.

(** X14: with zero gains a filter at rest stays at rest.  Under the
    conditions of the zero-gain identity (zero gains, a zero gain anchor, a
    zero damper memory, samples below [2^900]) the state that the call
    commits has a zero damper memory and a zero last gain, so that the gain
    anchor of the next frame is zero again whatever its lags are. *)
Theorem PitchfilterPre_zero_gains_rest cfg in_data out_data pf_state lags gains r :
  WebRtcIsac_PitchfilterPre cfg in_data out_data pf_state lags gains = Some r →
  Forall (λ g, is_zero g = true) gains →
  is_zero (anchor_gain cfg pf_state lags gains) = true →
  Forall (λ x, is_zero x = true) (ystate pf_state) →
  Forall (λ x, (abs x <? sample_limit)%float = true) (ubuf pf_state) →
  Forall (λ x, (abs x <? sample_limit)%float = true) in_data →
  (0 <? of_int (PITCH_GRAN_PER_SUBFRAME cfg))%float = true →
  Forall (λ x, is_zero x = true) (ystate (r_state r)) ∧
  is_zero (oldgainp (r_state r)) = true ∧
  ∀ lags', is_zero (anchor_gain cfg (r_state r) lags' gains) = true.
Proof.
  intros H Hg Hog Hy Hu Hin Hgran.
  destruct (PitchfilterPre_state_Inv (fbound 903) (fbound 901) ffinite fzero
              cfg in_data out_data pf_state lags gains r) as (Hy' & _ & Hlast); try done.
  - intros buf row pl s Hb Hrow Hs. by eapply (fractional_pitch_finite 903).
  - intros g s Hgz Hs. by apply mul_zero_l.
  - intros x Hx. by apply (add_bound 901).
  - eapply Forall_impl; [exact Hin|]. intros x. apply abs_lt_limit.
  - eapply Forall_impl; [exact Hy|]. intros x. apply is_zero_fzero.
  - eapply Forall_impl; [exact Hu|]. intros x Hx.
    apply (fbound_mono 901); [|lia]. by apply abs_lt_limit.
  - apply frame_gains_zero; [done|by apply is_zero_fzero|].
    eapply Forall_impl; [exact Hg|]. intros x. apply is_zero_fzero.
  - assert (is_zero (oldgainp (r_state r)) = true) as Hz.
    { rewrite Forall_forall in Hg. apply Hg. by eapply aget_elem_of. }
    split_and!; [|done|].
    + eapply Forall_impl; [exact Hy'|]. intros x. apply is_zero_fzero.
    + intros lags'. unfold anchor_gain. destruct (lag_jump _ _ _); [|done].
      destruct (aget gains 0) as [g0|] eqn:E0; simpl; [|done].
      rewrite Forall_forall in Hg. apply Hg. by eapply aget_elem_of.
Qed.

Lemma PitchfilterPre_zero_gains_rest_witness :
  ∃ r,
    WebRtcIsac_PitchfilterPre ex_cfg (ex_signal 240) (replicate 240 0%float)
      ex_rest_state ex_lags ex_zero_gains = Some r ∧
    Forall (λ x, is_zero x = true) (ystate (r_state r)) ∧
    is_zero (oldgainp (r_state r)) = true ∧
    ∀ lags', is_zero (anchor_gain ex_cfg (r_state r) lags' ex_zero_gains) = true.
Proof.
  eexists. split; [vm_compute; reflexivity|].
  apply (PitchfilterPre_zero_gains_rest ex_cfg (ex_signal 240) (replicate 240 0%float)
           ex_rest_state ex_lags ex_zero_gains);
    [vm_compute; reflexivity
    |apply Forall_forallb; vm_compute; reflexivity
    |vm_compute; reflexivity
    |apply Forall_forallb; vm_compute; reflexivity..
    |vm_compute; reflexivity].
Defined.

(** ** Frames in bounds *)

Lemma kIntrpCoef_row_length row :
  row ∈ kIntrpCoef → Z.of_nat (length row) = PITCH_FRACORDER.
Proof.
  unfold kIntrpCoef. intros H.
  repeat (apply elem_of_cons in H as [->|H]; [reflexivity|]).
  by apply elem_of_nil in H.
Qed.

Lemma Update_total cfg p :
  mode p ≠ kPitchFilterPreGain →
  0 ≤ fraction_index_of cfg (lag p) < PITCH_FRACS →
  ∃ row, row ∈ kIntrpCoef ∧
    Update cfg p =
      Some (set_interpol_coeff (set_lag_offset p (lag_offset_of cfg (lag p))) row).
Proof.
  intros Hm Hi.
  destruct (aget_is_Some kIntrpCoef (fraction_index_of cfg (lag p))) as [row Hrow];
    [done|].
  exists row. split; [by eapply aget_elem_of|].
  rewrite Update_values, Hrow. simpl.
  by rewrite decide_False.
Qed.

Lemma frame_granule_total cfg in_data st lags md out m n gd ld w :
  md ≠ kPitchFilterPreGain →
  0 < PITCH_GRAN_PER_SUBFRAME cfg → 0 < PITCH_UPDATE cfg → 0 ≤ PITCH_BUFFSIZE cfg →
  frame_samples cfg + PITCH_BUFFSIZE cfg ≤ buffer_len cfg →
  frame_samples cfg ≤ Z.of_nat (length in_data) →
  frame_samples cfg ≤ Z.of_nat (length out) →
  0 ≤ m < PITCH_SUBFRAMES → 0 ≤ n < PITCH_GRAN_PER_SUBFRAME cfg →
  granule_in_bounds cfg st lags m n = true →
  run_ready cfg md out (m * PITCH_GRAN_PER_SUBFRAME cfg + n) w →
  (lag w.1.1 + ld)%float = frame_lag cfg st lags m n →
  ∃ w', frame_granule cfg in_data gd ld w = Some w' ∧
        run_ready cfg md out (m * PITCH_GRAN_PER_SUBFRAME cfg + (n + 1)) w' ∧
        lag w'.1.1 = (lag w.1.1 + ld)%float.
Proof.
  intros Hmd HG HU HB Hbuf Hin Hout Hm Hn Hgr (Hmode & Hns & Hidx & Hlb & Hld & Hlo) Hlag.
  destruct w as [[p o] d]. simpl in *.
  unfold granule_in_bounds in Hgr. rewrite <- Hlag in Hgr.
  apply andb_prop in Hgr as [Hgr H3]. apply andb_prop in Hgr as [H1 H2].
  apply bool_decide_eq_true in H1, H2, H3.
  unfold frame_granule.
  destruct (Update_total cfg (set_lag (set_gain p (gain p + gd)) (lag p + ld)))
    as (row & Hrow & ->); [simpl; congruence|done|]. simpl.
  assert (frame_samples cfg = PITCH_SUBFRAMES * (PITCH_GRAN_PER_SUBFRAME cfg * PITCH_UPDATE cfg))
    as Hfs by (unfold frame_samples; lia).
  unfold PITCH_SUBFRAMES in *.
  assert ((m * PITCH_GRAN_PER_SUBFRAME cfg + n + 1) * PITCH_UPDATE cfg ≤ frame_samples cfg)
    as Hle by nia.
  assert (0 ≤ (m * PITCH_GRAN_PER_SUBFRAME cfg + n) * PITCH_UPDATE cfg) as Hge by nia.
  match goal with |- ∃ w', FilterSegment cfg in_data (?q, o, d) = Some w' ∧ _ =>
    destruct (FilterSegment_total cfg in_data q o d) as [[[p' o'] d'] Hs] end.
  - simpl. congruence.
  - simpl. lia.
  - unfold segment_in_bounds. simpl. rewrite Hns, Hidx, Hlb.
    rewrite (kIntrpCoef_row_length row Hrow). split_and!; try lia.
  - exists (p', o', d'). split; [done|].
    pose proof (FilterSegment_fixed _ _ _ _ _ _ _ _ Hs) as Hfix.
    apply (FilterSegment_trace _ _ _ _ _ (frame_trace_refl _ _ _)) in Hs
      as [(_ & Hlo' & Hlb' & Hld' & _) Hidx'].
    unfold seg_fixed in Hfix. simpl in *. injection Hfix as _ _ El _ _ Em En _.
    unfold run_ready. simpl. split_and!; try congruence; lia.
Qed.

Lemma frame_sub_frame_total cfg in_data st lags gains md out m s :
  md ≠ kPitchFilterPreGain →
  0 < PITCH_GRAN_PER_SUBFRAME cfg → 0 < PITCH_UPDATE cfg → 0 ≤ PITCH_BUFFSIZE cfg →
  frame_samples cfg + PITCH_BUFFSIZE cfg ≤ buffer_len cfg →
  frame_samples cfg ≤ Z.of_nat (length in_data) →
  frame_samples cfg ≤ Z.of_nat (length out) →
  PITCH_SUBFRAMES ≤ Z.of_nat (length lags) →
  PITCH_SUBFRAMES ≤ Z.of_nat (length gains) →
  0 ≤ m < PITCH_SUBFRAMES →
  (∀ n, 0 ≤ n < PITCH_GRAN_PER_SUBFRAME cfg → granule_in_bounds cfg st lags m n = true) →
  s.1.1 = gain_anchor (anchor_lag cfg st lags) lags m →
  run_ready cfg md out (m * PITCH_GRAN_PER_SUBFRAME cfg) s.2 →
  ∃ s', frame_sub_frame cfg in_data lags gains m s = Some s' ∧
        s'.1.1 = gain_anchor (anchor_lag cfg st lags) lags (m + 1) ∧
        run_ready cfg md out ((m + 1) * PITCH_GRAN_PER_SUBFRAME cfg) s'.2.
Proof.
  intros Hmd HG HU HB Hbuf Hin Hout Hll Hlg Hm Hgr Hol Hr.
  destruct s as [[ol og] [[p o] d]]. simpl in *.
  destruct (aget_is_Some lags m) as [lag_m Hlm]; [lia|].
  destruct (aget_is_Some gains m) as [gain_m Hgm]; [lia|].
  unfold frame_sub_frame. rewrite Hlm, Hgm. simpl.
  set (ld := ((lag_m - ol) / of_int (PITCH_GRAN_PER_SUBFRAME cfg))%float).
  set (gd := ((gain_m - og) / of_int (PITCH_GRAN_PER_SUBFRAME cfg))%float).
  destruct (for_up_total
    (λ n (w : Work),
       run_ready cfg md out (m * PITCH_GRAN_PER_SUBFRAME cfg + n) w ∧
       lag w.1.1 = ramp (Z.to_nat n) ol ld)
    (λ _ w, frame_granule cfg in_data gd ld w)
    0 (PITCH_GRAN_PER_SUBFRAME cfg)
    (set_gain (set_lag (set_sub_frame p m) ol) og, o, d)) as (w' & Hw' & Hr' & _); [lia| | |].
  - split; [|done]. rewrite Z.add_0_r. exact Hr.
  - intros n w Hn [Hrw Hlw].
    destruct (frame_granule_total cfg in_data st lags md out m n gd ld w)
      as (w1 & Hw1 & Hr1 & Hl1); try done.
    + by apply Hgr.
    + rewrite Hlw. unfold frame_lag, frame_gain. rewrite <- Hol, Hlm. simpl.
      done.
    + exists w1. split; [done|]. split; [done|].
      rewrite Hl1, Hlw. replace (Z.to_nat (n + 1)) with (Datatypes.S (Z.to_nat n)) by lia.
      done.
  - rewrite Hw'. simpl. eexists. split; [done|]. simpl. split.
    + unfold gain_anchor. rewrite decide_False by lia.
      replace (m + 1 - 1) with m by lia. by rewrite Hlm.
    + replace ((m + 1) * PITCH_GRAN_PER_SUBFRAME cfg)
        with (m * PITCH_GRAN_PER_SUBFRAME cfg + PITCH_GRAN_PER_SUBFRAME cfg) by lia.
      done.
Qed.

Lemma frame_mode_setup_total cfg p gains dg :
  mode p ≠ kPitchFilterPreGain →
  PITCH_SUBFRAMES ≤ Z.of_nat (length gains) →
  ∃ gains', frame_mode_setup cfg p gains dg = Some (p, gains', dg) ∧
            length gains' = length gains.
Proof.
  intros Hm Hl. unfold frame_mode_setup. rewrite decide_False by done.
  case_decide; [|by eauto].
  destruct gains as [|g0 [|g1 [|g2 [|g3 gs]]]];
    try (simpl in Hl; unfold PITCH_SUBFRAMES in Hl; lia).
  destruct (for_up _ _ _ _) as [gains'|] eqn:E; [|cbv in E; discriminate].
  cbv in E. simplify_eq. simpl. eauto.
Qed.

Lemma frame_anchors_total cfg st lags gains p :
  mode p ≠ kPitchFilterPreGain →
  PITCH_SUBFRAMES ≤ Z.of_nat (length lags) →
  PITCH_SUBFRAMES ≤ Z.of_nat (length gains) →
  ∃ og, frame_anchors cfg st lags gains p = Some (anchor_lag cfg st lags, og, p).
Proof.
  intros Hm Hl Hg. unfold PITCH_SUBFRAMES in *.
  destruct (aget_is_Some lags 0) as [lag0 Hl0]; [lia|].
  destruct (aget_is_Some gains 0) as [g0 Hg0]; [lia|].
  unfold frame_anchors, anchor_lag, lag_jump. rewrite Hl0, Hg0. simpl.
  destruct (_ || _); simpl; [|by eauto].
  rewrite decide_False by done. eauto.
Qed.

(** X15: a frame in bounds is filtered.  A pre-filter or post-filter call
    has a result whenever [frame_in_bounds] holds: the state has its five
    damper slots and a history that, with a frame behind it, fits the work
    buffer; there are four lags and four gains, and input and output hold
    the frame; and at each of the granules the interpolated lag names a row
    of [kIntrpCoef] and puts the nine buffer entries that a sample reads
    inside the work buffer. *)
Theorem FilterFrame_in_bounds cfg in_data st lags gains md out dg :
  md = kPitchFilterPre ∨ md = kPitchFilterPost →
  frame_in_bounds cfg in_data st lags gains out = true →
  is_Some (FilterFrame cfg in_data st lags gains md out dg).
Proof.
  intros Hmd Hb. unfold frame_in_bounds in Hb.
  repeat (apply andb_prop in Hb as [Hb ?]).
  repeat match goal with H : bool_decide _ = true |- _ =>
    apply bool_decide_eq_true in H end.
  assert (∀ m n, 0 ≤ m < PITCH_SUBFRAMES → 0 ≤ n < PITCH_GRAN_PER_SUBFRAME cfg →
                 granule_in_bounds cfg st lags m n = true) as Hgr.
  { intros m n Hm Hn.
    match goal with H : forallb _ _ = true |- _ => rename H into Hall end.
    rewrite forallb_forall in Hall.
    specialize (Hall m). rewrite forallb_forall in Hall.
    apply Hall; apply list_elem_of_In, elem_of_seqZ; lia. }
  assert (md ≠ kPitchFilterPreGain) as Hng by (by destruct Hmd as [->| ->]).
  assert (∃ gains' s, frame_filter cfg in_data st lags gains md out dg = Some (gains', s))
    as (gains' & [[ol og] [[p o] d]] & E).
  { unfold frame_filter.
    rewrite option_guard_True by (unfold buffer_len in *; lia). simpl.
    destruct (frame_mode_setup_total cfg (frame_init cfg st md) gains dg)
      as (gains' & -> & Hlg); [done..|]. simpl.
    destruct (frame_anchors_total cfg st lags gains' (frame_init cfg st md))
      as (og0 & ->); [done|done|lia|]. simpl.
    destruct (for_up_total
      (λ m (s : float * float * Work),
         s.1.1 = gain_anchor (anchor_lag cfg st lags) lags m ∧
         run_ready cfg md out (m * PITCH_GRAN_PER_SUBFRAME cfg) s.2)
      (frame_sub_frame cfg in_data lags gains') 0 PITCH_SUBFRAMES
      (anchor_lag cfg st lags, og0,
       (set_num_samples (frame_init cfg st md) (PITCH_UPDATE cfg), out, dg)))
      as (s' & -> & _); [done| | |by eauto].
    - split; [done|]. unfold run_ready. simpl.
      rewrite length_app, length_replicate. unfold buffer_len in *.
      split_and!; try done; lia.
    - intros m s Hm [Hol Hr].
      destruct (frame_sub_frame_total cfg in_data st lags gains' md out m s)
        as (s' & Hs' & Hol' & Hr'); try done; try lia.
      + intros n Hn. by apply Hgr.
      + eauto. }
  unfold FilterFrame. rewrite E. simpl.
  apply frame_filter_inv in E as (p0 & dg0 & ol0 & og0 & p1 & Hset & Hanc & Hloop).
  apply frame_mode_setup_inv in Hset as (Hm0 & Hb0 & Hd0 & _).
  apply frame_anchors_inv in Hanc as (lag0 & _ & Hanc).
  assert (run_core p1 = run_core p0 ∧ mode p1 = mode p0) as [Hc1 Hm1].
  { destruct (lag_jump _ _ _).
    - destruct Hanc as (_ & _ & Hanc). case_decide; [|by subst].
      destruct Hanc as [_ ->]. done.
    - destruct Hanc as (_ & _ & ->). done. }
  assert (mode p = md) as Hm.
  { apply sub_frames_mode in Hloop. simpl in Hloop, Hm0. congruence. }
  apply sub_frames_trace in Hloop as ((_ & _ & Hlb & Hld & _) & _). simpl in Hlb, Hld.
  unfold run_core in Hc1. injection Hc1 as Eb Ed _.
  rewrite Eb, Hb0 in Hlb. rewrite Ed, Hd0 in Hld. simpl in Hlb, Hld.
  unfold frame_export, frame_lookahead. simpl. rewrite Hm.
  rewrite (decide_True (P := md ≠ kPitchFilterPreGain)) by done.
  rewrite option_guard_True.
  2:{ split; [done|]. rewrite Hlb, length_app, length_replicate.
      unfold buffer_len in *. lia. }
  rewrite option_guard_True by lia. simpl.
  rewrite decide_False by (by destruct Hmd as [->| ->]; intros [?|?]).
  simpl. eauto.
Qed.

Lemma FilterFrame_in_bounds_witness :
  (kPitchFilterPost = kPitchFilterPre ∨ kPitchFilterPost = kPitchFilterPost) ∧
  frame_in_bounds ex_cfg (ex_signal 240) ex_state ex_lags ex_gains (replicate 240 0%float)
    = true ∧
  is_Some (FilterFrame ex_cfg (ex_signal 240) ex_state ex_lags ex_gains kPitchFilterPost
             (replicate 240 0%float) []).
Proof.
  split; [by right|]. split; [vm_compute; reflexivity|].
  apply FilterFrame_in_bounds; [by right|vm_compute; reflexivity].
Defined.

Lemma frame_granule_at cfg in_data gd ld i w w' :
  0 < PITCH_UPDATE cfg →
  run_at cfg i w →
  frame_granule cfg in_data gd ld w = Some w' →
  run_at cfg (i + 1) w' ∧ lag w'.1.1 = (lag w.1.1 + ld)%float ∧
  let lo := lag_offset_of cfg (lag w.1.1 + ld) in
  0 ≤ fraction_index_of cfg (lag w.1.1 + ld) < PITCH_FRACS ∧
  0 ≤ i * PITCH_UPDATE cfg + PITCH_BUFFSIZE cfg - lo ∧
  i * PITCH_UPDATE cfg + PITCH_BUFFSIZE cfg - lo + (PITCH_UPDATE cfg - 1) + PITCH_FRACORDER
    ≤ buffer_len cfg.
Proof.
  destruct w as [[p o] d], w' as [[p' o'] d']. intros HU (Hns & Hidx & Hlb) H.
  simpl in *.
  apply frame_granule_inv in H as (p1 & Hu & Hs).
  pose proof (Update_core _ _ _ Hu) as Hc.
  apply Update_inv in Hu as (Hlo & Hrow & Hfix & _). simpl in Hlo, Hrow.
  unfold upd_fixed in Hfix. simpl in Hfix. injection Hfix as _ _ _ El _ _ En Ei _.
  unfold run_core in Hc. simpl in Hc. injection Hc as Eb _ _.
  pose proof (FilterSegment_fixed _ _ _ _ _ _ _ _ Hs) as Hfix.
  assert (0 < num_samples p1) as Hpos by lia.
  pose proof (FilterSegment_bounds _ _ _ _ _ _ Hpos Hs)
    as (_ & _ & _ & _ & _ & _ & _ & Hpl & Hpln).
  apply (FilterSegment_trace _ _ _ _ _ (frame_trace_refl _ _ _)) in Hs
    as [(_ & _ & Hlb' & _) Hidx'].
  unfold seg_fixed in Hfix. simpl in *. injection Hfix as _ _ El' _ _ _ En' _.
  apply aget_Some in Hrow as [Hrow _].
  change (Z.of_nat (length kIntrpCoef)) with PITCH_FRACS in Hrow.
  unfold run_at. simpl. rewrite Hlo, En, Ei, Eb, ?Hns, ?Hidx, ?Hlb in *.
  split_and!; try done; try lia; congruence.
Qed.

Lemma frame_filter_guard cfg in_data st lags gains md out dg x :
  frame_filter cfg in_data st lags gains md out dg = Some x →
  (length (ubuf st) ≤ Z.to_nat (PITCH_INTBUFFSIZE cfg + QLOOKAHEAD cfg))%nat.
Proof. unfold frame_filter. intros H. by case_guard. Qed.

Lemma frame_sub_frame_at cfg in_data lags gains m s s' :
  0 < PITCH_UPDATE cfg → 0 < PITCH_GRAN_PER_SUBFRAME cfg →
  run_at cfg (m * PITCH_GRAN_PER_SUBFRAME cfg) s.2 →
  frame_sub_frame cfg in_data lags gains m s = Some s' →
  ∃ lag_m,
    aget lags m = Some lag_m ∧ s'.1.1 = lag_m ∧
    run_at cfg ((m + 1) * PITCH_GRAN_PER_SUBFRAME cfg) s'.2 ∧
    ∀ n, 0 ≤ n < PITCH_GRAN_PER_SUBFRAME cfg →
      let lag := ramp (Datatypes.S (Z.to_nat n)) s.1.1
                   ((lag_m - s.1.1) / of_int (PITCH_GRAN_PER_SUBFRAME cfg)) in
      let idx := (m * PITCH_GRAN_PER_SUBFRAME cfg + n) * PITCH_UPDATE cfg in
      let pos_lag := idx + PITCH_BUFFSIZE cfg - lag_offset_of cfg lag in
      0 ≤ fraction_index_of cfg lag < PITCH_FRACS ∧
      0 ≤ pos_lag ∧
      pos_lag + (PITCH_UPDATE cfg - 1) + PITCH_FRACORDER ≤ buffer_len cfg.
Proof.
  destruct s as [[ol og] [[p o] d]]. simpl. intros HU HG Hr H.
  apply frame_sub_frame_inv in H as (lag_m & gain_m & w' & Hl & _ & Hb & ->). simpl.
  exists lag_m. split_and!; [done..| |].
  - assert (0 ≤ PITCH_GRAN_PER_SUBFRAME cfg) as Hle by lia.
    apply (for_up_inv
             (λ n (w : Work), run_at cfg (m * PITCH_GRAN_PER_SUBFRAME cfg + n) w)
             _ _ _ _ _ Hb) in Hle.
    + by replace ((m + 1) * PITCH_GRAN_PER_SUBFRAME cfg)
        with (m * PITCH_GRAN_PER_SUBFRAME cfg + PITCH_GRAN_PER_SUBFRAME cfg) by lia.
    + rewrite Z.add_0_r. exact Hr.
    + intros n w w1 Hn Hw Hg.
      apply frame_granule_at with (i := m * PITCH_GRAN_PER_SUBFRAME cfg + n) in Hg
        as (Hw1 & _); [|done..].
      by rewrite Z.add_assoc.
  - intros n Hn.
    destruct (for_up_at
      (λ n (w : Work),
         run_at cfg (m * PITCH_GRAN_PER_SUBFRAME cfg + n) w ∧
         lag w.1.1 = ramp (Z.to_nat n) ol
                       ((lag_m - ol) / of_int (PITCH_GRAN_PER_SUBFRAME cfg)))
      _ _ _ _ _ n Hb Hn) as (t & t' & [Ht Hlag] & Hg).
    + split; [|done]. rewrite Z.add_0_r. exact Hr.
    + intros j w w1 Hj [Hw Hlw] Hg.
      apply frame_granule_at with (i := m * PITCH_GRAN_PER_SUBFRAME cfg + j) in Hg
        as (Hw1 & Hl1 & _); [|done..].
      split; [by rewrite Z.add_assoc|].
      rewrite Hl1, Hlw. by replace (Z.to_nat (j + 1)) with (Datatypes.S (Z.to_nat j)) by lia.
    + apply frame_granule_at with (i := m * PITCH_GRAN_PER_SUBFRAME cfg + n) in Hg
        as (_ & _ & Hfacts); [|done..].
      simpl in Hfacts. rewrite Hlag in Hfacts. exact Hfacts.
Qed.

(** X16: the lags that a call needs.  In a call that has a result, in any
    mode, every granule was in bounds: its interpolated lag named one of the
    eight rows of [kIntrpCoef], and its lag offset was neither so large that
    a sample read before the start of the work buffer nor so small that it
    read past its end. *)
Theorem FilterFrame_granules_in_bounds cfg in_data st lags gains md out dg r m n :
  FilterFrame cfg in_data st lags gains md out dg = Some r →
  0 < PITCH_UPDATE cfg →
  0 ≤ m < PITCH_SUBFRAMES → 0 ≤ n < PITCH_GRAN_PER_SUBFRAME cfg →
  granule_in_bounds cfg st lags m n = true.
Proof.
  intros H HU Hm Hn.
  apply FilterFrame_inv in H
    as (gains' & ol & og & w & st' & p2 & o2 & d2 & H & _ & _ & _).
  pose proof (frame_filter_guard _ _ _ _ _ _ _ _ _ H) as Hguard.
  apply frame_filter_inv in H as (p0 & dg0 & ol0 & og0 & p1 & Hset & Hanc & Hloop).
  apply frame_mode_setup_inv in Hset as (_ & Hb0 & _ & Hi0 & _).
  apply frame_anchors_inv in Hanc as (lag0 & Hlag0 & Hanc).
  assert (run_core p1 = run_core p0 ∧ ol0 = anchor_lag cfg st lags) as [Hc1 ->].
  { unfold anchor_lag. rewrite Hlag0. simpl. destruct (lag_jump _ _ _).
    - destruct Hanc as (-> & _ & Hanc). split; [|done]. case_decide; [|by subst].
      destruct Hanc as [_ ->]. done.
    - destruct Hanc as (-> & _ & ->). done. }
  unfold run_core in Hc1. injection Hc1 as Eb _ Ei.
  destruct (for_up_at
    (λ m (s : float * float * Work),
       s.1.1 = gain_anchor (anchor_lag cfg st lags) lags m ∧
       run_at cfg (m * PITCH_GRAN_PER_SUBFRAME cfg) s.2)
    _ _ _ _ _ m Hloop Hm) as (t & t' & [Hol Ht] & Hs).
  - split; [done|]. unfold run_at. simpl.
    rewrite Eb, Hb0, Ei, Hi0. simpl. rewrite length_app, length_replicate.
    unfold buffer_len. split_and!; [done|done|lia].
  - intros j s s1 Hj [Hol Hr] Hs.
    apply frame_sub_frame_at in Hs as (lag_j & Hlj & Hs1 & Hr1 & _); [|lia..|done].
    split; [|done]. unfold gain_anchor. rewrite decide_False by lia.
    replace (j + 1 - 1) with j by lia. by rewrite Hlj.
  - apply frame_sub_frame_at in Hs as (lag_m & Hlm & _ & _ & Hfacts); [|lia..|done].
    specialize (Hfacts n Hn). simpl in Hfacts. destruct Hfacts as (H1 & H2 & H3).
    unfold granule_in_bounds, frame_lag, frame_gain. rewrite Hlm, <- Hol. simpl.
    rewrite !bool_decide_eq_true_2 by done. done.
Qed.

Lemma FilterFrame_granules_in_bounds_witness :
  ∃ r,
    FilterFrame ex_cfg (ex_signal 264) ex_state ex_lags ex_gains kPitchFilterPreGain
      (replicate 264 0%float) (replicate 4 []) = Some r ∧
    0 < PITCH_UPDATE ex_cfg ∧ 0 ≤ 2 < PITCH_SUBFRAMES ∧
    0 ≤ 3 < PITCH_GRAN_PER_SUBFRAME ex_cfg ∧
    granule_in_bounds ex_cfg ex_state ex_lags 2 3 = true.
Proof.
  eexists. split; [vm_compute; reflexivity|].
  split; [done|]. split; [done|]. split; [done|].
  eapply (FilterFrame_granules_in_bounds ex_cfg (ex_signal 264) ex_state ex_lags ex_gains
            kPitchFilterPreGain (replicate 264 0%float) (replicate 4 []));
    [vm_compute; reflexivity|done..].
Defined.

(** Lags of [2^32 + 40] are in bounds too: [Update] keeps the low 32 bits of
    the rounded offset, 42 as for the lag 40, and the frame is filtered as
    with lags of 40. *)
Example far_lags_in_bounds :
  let out lags :=
    r ← WebRtcIsac_PitchfilterPre ex_cfg (ex_signal 240) (replicate 240 0%float)
           ex_state lags ex_gains;
    Some (map Prim2SF (r_out_data r)) in
  frame_in_bounds ex_cfg (ex_signal 240) ex_state ex_far_lags ex_gains
    (replicate 240 0%float) = true ∧
  is_Some (out ex_far_lags) ∧
  out ex_far_lags = out [40; 40; 40; 40]%float.
Proof. vm_compute. split_and!; [done|by eexists|done]. Qed.

